(** * Global Entry appointment checker: a shallow embedding of
    [check-appointments.js] and the properties of its poll / compare /
    notify / persist cycle.

    Layout: JavaScript strings, numbers and the built-ins the script
    calls ([split], [trim], [<], [parseInt], [JSON.parse],
    [JSON.stringify], [Set]), then the script itself function by
    function in a small state and exception monad, then the theorems. *)

From Stdlib Require Import String Ascii.
From Stdlib Require Import List NArith ZArith Bool Lia.
Import ListNotations.

Set Warnings "-register-all".

(* ================================================================== *)
(** ** JavaScript strings *)
(* ================================================================== *)

(** A JavaScript string is a sequence of UTF-16 code units.  A code unit
    is kept as a number; the units a real string holds are below 65536. *)
Definition code_unit := N.
Definition jsstring := list code_unit.

Local Open Scope N_scope.

(** [lit] turns an ASCII literal of the development into a JavaScript
    string, one code unit per character. *)
Definition lit (s : string) : jsstring :=
  List.map N_of_ascii (list_ascii_of_string s).
Arguments lit s%_string.

Fixpoint str_eqb (a b : jsstring) : bool :=
  match a, b with
  | [], [] => true
  | x :: a', y :: b' => N.eqb x y && str_eqb a' b'
  | _, _ => false
  end.

(** [a < b] on two strings: code unit by code unit, a proper prefix
    being smaller. *)
Fixpoint str_ltb (a b : jsstring) : bool :=
  match a, b with
  | _, [] => false
  | [], _ :: _ => true
  | x :: a', y :: b' =>
      if N.ltb x y then true
      else if N.ltb y x then false
      else str_ltb a' b'
  end.

(** [s.split(sep)] for a separator of one code unit, as the script uses it
    (with [','], [':'] and ['T']).  The result is never empty. *)
Fixpoint split (sep : code_unit) (s : jsstring) : list jsstring :=
  match s with
  | [] => [[]]
  | c :: r =>
      if N.eqb c sep then [] :: split sep r
      else match split sep r with
           | [] => [[c]]
           | h :: t => (c :: h) :: t
           end
  end.

(** White space and line terminators, the characters [trim] and
    [parseInt] strip. *)
Definition is_white_space (c : code_unit) : bool :=
  (N.leb 9 c && N.leb c 13) || N.eqb c 32 || N.eqb c 160 || N.eqb c 5760
  || (N.leb 8192 c && N.leb c 8202) || N.eqb c 8232 || N.eqb c 8233
  || N.eqb c 8239 || N.eqb c 8287 || N.eqb c 12288 || N.eqb c 65279.

Fixpoint trim_start (s : jsstring) : jsstring :=
  match s with
  | c :: r => if is_white_space c then trim_start r else s
  | [] => []
  end.

Definition trim (s : jsstring) : jsstring :=
  rev (trim_start (rev (trim_start s))).

(** Truthiness of a value that is a string or [undefined]: the empty
    string and [undefined] are falsy. *)
Definition truthy (v : option jsstring) : bool :=
  match v with
  | Some (_ :: _) => true
  | _ => false
  end.

(** [a || b] on such values. *)
Definition js_or (a b : option jsstring) : option jsstring :=
  if truthy a then a else b.

Definition colon : code_unit := 58.
Definition comma : code_unit := 44.
Definition letter_T : code_unit := 84.
Definition underscore : code_unit := 95.

Definition is_digit (c : code_unit) : bool := N.leb 48 c && N.leb c 57.

Fixpoint take_digits (s : jsstring) : jsstring * jsstring :=
  match s with
  | c :: r =>
      if is_digit c then let '(d, rest) := take_digits r in (c :: d, rest)
      else ([], s)
  | [] => ([], [])
  end.

(** One optional character satisfying [p]. *)
Definition take_if (p : code_unit -> bool) (s : jsstring)
  : jsstring * jsstring :=
  match s with
  | c :: r => if p c then ([c], r) else ([], s)
  | [] => ([], [])
  end.

(* ================================================================== *)
(** ** JavaScript numbers *)
(* ================================================================== *)

(** A number is an IEEE 754 double: [NaN], an infinity, or
    [(-1)^negative * m * 2^e].  The numbers built below have [m] odd, or
    [m = 0] and [e = 0], so that equal finite values of one sign are
    equal terms; the two zeros differ in [negative]. *)
Inductive number : Type :=
| NaN
| Infinity (negative : bool)
| Finite (negative : bool) (m : N) (e : Z).

(** [n * 2^e], the factors of two of [n] moved into the exponent. *)
Definition normalize (negative : bool) (n e : Z) : number :=
  if (n =? 0)%Z then Finite negative 0 0
  else
    let tz := Z.log2 (Z.land n (- n)) in
    Finite negative (Z.to_N (Z.shiftr n tz)) (e + tz).

(** The double nearest to [p / q], for [0 <= p] and [0 < q], a tie going
    to the even significand: 53 bits of significand, the exponent of the
    last bit between -1074 and 971, and infinity from 2^1024 on. *)
Definition double_of_ratio (negative : bool) (p q : Z) : number :=
  if (p =? 0)%Z then Finite negative 0 0
  else
    let t := (Z.log2 p - Z.log2 q)%Z in
    let at_least_2t :=
      if (0 <=? t)%Z then (q * 2 ^ t <=? p)%Z else (q <=? p * 2 ^ (- t))%Z in
    let e := Z.max (-1074) (if at_least_2t then t - 52 else t - 53) in
    let num := if (e <? 0)%Z then (p * 2 ^ (- e))%Z else p in
    let den := if (e <? 0)%Z then q else (q * 2 ^ e)%Z in
    let n := (num / den)%Z in
    let r := (num mod den)%Z in
    let n' :=
      if (den <? 2 * r)%Z || ((den =? 2 * r)%Z && Z.odd n)
      then (n + 1)%Z else n in
    if (971 <? e)%Z || ((e =? 971)%Z && (2 ^ 53 <=? n')%Z)
    then Infinity negative
    else normalize negative n' e.

Definition number_of_nat (n : nat) : number :=
  double_of_ratio false (Z.of_nat n) 1.

(** [ToBoolean] of a number: zero and [NaN] are falsy. *)
Definition number_truthy (x : number) : bool :=
  match x with
  | NaN => false
  | Infinity _ => true
  | Finite _ m _ => negb (N.eqb m 0)
  end.

(** [x === 0]. *)
Definition is_zero (x : number) : bool :=
  match x with
  | Finite _ 0 _ => true
  | _ => false
  end.

(** Two numbers that are the same value, [NaN] being the same as itself
    and the two zeros the same. *)
Definition same_number (x y : number) : bool :=
  match x, y with
  | NaN, NaN => true
  | Infinity a, Infinity b => Bool.eqb a b
  | Finite a m e, Finite b m' e' =>
      N.eqb m m' && (N.eqb m 0 || (Bool.eqb a b && Z.eqb e e'))
  | _, _ => false
  end.

(** The value of a string of decimal digits. *)
Definition digits_value (s : jsstring) : Z :=
  fold_left (fun a c => (a * 10 + (Z.of_N c - 48))%Z) s 0%Z.

(** The number for [digits * 10^x].  A value from 10^310 on is beyond
    every double, one below 10^-330 is nearer to zero than to any other
    double; between them the value is rounded as a ratio. *)
Definition number_of_decimal (negative : bool) (digits : jsstring) (x : Z)
  : number :=
  let d := digits_value digits in
  if (d =? 0)%Z then Finite negative 0 0
  else if (310 <? x)%Z then Infinity negative
  else if (x + Z.of_nat (length digits) <? -330)%Z then Finite negative 0 0
  else if (0 <=? x)%Z then double_of_ratio negative (d * 10 ^ x) 1
  else double_of_ratio negative d (10 ^ (- x)).

(** The number a numeric literal of JSON denotes: an optional minus, the
    digits of the integer part, an optional fraction, an optional
    exponent. *)
Definition number_of_literal (literal : jsstring) : number :=
  let '(sign, s1) := take_if (N.eqb 45) literal in
  let '(int_digits, s2) := take_digits s1 in
  let '(frac_digits, s3) :=
    match s2 with
    | 46 :: r => take_digits r
    | _ => ([], s2)
    end in
  let x :=
    match s3 with
    | _ :: r =>
        let '(sg, r1) := take_if (fun c => N.eqb c 43 || N.eqb c 45) r in
        let v := digits_value (fst (take_digits r1)) in
        match sg with
        | [45] => (- v)%Z
        | _ => v
        end
    | [] => 0%Z
    end in
  number_of_decimal (negb (Nat.eqb (length sign) 0))
    (int_digits ++ frac_digits) (x - Z.of_nat (length frac_digits)).

(** *** Number::toString *)

Fixpoint uint_digits (d : Decimal.uint) : jsstring :=
  match d with
  | Decimal.Nil => []
  | Decimal.D0 r => 48 :: uint_digits r
  | Decimal.D1 r => 49 :: uint_digits r
  | Decimal.D2 r => 50 :: uint_digits r
  | Decimal.D3 r => 51 :: uint_digits r
  | Decimal.D4 r => 52 :: uint_digits r
  | Decimal.D5 r => 53 :: uint_digits r
  | Decimal.D6 r => 54 :: uint_digits r
  | Decimal.D7 r => 55 :: uint_digits r
  | Decimal.D8 r => 56 :: uint_digits r
  | Decimal.D9 r => 57 :: uint_digits r
  end.

(** The decimal digits of a natural number, ["0"] for zero. *)
Definition decimal (n : N) : jsstring := uint_digits (N.to_uint n).

(** [p / q < 10^n]. *)
Definition below_pow10 (p q n : Z) : bool :=
  if (0 <=? n)%Z then (p <? q * 10 ^ n)%Z else (p * 10 ^ (- n) <? q)%Z.

Fixpoint magnitude_from (fuel : nat) (p q n : Z) : Z :=
  match fuel with
  | O => n
  | S fuel' =>
      if below_pow10 p q n then n else magnitude_from fuel' p q (n + 1)
  end.

(** The integer [n] with [10^(n-1) <= p / q < 10^n], found upwards from
    an estimate that lies at most four below it. *)
Definition magnitude (p q : Z) : Z :=
  magnitude_from 8 p q (((Z.log2 p - Z.log2 q) * 30103) / 100000 - 2).

(** The shortest digits that read back as [x = p / q], whose magnitude
    is [n]: for k = 1, 2, ... the two integers [s] next to
    [x / 10^(n-k)] are tried, and of those with
    [double_of_ratio (s * 10^(n-k)) = x] the nearer one is taken, the
    even one on a tie.  Returns [s] and the exponent [n - k]. *)
Fixpoint shortest (fuel : nat) (x : number) (p q n k : Z) : Z * Z :=
  match fuel with
  | O => (0, 0)%Z
  | S fuel' =>
      let x10 := (n - k)%Z in
      let P := if (0 <=? x10)%Z then p else (p * 10 ^ (- x10))%Z in
      let Q := if (0 <=? x10)%Z then (q * 10 ^ x10)%Z else q in
      let lo := (P / Q)%Z in
      let r := (P mod Q)%Z in
      let hi := (lo + 1)%Z in
      let reads_back (s : Z) :=
        same_number
          (if (0 <=? x10)%Z then double_of_ratio false (s * 10 ^ x10) 1
           else double_of_ratio false s (10 ^ (- x10)))
          x in
      let lo_ok := (0 <? lo)%Z && reads_back lo in
      let hi_ok := reads_back hi in
      if lo_ok && hi_ok then
        if (2 * r <? Q)%Z then (lo, x10)
        else if (Q <? 2 * r)%Z then (hi, x10)
        else if Z.even lo then (lo, x10) else (hi, x10)
      else if lo_ok then (lo, x10)
      else if hi_ok then (hi, x10)
      else shortest fuel' x p q n (k + 1)
  end.

Definition zeros (n : Z) : jsstring := repeat 48 (Z.to_nat n).

(** [ToString] of a number, as template literals and [JSON.stringify]
    apply it. *)
Definition Number_toString (x : number) : jsstring :=
  match x with
  | NaN => lit "NaN"
  | Infinity negative =>
      (if negative then lit "-" else []) ++ lit "Infinity"
  | Finite _ 0 _ => lit "0"
  | Finite negative m e =>
      let p := if (0 <=? e)%Z then (Z.of_N m * 2 ^ e)%Z else Z.of_N m in
      let q := if (0 <=? e)%Z then 1%Z else (2 ^ (- e))%Z in
      let n0 := magnitude p q in
      let '(s0, x0) := shortest 17 (Finite false m e) p q n0 1 in
      let '(s, x10) :=
        if (s0 =? 10)%Z then (1%Z, (x0 + 1)%Z) else (s0, x0) in
      let digits := decimal (Z.to_N s) in
      let k := Z.of_nat (length digits) in
      let n := (x10 + k)%Z in
      (if negative then lit "-" else []) ++
      (if (k <=? n)%Z && (n <=? 21)%Z then digits ++ zeros (n - k)
       else if (0 <? n)%Z && (n <=? 21)%Z then
         firstn (Z.to_nat n) digits ++ 46 :: skipn (Z.to_nat n) digits
       else if (-6 <? n)%Z && (n <=? 0)%Z then
         48 :: 46 :: zeros (- n) ++ digits
       else
         let e10 := (n - 1)%Z in
         let mantissa :=
           match digits with
           | [d] => [d]
           | d :: rest => d :: 46 :: rest
           | [] => []
           end in
         mantissa ++ 101 :: (if (e10 <? 0)%Z then 45 else 43)
                  :: decimal (Z.to_N (Z.abs e10)))
  end.

(** *** parseInt *)

Definition digit_value (radix : N) (c : code_unit) : option N :=
  let v :=
    if N.leb 48 c && N.leb c 57 then Some (c - 48)
    else if N.leb 97 c && N.leb c 122 then Some (c - 87)
    else if N.leb 65 c && N.leb c 90 then Some (c - 55)
    else None in
  match v with
  | Some d => if N.ltb d radix then Some d else None
  | None => None
  end.

Fixpoint parse_digits (radix : N) (acc : option N) (s : jsstring) : option N :=
  match s with
  | c :: r =>
      match digit_value radix c with
      | Some d =>
          parse_digits radix
            (Some (match acc with Some a => a * radix + d | None => d end)) r
      | None => acc
      end
  | [] => acc
  end.

(** [parseInt(s)] with no radix argument: leading white space, a sign,
    an optional [0x] that selects radix 16, then the longest run of
    digits; [NaN] when there is none.  The result is the double nearest
    to the integer the digits denote. *)
Definition parseInt (s : jsstring) : number :=
  let s := trim_start s in
  let '(neg, s) :=
    match s with
    | 45 :: r => (true, r)
    | 43 :: r => (false, r)
    | _ => (false, s)
    end in
  let '(radix, s) :=
    match s with
    | 48 :: 120 :: r => (16, r)
    | 48 :: 88 :: r => (16, r)
    | _ => (10, s)
    end in
  match parse_digits radix None s with
  | Some n => double_of_ratio neg (Z.of_N n) 1
  | None => NaN
  end.

(* ================================================================== *)
(** ** JSON values, [JSON.stringify] and [JSON.parse] *)
(* ================================================================== *)

(** A JavaScript value that [JSON.parse] can produce; the body of an
    HTTP response is one too.  An object is carried by the members its
    text lists, in that order: a member whose key occurred before
    replaces the value of the earlier one ([get_property],
    [own_properties]). *)
Inductive json : Type :=
| JNull
| JBool (b : bool)
| JNum (n : number)
| JStr (s : jsstring)
| JArr (items : list json)
| JObj (members : list (jsstring * json)).

(** [object[k]] for an object built from [members]; [None] is
    [undefined].  [Object.prototype] has none of the keys the script
    reads. *)
Definition get_property {A} (members : list (jsstring * A)) (k : jsstring)
  : option A :=
  fold_left (fun found '(k', v) => if str_eqb k' k then Some v else found)
            members None.

(** The array index a property key denotes: a decimal numeral without
    leading zero, below 2^32 - 1. *)
Definition array_index (k : jsstring) : option N :=
  match k with
  | [] => None
  | c :: r =>
      if forallb is_digit k
         && (negb (N.eqb c 48) || Nat.eqb (length r) 0)
         && Nat.leb (length k) 10
         && N.ltb (Z.to_N (digits_value k)) 4294967295
      then Some (Z.to_N (digits_value k))
      else None
  end.

(** Defining the property [k]: a key the object has keeps its place and
    takes the new value, a new key goes last. *)
Fixpoint define_property {A} (members : list (jsstring * A))
  (k : jsstring) (v : A) : list (jsstring * A) :=
  match members with
  | [] => [(k, v)]
  | (k', v') :: rest =>
      if str_eqb k' k then (k', v) :: rest
      else (k', v') :: define_property rest k v
  end.

Fixpoint insert_by_index {A} (i : N) (kv : jsstring * A)
  (sorted : list (N * (jsstring * A))) : list (N * (jsstring * A)) :=
  match sorted with
  | [] => [(i, kv)]
  | (j, kv') :: rest =>
      if N.ltb i j then (i, kv) :: sorted
      else (j, kv') :: insert_by_index i kv rest
  end.

(** The properties of the object built from [members], in the order in
    which they are enumerated: the array indices in ascending order,
    then the other keys in the order of their creation. *)
Definition own_properties {A} (members : list (jsstring * A))
  : list (jsstring * A) :=
  let defined :=
    fold_left (fun acc '(k, v) => define_property acc k v) members [] in
  let indexed :=
    fold_left
      (fun acc kv =>
         match array_index (fst kv) with
         | Some i => insert_by_index i kv acc
         | None => acc
         end)
      defined [] in
  List.map snd indexed
  ++ filter (fun kv => match array_index (fst kv) with
                       | Some _ => false
                       | None => true
                       end) defined.

Definition is_high_surrogate (c : code_unit) : bool :=
  N.leb 55296 c && N.leb c 56319.
Definition is_low_surrogate (c : code_unit) : bool :=
  N.leb 56320 c && N.leb c 57343.

Definition hex_char (d : N) : code_unit :=
  if N.ltb d 10 then 48 + d else 87 + d.

(** [\uXXXX] with four lower-case hexadecimal digits. *)
Definition unicode_escape (c : code_unit) : jsstring :=
  [92; 117; hex_char ((c / 4096) mod 16); hex_char ((c / 256) mod 16);
   hex_char ((c / 16) mod 16); hex_char (c mod 16)].

(** The characters of a quoted JSON string, without the two quotes:
    short escapes for backspace, tab, newline, form feed, carriage return,
    quote and backslash; [\uXXXX] for the other control characters and for
    a surrogate that is not part of a pair; every other character as it
    is. *)
Fixpoint quote_body (s : jsstring) : jsstring :=
  match s with
  | [] => []
  | c :: r =>
      if N.eqb c 8 then 92 :: 98 :: quote_body r
      else if N.eqb c 9 then 92 :: 116 :: quote_body r
      else if N.eqb c 10 then 92 :: 110 :: quote_body r
      else if N.eqb c 12 then 92 :: 102 :: quote_body r
      else if N.eqb c 13 then 92 :: 114 :: quote_body r
      else if N.eqb c 34 then 92 :: 34 :: quote_body r
      else if N.eqb c 92 then 92 :: 92 :: quote_body r
      else if N.ltb c 32 then unicode_escape c ++ quote_body r
      else if is_high_surrogate c then
        match r with
        | d :: r' =>
            if is_low_surrogate d then c :: d :: quote_body r'
            else unicode_escape c ++ quote_body r
        | [] => unicode_escape c
        end
      else if is_low_surrogate c then unicode_escape c ++ quote_body r
      else c :: quote_body r
  end.

Definition quote (s : jsstring) : jsstring :=
  34 :: quote_body s ++ [34].

(** [parts.join(",")] on strings. *)
Fixpoint join_comma (parts : list jsstring) : jsstring :=
  match parts with
  | [] => []
  | [p] => p
  | p :: rest => p ++ comma :: join_comma rest
  end.

(** [JSON.stringify(v)] with no indentation.  A number that is not
    finite is written as [null]. *)
Fixpoint JSON_stringify (v : json) : jsstring :=
  match v with
  | JNull => lit "null"
  | JBool true => lit "true"
  | JBool false => lit "false"
  | JNum (Finite negative m e) => Number_toString (Finite negative m e)
  | JNum _ => lit "null"
  | JStr s => quote s
  | JArr items => 91 :: join_comma (List.map JSON_stringify items) ++ [93]
  | JObj members =>
      123 :: join_comma
               (List.map (fun '(k, text) => quote k ++ colon :: text)
                  (own_properties
                     (List.map (fun '(k, x) => (k, JSON_stringify x))
                               members)))
          ++ [125]
  end.

(** *** The parser *)

(** JSON white space: space, tab, line feed, carriage return. *)
Definition is_json_ws (c : code_unit) : bool :=
  N.eqb c 32 || N.eqb c 9 || N.eqb c 10 || N.eqb c 13.

Fixpoint skip_ws (s : jsstring) : jsstring :=
  match s with
  | c :: r => if is_json_ws c then skip_ws r else s
  | [] => []
  end.

Definition hex_value (c : code_unit) : option N := digit_value 16 c.

Definition hex4 (a b c d : code_unit) : option code_unit :=
  match hex_value a, hex_value b, hex_value c, hex_value d with
  | Some x, Some y, Some z, Some w => Some (((x * 16 + y) * 16 + z) * 16 + w)
  | _, _, _, _ => None
  end.

Definition simple_escape (e : code_unit) : option code_unit :=
  if N.eqb e 34 then Some 34
  else if N.eqb e 92 then Some 92
  else if N.eqb e 47 then Some 47
  else if N.eqb e 98 then Some 8
  else if N.eqb e 102 then Some 12
  else if N.eqb e 110 then Some 10
  else if N.eqb e 114 then Some 13
  else if N.eqb e 116 then Some 9
  else None.

Definition cons_result (c : code_unit) (r : option (jsstring * jsstring))
  : option (jsstring * jsstring) :=
  match r with
  | Some (s, rest) => Some (c :: s, rest)
  | None => None
  end.

(** The characters of a string after its opening quote, up to and
    including the closing one; returns the string and what follows. *)
Fixpoint parse_string_body (s : jsstring) : option (jsstring * jsstring) :=
  match s with
  | [] => None
  | c :: r =>
      if N.eqb c 34 then Some ([], r)
      else if N.eqb c 92 then
        match r with
        | [] => None
        | e :: r' =>
            if N.eqb e 117 then
              match r' with
              | h1 :: h2 :: h3 :: h4 :: r'' =>
                  match hex4 h1 h2 h3 h4 with
                  | Some u => cons_result u (parse_string_body r'')
                  | None => None
                  end
              | _ => None
              end
            else
              match simple_escape e with
              | Some u => cons_result u (parse_string_body r')
              | None => None
              end
        end
      else if N.ltb c 32 then None
      else cons_result c (parse_string_body r)
  end.

(** The integer part: a single zero, or digits not starting with zero. *)
Definition parse_int_part (s : jsstring) : option (jsstring * jsstring) :=
  match s with
  | c :: r =>
      if N.eqb c 48 then Some ([c], r)
      else if is_digit c then Some (take_digits s)
      else None
  | [] => None
  end.

(** An optional fraction: a dot and at least one digit. *)
Definition parse_fraction (s : jsstring) : option (jsstring * jsstring) :=
  match s with
  | c :: r =>
      if N.eqb c 46 then
        match take_digits r with
        | ([], _) => None
        | (d, rest) => Some (c :: d, rest)
        end
      else Some ([], s)
  | [] => Some ([], [])
  end.

(** An optional exponent: [e] or [E], an optional sign, at least one
    digit. *)
Definition parse_exponent (s : jsstring) : option (jsstring * jsstring) :=
  match s with
  | e :: r =>
      if N.eqb e 101 || N.eqb e 69 then
        let '(sg, r1) := take_if (fun c => N.eqb c 43 || N.eqb c 45) r in
        match take_digits r1 with
        | ([], _) => None
        | (d, rest) => Some (e :: sg ++ d, rest)
        end
      else Some ([], s)
  | [] => Some ([], [])
  end.

(** The literal of a JSON number: optional minus, integer part,
    optional fraction, optional exponent. *)
Definition parse_number (s : jsstring) : option (jsstring * jsstring) :=
  let '(sign, s1) := take_if (N.eqb 45) s in
  match parse_int_part s1 with
  | None => None
  | Some (i, s2) =>
      match parse_fraction s2 with
      | None => None
      | Some (f, s3) =>
          match parse_exponent s3 with
          | None => None
          | Some (x, s4) => Some (sign ++ i ++ f ++ x, s4)
          end
      end
  end.

Fixpoint strip_prefix (p s : jsstring) : option jsstring :=
  match p, s with
  | [], _ => Some s
  | a :: p', b :: s' => if N.eqb a b then strip_prefix p' s' else None
  | _ :: _, [] => None
  end.

(** One JSON value at the head of [s] (white space before it already
    skipped), and what follows it.  [fuel] bounds the nesting of calls;
    [JSON_parse] below supplies enough of it for any input. *)
Fixpoint parse_value (fuel : nat) (s : jsstring) {struct fuel}
  : option (json * jsstring) :=
  match fuel with
  | O => None
  | S fuel' =>
      match s with
      | [] => None
      | c :: r =>
          if N.eqb c 34 then
            match parse_string_body r with
            | Some (str, rest) => Some (JStr str, rest)
            | None => None
            end
          else if N.eqb c 91 then
            match skip_ws r with
            | c1 :: rest =>
                if N.eqb c1 93 then Some (JArr [], rest)
                else
                  match parse_elements fuel' (c1 :: rest) with
                  | Some (items, rest') => Some (JArr items, rest')
                  | None => None
                  end
            | [] => None
            end
          else if N.eqb c 123 then
            match skip_ws r with
            | c1 :: rest =>
                if N.eqb c1 125 then Some (JObj [], rest)
                else
                  match parse_members fuel' (c1 :: rest) with
                  | Some (members, rest') => Some (JObj members, rest')
                  | None => None
                  end
            | [] => None
            end
          else if N.eqb c 110 then
            match strip_prefix (lit "ull") r with
            | Some rest => Some (JNull, rest)
            | None => None
            end
          else if N.eqb c 116 then
            match strip_prefix (lit "rue") r with
            | Some rest => Some (JBool true, rest)
            | None => None
            end
          else if N.eqb c 102 then
            match strip_prefix (lit "alse") r with
            | Some rest => Some (JBool false, rest)
            | None => None
            end
          else
            match parse_number s with
            | Some (literal, rest) =>
                Some (JNum (number_of_literal literal), rest)
            | None => None
            end
      end
  end

(** The elements of a non-empty array, up to and including ["]"]. *)
with parse_elements (fuel : nat) (s : jsstring) {struct fuel}
  : option (list json * jsstring) :=
  match fuel with
  | O => None
  | S fuel' =>
      match parse_value fuel' s with
      | None => None
      | Some (x, rest) =>
          match skip_ws rest with
          | c :: rest' =>
              if N.eqb c 93 then Some ([x], rest')
              else if N.eqb c 44 then
                match parse_elements fuel' (skip_ws rest') with
                | Some (xs, rest'') => Some (x :: xs, rest'')
                | None => None
                end
              else None
          | [] => None
          end
      end
  end

(** The members of a non-empty object, up to and including ["}"]. *)
with parse_members (fuel : nat) (s : jsstring) {struct fuel}
  : option (list (jsstring * json) * jsstring) :=
  match fuel with
  | O => None
  | S fuel' =>
      match s with
      | q :: r =>
          if N.eqb q 34 then
            match parse_string_body r with
            | None => None
            | Some (k, rest) =>
                match skip_ws rest with
                | c :: rest1 =>
                    if N.eqb c 58 then
                      match parse_value fuel' (skip_ws rest1) with
                      | None => None
                      | Some (x, rest2) =>
                          match skip_ws rest2 with
                          | c' :: rest' =>
                              if N.eqb c' 125 then Some ([(k, x)], rest')
                              else if N.eqb c' 44 then
                                match parse_members fuel' (skip_ws rest') with
                                | Some (ms, rest'') =>
                                    Some ((k, x) :: ms, rest'')
                                | None => None
                                end
                              else None
                          | [] => None
                          end
                      end
                    else None
                | [] => None
                end
            end
          else None
      | [] => None
      end
  end.

(** [JSON.parse(text)]; [None] is the [SyntaxError] it throws. *)
Definition JSON_parse (text : jsstring) : option json :=
  match parse_value (2 * length text + 2) (skip_ws text) with
  | Some (v, rest) =>
      match skip_ws rest with
      | [] => Some v
      | _ :: _ => None
      end
  | None => None
  end.

(* ================================================================== *)
(** ** [Set] *)
(* ================================================================== *)

(** The comparison a [Set] uses for its elements.  Strings, booleans,
    numbers and [null] are compared by value; an array or object
    produced by [JSON.parse] is a fresh object, equal to no other
    element. *)
Definition same_value_zero (a b : json) : bool :=
  match a, b with
  | JNull, JNull => true
  | JBool x, JBool y => Bool.eqb x y
  | JNum x, JNum y => same_number x y
  | JStr x, JStr y => str_eqb x y
  | _, _ => false
  end.

(** A [Set] keeps its elements in insertion order, each once; the order
    is what [[...notified]] and so the saved file shows. *)
Definition JsSet := list json.

Definition set_has (s : JsSet) (v : json) : bool :=
  existsb (same_value_zero v) s.

(** [add] stores a negative zero as the positive one. *)
Definition positive_zero (v : json) : json :=
  match v with
  | JNum (Finite true 0 _) => JNum (Finite false 0 0)
  | _ => v
  end.

Definition set_add (s : JsSet) (v : json) : JsSet :=
  if set_has s v then s else s ++ [positive_zero v].

Definition set_size (s : JsSet) : nat := length s.

(** Iterating a string yields its code points, a surrogate pair as one
    string of two code units. *)
Fixpoint code_points (s : jsstring) : list jsstring :=
  match s with
  | [] => []
  | c :: r =>
      if is_high_surrogate c then
        match r with
        | d :: r' =>
            if is_low_surrogate d then [c; d] :: code_points r'
            else [c] :: code_points r
        | [] => [[c]]
        end
      else [c] :: code_points r
  end.

(** [new Set(v)] for a parsed JSON value [v]: [null] gives the empty set,
    an array its elements, a string its code points; a boolean, a number
    or an object is not iterable ([None] is the [TypeError]). *)
Definition new_Set (v : json) : option JsSet :=
  match v with
  | JNull => Some []
  | JArr items => Some (fold_left set_add items [])
  | JStr s => Some (fold_left set_add (List.map JStr (code_points s)) [])
  | JBool _ | JNum _ | JObj _ => None
  end.

(* ================================================================== *)
(** ** Operations of the script on a value it did not build *)
(* ================================================================== *)

(** [ToBoolean]: [null], [false], zero, [NaN] and the empty string are
    falsy. *)
Definition js_truthy (v : json) : bool :=
  match v with
  | JNull => false
  | JBool b => b
  | JNum n => number_truthy n
  | JStr s => negb (Nat.eqb (length s) 0)
  | JArr _ | JObj _ => true
  end.

(** [v || []]. *)
Definition or_empty_array (v : json) : json :=
  if js_truthy v then v else JArr [].

(** [v.length] for a truthy [v]; [None] is [undefined]: an array and a
    string have a length, an object has the one its members give it, a
    number and a boolean have none. *)
Definition get_length (v : json) : option json :=
  match v with
  | JArr items => Some (JNum (number_of_nat (length items)))
  | JStr s => Some (JNum (number_of_nat (length s)))
  | JObj members => get_property members (lit "length")
  | _ => None
  end.

(** [v.length === 0]. *)
Definition length_is_zero (v : json) : bool :=
  match get_length v with
  | Some (JNum n) => is_zero n
  | _ => false
  end.

(** What [for (const x of v)] goes through: the elements of an array,
    the code points of a string; another value is not iterable ([None]
    is the [TypeError]). *)
Definition iterate (v : json) : option (list json) :=
  match v with
  | JArr items => Some items
  | JStr s => Some (List.map JStr (code_points s))
  | _ => None
  end.

Local Close Scope N_scope.

(* ================================================================== *)
(** ** The process: data, world, effects *)
(* ================================================================== *)

Record LocationTarget : Type := {
  id : jsstring;
  name : jsstring;
  targetDate : jsstring
}.

(** A slot as the script reads it: of the object the endpoint sends,
    only the start timestamp is looked at. *)
Record Slot : Type := { startTimestamp : jsstring }.

(** [slot.startTimestamp.split('T')] is defined when [slot] is an object
    whose member [startTimestamp] is a string; for any other value the
    expression raises a [TypeError] ([None]). *)
Definition as_slot (x : json) : option Slot :=
  match x with
  | JObj members =>
      match get_property members (lit "startTimestamp") with
      | Some (JStr timestamp) => Some {| startTimestamp := timestamp |}
      | _ => None
      end
  | _ => None
  end.

Inductive error : Type :=
| CredentialsNotConfigured
| SyntaxError
| TypeError
| IoError (message : jsstring)
| HttpError (message : jsstring)
| SmtpError (message : jsstring).

(** The file [.notified-appointments.json] as the process finds it:
    missing, present but failing to be read, or holding a text. *)
Inductive file_state : Type :=
| Absent
| Unreadable (e : error)
| Content (data : jsstring).

(** What a write that fails leaves behind is the environment's choice. *)
Inductive write_result : Type :=
| WriteOk
| WriteFails (e : error) (remains : file_state).

Record SmtpConfig : Type := {
  host : option jsstring;
  port : number;
  secure : bool;
  user : option jsstring;
  pass : option jsstring
}.

Record Config : Type := {
  smtp : SmtpConfig;
  emailTo : option jsstring;
  locations : list LocationTarget
}.

(** The subject and body of a notification are renderings of the
    location and the slot (with the clock and the locale); the model
    carries the pair they are rendered from. *)
Record Notice : Type := {
  notice_location : LocationTarget;
  notice_slot : Slot
}.

Record Mail : Type := {
  mail_from : option jsstring;
  mail_to : option jsstring;
  mail_notice : Notice
}.

(** Everything outside the script: the environment variables, and the
    answers of the network, of the mail relay and of the file system on
    writing.  The n-th request and the n-th mail have their own answer;
    the answer to a request is an error (transport failure, timeout,
    status outside 2xx) or the body of the response, whatever value it
    is. *)
Record Env : Type := {
  SMTP_HOST : option jsstring;
  SMTP_PORT : option jsstring;
  SMTP_USER : option jsstring;
  SMTP_PASS : option jsstring;
  EMAIL_TO : option jsstring;
  LOCATIONS : option jsstring;
  http_get : nat -> jsstring -> error + json;
  smtp_send : nat -> Mail -> option error;
  fs_write : jsstring -> write_result
}.

Inductive message : Type :=
| MsgLocationsNotSet
| MsgFormatHint
| MsgExampleHint
| MsgInvalidLocation (loc : jsstring)
| MsgNoPreviousFile
| MsgErrorSaving (e : error)
| MsgEmailSent (n : Notice)
| MsgErrorSendingEmail (e : error)
| MsgErrorChecking (locationId : jsstring) (e : error)
| MsgRule
| MsgTitle
| MsgStarted
| MsgCheckingCount (n : nat)
| MsgBlank
| MsgNoLocations
| MsgSetLocationsHint
| MsgChecking (location : LocationTarget)
| MsgTargetDate (d : jsstring)
| MsgNoAppointments
| MsgFound (length : option json)
| MsgSlotLine (timestamp : jsstring)
| MsgBetterFound
| MsgSummary
| MsgTotalLocations (n : nat)
| MsgNewNotifications (n : nat)
| MsgTotalTracked (n : nat)
| MsgCompleted
| MsgFatal (e : error).

Inductive event : Type :=
| ConsoleLog (m : message)
| ConsoleError (m : message)
| HttpGet (locationId : jsstring)
| SendMail (m : Mail)
| WriteFile (content : jsstring)
| Delay (ms : Z).

Record World : Type := {
  file : file_state;
  trace : list event;
  requests : nat;
  mails : nat
}.

(** A computation either returns, throws, or ends the process
    ([process.exit]). *)
Inductive outcome (A : Type) : Type :=
| Ret (a : A)
| Throw (e : error)
| Exit (code : Z).
Arguments Ret {A} a.
Arguments Throw {A} e.
Arguments Exit {A} code.

Definition M (A : Type) : Type := World -> outcome A * World.

Definition ret {A} (a : A) : M A := fun w => (Ret a, w).

Definition bind {A B} (c : M A) (k : A -> M B) : M B :=
  fun w =>
    match c w with
    | (Ret a, w') => k a w'
    | (Throw e, w') => (Throw e, w')
    | (Exit code, w') => (Exit code, w')
    end.

Declare Scope m_scope.
Delimit Scope m_scope with M.
Notation "x <- c1 ;; c2" := (bind c1 (fun x => c2))
  (at level 61, c1 at next level, right associativity) : m_scope.
Notation "c1 ;; c2" := (bind c1 (fun _ => c2))
  (at level 61, right associativity) : m_scope.
Local Open Scope m_scope.

Definition throw {A} (e : error) : M A := fun w => (Throw e, w).

Definition process_exit {A} (code : Z) : M A := fun w => (Exit code, w).

(** [try { body } catch (e) { handler e }]; leaving the process is not
    caught. *)
Definition try_catch {A} (body : M A) (handler : error -> M A) : M A :=
  fun w =>
    match body w with
    | (Throw e, w') => handler e w'
    | r => r
    end.

(** The world with more events at the end of its trace. *)
Definition add_events (w : World) (d : list event) : World :=
  {| file := file w; trace := trace w ++ d;
     requests := requests w; mails := mails w |}.

Definition emit (e : event) : M unit :=
  fun w => (Ret tt, add_events w [e]).

Definition console_log (m : message) : M unit := emit (ConsoleLog m).
Definition console_error (m : message) : M unit := emit (ConsoleError m).

Definition get_file : M file_state := fun w => (Ret (file w), w).

(* ================================================================== *)
(** ** The script *)
(* ================================================================== *)

(** [array.map(f)] for an effectful [f]: the calls run in order. *)
Fixpoint array_map {A B} (f : A -> M B) (l : list A) : M (list B) :=
  match l with
  | [] => ret []
  | x :: r => y <- f x ;; ys <- array_map f r ;; ret (y :: ys)
  end.

(** [array.filter(Boolean)] on an array of objects and [null]s. *)
Fixpoint filter_Boolean {A} (l : list (option A)) : list A :=
  match l with
  | [] => []
  | Some x :: r => x :: filter_Boolean r
  | None :: r => filter_Boolean r
  end.

(** The callback of [parseLocations]: one entry to a record or [null]. *)
Definition parse_entry (loc : jsstring) : M (option LocationTarget) :=
  let parts := split colon (trim loc) in
  if negb (Nat.eqb (length parts) 3) then
    console_error (MsgInvalidLocation loc) ;;
    ret None
  else
    ret (Some {| id := nth 0 parts [];
                 name := nth 1 parts [];
                 targetDate := nth 2 parts [] |}).

Definition parseLocations (locationsString : jsstring)
  : M (list LocationTarget) :=
  if negb (truthy (Some locationsString)) then
    console_error MsgLocationsNotSet ;;
    console_log MsgFormatHint ;;
    console_log MsgExampleHint ;;
    ret []
  else
    mapped <- array_map parse_entry (split comma locationsString) ;;
    ret (filter_Boolean mapped).

Section Script.

Variable E : Env.

(** [process.env.X || default] for a default that is a string. *)
Definition env_or (v : option jsstring) (default : jsstring) : jsstring :=
  match js_or v (Some default) with
  | Some s => s
  | None => default
  end.

(** [parseInt(process.env.SMTP_PORT) || 587]: [NaN] and [0] are falsy.
    An unset variable is [undefined], which [parseInt] reads as the
    string ["undefined"]. *)
Definition smtp_port : number :=
  let text :=
    match SMTP_PORT E with
    | Some s => s
    | None => lit "undefined"
    end in
  if number_truthy (parseInt text) then parseInt text
  else number_of_nat 587.

(** The module-level [CONFIG] object. *)
Definition CONFIG : M Config :=
  locs <- parseLocations (env_or (LOCATIONS E) []) ;;
  ret {| smtp := {| host := js_or (SMTP_HOST E) (Some (lit "smtp.gmail.com"));
                    port := smtp_port;
                    secure := false;
                    user := SMTP_USER E;
                    pass := SMTP_PASS E |};
         emailTo := js_or (EMAIL_TO E) (SMTP_USER E);
         locations := locs |}.

(** The body of the [try] of [loadNotifiedAppointments]: [Some] is its
    [return], [None] is falling out of the [if]. *)
Definition load_try : M (option JsSet) :=
  f <- get_file ;;
  match f with
  | Absent => ret None
  | Unreadable e => throw e
  | Content data =>
      match JSON_parse data with
      | None => throw SyntaxError
      | Some v =>
          match new_Set v with
          | None => throw TypeError
          | Some s => ret (Some s)
          end
      end
  end.

Definition loadNotifiedAppointments : M JsSet :=
  r <- try_catch load_try
         (fun _ => console_log MsgNoPreviousFile ;; ret None) ;;
  match r with
  | Some s => ret s
  | None => ret []
  end.

(** [fs.writeFileSync(NOTIFIED_FILE, content, 'utf8')].  The file is
    kept as the text that reading it with ['utf8'] returns. *)
Definition writeFileSync (content : jsstring) : M unit :=
  fun w =>
    let t := trace w ++ [WriteFile content] in
    match fs_write E content with
    | WriteOk =>
        (Ret tt, {| file := Content content; trace := t;
                    requests := requests w; mails := mails w |})
    | WriteFails e remains =>
        (Throw e, {| file := remains; trace := t;
                     requests := requests w; mails := mails w |})
    end.

Definition saveNotifiedAppointments (notified : JsSet) : M unit :=
  try_catch (writeFileSync (JSON_stringify (JArr notified)))
    (fun e => console_error (MsgErrorSaving e)).

Definition createEmailTransporter (cfg : Config) : M SmtpConfig :=
  if negb (truthy (user (smtp cfg))) || negb (truthy (pass (smtp cfg))) then
    throw CredentialsNotConfigured
  else ret (smtp cfg).

(** [transporter.sendMail(...)]: the next answer of the relay. *)
Definition sendMail (transporter : SmtpConfig) (m : Mail) : M unit :=
  fun w =>
    let w' := {| file := file w; trace := trace w ++ [SendMail m];
                 requests := requests w; mails := S (mails w) |} in
    match smtp_send E (mails w) m with
    | None => (Ret tt, w')
    | Some e => (Throw e, w')
    end.

Definition sendEmail (cfg : Config) (n : Notice) : M bool :=
  transporter <- createEmailTransporter cfg ;;
  try_catch
    (sendMail transporter
       {| mail_from := user (smtp cfg); mail_to := emailTo cfg;
          mail_notice := n |} ;;
     console_log (MsgEmailSent n) ;;
     ret true)
    (fun e => console_error (MsgErrorSendingEmail e) ;; ret false).

(** [axios.get(...)] followed by [.data]: the next answer of the
    endpoint; a transport failure, a timeout or a status outside 2xx is
    a thrown error, and the body of a 2xx response is returned as it
    is. *)
Definition axios_get (locationId : jsstring) : M json :=
  fun w =>
    let w' := {| file := file w; trace := trace w ++ [HttpGet locationId];
                 requests := S (requests w); mails := mails w |} in
    match http_get E (requests w) locationId with
    | inr data => (Ret data, w')
    | inl e => (Throw e, w')
    end.

Definition checkLocation (locationId : jsstring) : M json :=
  try_catch
    (data <- axios_get locationId ;;
     ret (or_empty_array data))
    (fun e => console_error (MsgErrorChecking locationId e) ;;
              ret (JArr [])).

(** The string compared with the target date, and the key of the slot. *)
Definition appointmentDate (slot : Slot) : jsstring :=
  nth 0 (split letter_T (startTimestamp slot)) [].

Definition appointmentKey (location : LocationTarget) (slot : Slot)
  : jsstring :=
  id location ++ underscore :: startTimestamp slot.

(** The local variables [notified] and [newNotifications]. *)
Definition Vars : Type := (JsSet * nat)%type.

(** The body of [for (const slot of slots)] for a slot whose start
    timestamp is a string. *)
Definition slot_body (cfg : Config) (location : LocationTarget)
  (slot : Slot) (v : Vars) : M Vars :=
  let '(notified, newNotifications) := v in
  console_log (MsgSlotLine (startTimestamp slot)) ;;
  if str_ltb (appointmentDate slot) (targetDate location) then
    if negb (set_has notified (JStr (appointmentKey location slot))) then
      console_log MsgBetterFound ;;
      sent <- sendEmail cfg {| notice_location := location;
                               notice_slot := slot |} ;;
      if sent : bool then
        ret (set_add notified (JStr (appointmentKey location slot)),
             S newNotifications)
      else ret v
    else ret v
  else ret v.

(** One turn of [for (const slot of slots)] for any element [x]: the
    first statement reads [x.startTimestamp.split('T')], which raises
    unless [x] is a slot. *)
Definition slot_turn (cfg : Config) (location : LocationTarget)
  (x : json) (v : Vars) : M Vars :=
  match as_slot x with
  | Some slot => slot_body cfg location slot v
  | None => throw TypeError
  end.

Fixpoint for_slots (cfg : Config) (location : LocationTarget)
  (slots : list json) (v : Vars) : M Vars :=
  match slots with
  | [] => ret v
  | x :: rest =>
      v' <- slot_turn cfg location x v ;;
      for_slots cfg location rest v'
  end.

(** [for (const slot of slots) { ... }] for the value [slots] that
    [checkLocation] returned: a value that is not iterable raises. *)
Definition for_of_slots (cfg : Config) (location : LocationTarget)
  (slots : json) (v : Vars) : M Vars :=
  match iterate slots with
  | Some items => for_slots cfg location items v
  | None => throw TypeError
  end.

(** The body of [for (const location of CONFIG.locations)]. *)
Definition location_body (cfg : Config) (location : LocationTarget)
  (v : Vars) : M Vars :=
  console_log (MsgChecking location) ;;
  console_log (MsgTargetDate (targetDate location)) ;;
  slots <- checkLocation (id location) ;;
  if length_is_zero slots then
    console_log MsgNoAppointments ;;
    console_log MsgBlank ;;
    ret v
  else
    console_log (MsgFound (get_length slots)) ;;
    v' <- for_of_slots cfg location slots v ;;
    console_log MsgBlank ;;
    emit (Delay 2000) ;;
    ret v'.

Fixpoint for_locations (cfg : Config) (locs : list LocationTarget)
  (v : Vars) : M Vars :=
  match locs with
  | [] => ret v
  | location :: rest =>
      v' <- location_body cfg location v ;;
      for_locations cfg rest v'
  end.

Definition checkAllLocations (cfg : Config) : M unit :=
  console_log MsgRule ;;
  console_log MsgTitle ;;
  console_log MsgRule ;;
  console_log MsgStarted ;;
  console_log (MsgCheckingCount (length (locations cfg))) ;;
  console_log MsgBlank ;;
  (if Nat.eqb (length (locations cfg)) 0 then
     console_error MsgNoLocations ;;
     console_log MsgSetLocationsHint ;;
     process_exit 1%Z
   else ret tt) ;;
  notified <- loadNotifiedAppointments ;;
  v <- for_locations cfg (locations cfg) (notified, 0) ;;
  saveNotifiedAppointments (fst v) ;;
  console_log MsgRule ;;
  console_log MsgSummary ;;
  console_log MsgRule ;;
  console_log (MsgTotalLocations (length (locations cfg))) ;;
  console_log (MsgNewNotifications (snd v)) ;;
  console_log (MsgTotalTracked (set_size (fst v))) ;;
  console_log MsgCompleted ;;
  console_log MsgRule.

(** The whole script: build [CONFIG], run [checkAllLocations], and on a
    rejection log it and leave with status 1. *)
Definition script : M unit :=
  cfg <- CONFIG ;;
  try_catch (checkAllLocations cfg)
    (fun e => console_error (MsgFatal e) ;; process_exit 1%Z).

(** The exit status of the process and the world it leaves.  A script
    that ends without calling [process.exit] has status 0. *)
Definition run (w : World) : Z * World :=
  match script w with
  | (Ret _, w') => (0%Z, w')
  | (Exit code, w') => (code, w')
  | (Throw _, w') => (1%Z, w')
  end.

End Script.

Definition initial_world (f : file_state) : World :=
  {| file := f; trace := []; requests := 0; mails := 0 |}.

(* ================================================================== *)
(** ** Notions the properties are stated with *)
(* ================================================================== *)

(** The part of a string strictly before the first occurrence of [sep];
    the whole string when [sep] does not occur. *)
Fixpoint prefix_before (sep : code_unit) (s : jsstring) : jsstring :=
  match s with
  | [] => []
  | c :: r => if N.eqb c sep then [] else c :: prefix_before sep r
  end.

(** The qualification predicate of the cycle: the date portion of the
    slot is strictly before the target date and the key has not been
    notified. *)
Definition qualifies (location : LocationTarget) (slot : Slot)
  (notified : JsSet) : bool :=
  str_ltb (prefix_before letter_T (startTimestamp slot)) (targetDate location)
  && negb (set_has notified (JStr (appointmentKey location slot))).

(** An entry of the configuration string is well formed when it has
    exactly three colon-separated fields. *)
Definition fields (entry : jsstring) : list jsstring :=
  split colon (trim entry).

Definition well_formed (entry : jsstring) : bool :=
  Nat.eqb (length (fields entry)) 3.

Definition record_of (entry : jsstring) : LocationTarget :=
  {| id := nth 0 (fields entry) [];
     name := nth 1 (fields entry) [];
     targetDate := nth 2 (fields entry) [] |}.

Definition is_console_error (e : event) : bool :=
  match e with
  | ConsoleError _ => true
  | _ => false
  end.

Definition is_write (e : event) : bool :=
  match e with
  | WriteFile _ => true
  | _ => false
  end.

Definition is_console (e : event) : bool :=
  match e with
  | ConsoleLog _ | ConsoleError _ => true
  | _ => false
  end.




(** Both the user and the password are set and non-empty. *)
Definition credentials_set (cfg : Config) : bool :=
  truthy (user (smtp cfg)) && truthy (pass (smtp cfg)).

(** What one configuration entry contributes: its record or nothing,
    and the error it logs when it is malformed. *)
Definition entry_value (entry : jsstring) : option LocationTarget :=
  if well_formed entry then Some (record_of entry) else None.

Definition entry_errors (entry : jsstring) : list event :=
  if well_formed entry then [] else [ConsoleError (MsgInvalidLocation entry)].

Definition malformed (entry : jsstring) : bool := negb (well_formed entry).

(** The mail [sendEmail] hands to the relay for a notice. *)
Definition mail_of (cfg : Config) (n : Notice) : Mail :=
  {| mail_from := user (smtp cfg); mail_to := emailTo cfg; mail_notice := n |}.

Definition notice_of (location : LocationTarget) (slot : Slot) : Notice :=
  {| notice_location := location; notice_slot := slot |}.

(** The world after one more mail was handed to the relay. *)
Definition after_mail (w : World) (m : Mail) : World :=
  {| file := file w; trace := trace w ++ [SendMail m];
     requests := requests w; mails := S (mails w) |}.

(** The world after one more request was sent to the endpoint. *)
Definition after_request (w : World) (locationId : jsstring) : World :=
  {| file := file w; trace := trace w ++ [HttpGet locationId];
     requests := S (requests w); mails := mails w |}.

Definition not_write (e : event) : bool := negb (is_write e).

Definition announced (d : list event) : Prop :=
  In (ConsoleLog MsgBetterFound) d.

(** The trace of a process that ended in the handler of the script,
    with the error [e] logged as fatal. *)
Definition died_of (e : error) (d : list event) : Prop :=
  last d (ConsoleLog MsgBlank) = ConsoleError (MsgFatal e).

(** What every part of the per-location loop guarantees when it runs
    from the variables [v] and the world [w] to the outcome [o] and the
    world [w']: the file is not touched, the trace is extended by events
    that are no writes, the process is not left; on a normal end the
    notified set has its old elements in place, possibly followed by new
    ones, the counter has not gone down, and with missing credentials no
    slot was announced; an error thrown is the credentials error, with
    missing credentials and after a slot was announced, or a
    [TypeError]. *)
Definition loop_step (cfg : Config) (v : Vars) (w : World)
  (o : outcome Vars) (w' : World) : Prop :=
  file w' = file w
  /\ exists d,
       trace w' = trace w ++ d
       /\ forallb not_write d = true
       /\ match o with
          | Ret v' =>
              (exists ext, fst v' = fst v ++ ext)
              /\ snd v <= snd v'
              /\ (credentials_set cfg = false -> ~ announced d)
          | Throw e =>
              (e = CredentialsNotConfigured
               /\ credentials_set cfg = false
               /\ announced d)
              \/ (e = TypeError
                  /\ (credentials_set cfg = false -> ~ announced d))
          | Exit _ => False
          end.

(** The banner [checkAllLocations] prints first, and its summary. *)
Definition banner (cfg : Config) : list event :=
  [ConsoleLog MsgRule; ConsoleLog MsgTitle; ConsoleLog MsgRule;
   ConsoleLog MsgStarted;
   ConsoleLog (MsgCheckingCount (length (locations cfg)));
   ConsoleLog MsgBlank].

Definition summary (cfg : Config) (v : Vars) : list event :=
  [ConsoleLog MsgRule; ConsoleLog MsgSummary; ConsoleLog MsgRule;
   ConsoleLog (MsgTotalLocations (length (locations cfg)));
   ConsoleLog (MsgNewNotifications (snd v));
   ConsoleLog (MsgTotalTracked (set_size (fst v)));
   ConsoleLog MsgCompleted; ConsoleLog MsgRule].

(** A slot object reduced to the member the script reads. *)
Definition slot_value (slot : Slot) : json :=
  JObj [(lit "startTimestamp", JStr (startTimestamp slot))].

(** The slots of a list in which every element is a slot. *)
Fixpoint slots_of_items (items : list json) : option (list Slot) :=
  match items with
  | [] => Some []
  | x :: rest =>
      match as_slot x, slots_of_items rest with
      | Some slot, Some slots => Some (slot :: slots)
      | _, _ => None
      end
  end.

(** The slots of a response body that is what the endpoint is meant to
    send, a list of slot objects each with a string under
    [startTimestamp]; a falsy body counts as the empty list.  [None] for
    every other body. *)
Definition slots_of_body (body : json) : option (list Slot) :=
  match body with
  | JArr items => slots_of_items items
  | _ => if js_truthy body then None else Some []
  end.

Definition is_slot_list (body : json) : bool :=
  match slots_of_body body with
  | Some _ => true
  | None => false
  end.

(** The endpoint keeps to its interface: the body of every response it
    answers with is a list of slots. *)
Definition answers_slot_lists (E : Env) : Prop :=
  forall n locationId body,
    http_get E n locationId = inr body -> is_slot_list body = true.

(** The world after [content] was written, leaving the file as [f]. *)
Definition after_write (w : World) (content : jsstring) (f : file_state)
  : World :=
  {| file := f; trace := trace w ++ [WriteFile content];
     requests := requests w; mails := mails w |}.

(** [parts.join(sep)] for a separator of one code unit. *)
Fixpoint join_with (sep : code_unit) (parts : list jsstring) : jsstring :=
  match parts with
  | [] => []
  | [p] => p
  | p :: rest => p ++ sep :: join_with sep rest
  end.

(** A text in which every surrogate is half of a pair. *)
Fixpoint well_paired (s : jsstring) : bool :=
  match s with
  | [] => true
  | c :: r =>
      if is_high_surrogate c then
        match r with
        | d :: r' => is_low_surrogate d && well_paired r'
        | [] => false
        end
      else negb (is_low_surrogate c) && well_paired r
  end.

(** A code unit from U+0020 on: none of the C0 control characters
    U+0000 to U+001F, among them tab, line feed and carriage return.
    (DEL and the C1 control characters U+0080 to U+009F do pass.) *)
Definition not_c0_control (c : code_unit) : bool := N.leb 32 c.

(** Two texts of which one is free of C0 control characters and of
    surrogates outside a pair exactly when the other is. *)
Definition as_clean_as (a b : jsstring) : Prop :=
  forallb not_c0_control a = forallb not_c0_control b
  /\ well_paired a = well_paired b.

(** *** Counting events *)

Definition is_mail (e : event) : bool :=
  match e with
  | SendMail _ => true
  | _ => false
  end.

Definition is_http (e : event) : bool :=
  match e with
  | HttpGet _ => true
  | _ => false
  end.

Definition is_delay (e : event) : bool :=
  match e with
  | Delay _ => true
  | _ => false
  end.

(** The log line that confirms a mail the relay accepted. *)
Definition is_sent_log (e : event) : bool :=
  match e with
  | ConsoleLog (MsgEmailSent _) => true
  | _ => false
  end.

(** The log line of a location for which slots were found. *)
Definition is_found_log (e : event) : bool :=
  match e with
  | ConsoleLog (MsgFound _) => true
  | _ => false
  end.

Definition count (p : event -> bool) (d : list event) : nat :=
  length (filter p d).

(** The key of the slot a mail is about: the identifier of its
    location, an underscore, the start timestamp of its slot. *)
Definition mail_key (m : Mail) : jsstring :=
  id (notice_location (mail_notice m))
  ++ underscore :: startTimestamp (notice_slot (mail_notice m)).

(** The books of the per-location loop, from the variables [v] and the
    world [w] to the outcome [o] and the world [w']: the events added,
    the mail and request counters in step with them, every mail sent
    with the credentials set, from the user to the recipient of the
    configuration, and about a key the set did not hold at the start; on
    a normal end the set has grown by as many elements as the counter,
    one per confirmation logged, a delay was taken once per location
    with slots, and a set of distinct strings is still one. *)
Definition ledger (cfg : Config) (v : Vars) (w : World)
  (o : outcome Vars) (w' : World) : Prop :=
  exists d,
    trace w' = trace w ++ d
    /\ mails w' = mails w + count is_mail d
    /\ requests w' = requests w + count is_http d
    /\ (forall m, In (SendMail m) d ->
          credentials_set cfg = true
          /\ mail_from m = user (smtp cfg) /\ mail_to m = emailTo cfg
          /\ set_has (fst v) (JStr (mail_key m)) = false)
    /\ match o with
       | Ret v' =>
           (exists ext, fst v' = fst v ++ ext)
           /\ snd v' = snd v + count is_sent_log d
           /\ length (fst v') = length (fst v) + count is_sent_log d
           /\ count is_sent_log d <= count is_mail d
           /\ count is_delay d = count is_found_log d
           /\ (forall keys,
                 NoDup keys -> fst v = List.map JStr keys ->
                 exists more,
                   NoDup (keys ++ more)
                   /\ fst v' = List.map JStr (keys ++ more))
       | _ => True
       end.

(** The mails of a stretch of events, in order. *)
Fixpoint mails_of (d : list event) : list Mail :=
  match d with
  | [] => []
  | SendMail m :: rest => m :: mails_of rest
  | _ :: rest => mails_of rest
  end.

(** Of the mails [ms], handed to the relay from its k-th answer on,
    those the relay accepted. *)
Fixpoint accepted (E : Env) (k : nat) (ms : list Mail) : list Mail :=
  match ms with
  | [] => []
  | m :: rest =>
      match smtp_send E k m with
      | None => m :: accepted E (S k) rest
      | Some _ => accepted E (S k) rest
      end
  end.

Definition key_of_mail (m : Mail) : json := JStr (mail_key m).

(** The loop and the relay: the keys added to the set are those of the
    mails the relay accepted, in order, and the counter counts them. *)
Definition delivered (E : Env) (v : Vars) (w : World)
  (o : outcome Vars) (w' : World) : Prop :=
  exists d,
    trace w' = trace w ++ d
    /\ mails w' = mails w + length (mails_of d)
    /\ match o with
       | Ret v' =>
           fst v' = fst v ++ List.map key_of_mail
                               (accepted E (mails w) (mails_of d))
           /\ snd v' = snd v + length (accepted E (mails w) (mails_of d))
       | _ => True
       end.

(** The environment with another answer of the file system to writes. *)
Definition with_fs_write (E : Env) (g : jsstring -> write_result) : Env :=
  {| SMTP_HOST := SMTP_HOST E;
     SMTP_PORT := SMTP_PORT E;
     SMTP_USER := SMTP_USER E;
     SMTP_PASS := SMTP_PASS E;
     EMAIL_TO := EMAIL_TO E;
     LOCATIONS := LOCATIONS E;
     http_get := http_get E;
     smtp_send := smtp_send E;
     fs_write := g |}.

(* ================================================================== *)
(** ** Concrete inputs used in the examples *)
(* ================================================================== *)

Definition jfk : LocationTarget :=
  {| id := lit "5140"; name := lit "JFK"; targetDate := lit "2025-04-01" |}.

Definition slot_march : Slot := {| startTimestamp := lit "2025-03-15T09:00:00" |}.
Definition slot_may : Slot := {| startTimestamp := lit "2025-05-01T09:00:00" |}.

(** An environment with the user and the password set, the host and the
    port unset, one location, an endpoint that offers one slot before the
    target date, and a relay and a disk that work. *)
Definition env_ok : Env :=
  {| SMTP_HOST := None;
     SMTP_PORT := None;
     SMTP_USER := Some (lit "me@example.org");
     SMTP_PASS := Some (lit "secret");
     EMAIL_TO := None;
     LOCATIONS := Some (lit "5140:JFK:2025-04-01");
     http_get := fun _ _ => inr (JArr [slot_value slot_march]);
     smtp_send := fun _ _ => None;
     fs_write := fun _ => WriteOk |}.

(** The same with a relay that refuses every mail. *)
Definition env_mail_fails : Env :=
  {| SMTP_HOST := None;
     SMTP_PORT := None;
     SMTP_USER := Some (lit "me@example.org");
     SMTP_PASS := Some (lit "secret");
     EMAIL_TO := None;
     LOCATIONS := Some (lit "5140:JFK:2025-04-01");
     http_get := fun _ _ => inr (JArr [slot_value slot_march]);
     smtp_send := fun _ _ => Some (SmtpError (lit "connection refused"));
     fs_write := fun _ => WriteOk |}.

(** The same with an endpoint that fails every request. *)
Definition env_fetch_fails : Env :=
  {| SMTP_HOST := None;
     SMTP_PORT := None;
     SMTP_USER := Some (lit "me@example.org");
     SMTP_PASS := Some (lit "secret");
     EMAIL_TO := None;
     LOCATIONS := Some (lit "5140:JFK:2025-04-01");
     http_get := fun _ _ => inl (HttpError (lit "timeout of 10000ms exceeded"));
     smtp_send := fun _ _ => None;
     fs_write := fun _ => WriteOk |}.

(** Two locations, of which the first is answered with a slot before
    its target date, the second with a failure. *)
Definition env_second_fetch_fails : Env :=
  {| SMTP_HOST := None;
     SMTP_PORT := None;
     SMTP_USER := Some (lit "me@example.org");
     SMTP_PASS := Some (lit "secret");
     EMAIL_TO := None;
     LOCATIONS := Some (lit "5140:JFK:2025-04-01,5183:Newark:2025-04-01");
     http_get := fun n _ =>
       match n with
       | 0 => inr (JArr [slot_value slot_march])
       | 1 => inl (HttpError (lit "Request failed with status code 503"))
       | _ => inr JNull
       end;
     smtp_send := fun _ _ => None;
     fs_write := fun _ => WriteOk |}.

(** [env_ok] with an endpoint whose response lists a slot object
    without a start timestamp. *)
Definition env_odd_body : Env :=
  {| SMTP_HOST := None;
     SMTP_PORT := None;
     SMTP_USER := Some (lit "me@example.org");
     SMTP_PASS := Some (lit "secret");
     EMAIL_TO := None;
     LOCATIONS := Some (lit "5140:JFK:2025-04-01");
     http_get := fun _ _ =>
       inr (JArr [JObj [(lit "active", JBool true)]]);
     smtp_send := fun _ _ => None;
     fs_write := fun _ => WriteOk |}.

(** An environment with the host, the port and the user set, and no
    password. *)
Definition env_no_password : Env :=
  {| SMTP_HOST := Some (lit "smtp.example.org");
     SMTP_PORT := Some (lit "465");
     SMTP_USER := Some (lit "me@example.org");
     SMTP_PASS := None;
     EMAIL_TO := None;
     LOCATIONS := Some (lit "5140:JFK:2025-04-01");
     http_get := fun _ _ => inr (JArr [slot_value slot_march]);
     smtp_send := fun _ _ => None;
     fs_write := fun _ => WriteOk |}.

Definition smtp_ok : SmtpConfig :=
  {| host := Some (lit "smtp.gmail.com"); port := number_of_nat 587;
     secure := false;
     user := Some (lit "me@example.org"); pass := Some (lit "secret") |}.

Definition cfg_ok : Config :=
  {| smtp := smtp_ok; emailTo := Some (lit "me@example.org");
     locations := [jfk] |}.

Definition cfg_no_password : Config :=
  {| smtp := {| host := Some (lit "smtp.example.org");
                port := number_of_nat 465;
                secure := false; user := Some (lit "me@example.org");
                pass := None |};
     emailTo := Some (lit "me@example.org");
     locations := [jfk] |}.


(** A key with a quote, a backslash, a control character and half of a
    surrogate pair in it. *)
Definition odd_key : jsstring := lit "a" ++ [34; 92; 8; 55357]%N ++ lit "z".


(** An environment whose [LOCATIONS] follows the two-field format of
    the comment above [CONFIG] in the script. *)
Definition env_two_fields : Env :=
  {| SMTP_HOST := None;
     SMTP_PORT := None;
     SMTP_USER := Some (lit "me@example.org");
     SMTP_PASS := Some (lit "secret");
     EMAIL_TO := None;
     LOCATIONS := Some (lit "5140:2025-04-01,5183:2025-04-01");
     http_get := fun _ _ => inr (JArr [slot_value slot_march]);
     smtp_send := fun _ _ => None;
     fs_write := fun _ => WriteOk |}.

(** [env_ok] with a disk that refuses every write and leaves no file. *)
Definition env_disk_full : Env :=
  with_fs_write env_ok (fun _ => WriteFails (IoError (lit "ENOSPC")) Absent).

(** [env_ok] with an endpoint that offers two slots before the target
    date and a relay that refuses the first mail it is handed. *)
Definition slot_february : Slot :=
  {| startTimestamp := lit "2025-02-10T14:30:00" |}.

Definition env_first_mail_refused : Env :=
  {| SMTP_HOST := None;
     SMTP_PORT := None;
     SMTP_USER := Some (lit "me@example.org");
     SMTP_PASS := Some (lit "secret");
     EMAIL_TO := None;
     LOCATIONS := Some (lit "5140:JFK:2025-04-01");
     http_get := fun _ _ =>
       inr (JArr [slot_value slot_march; slot_value slot_february]);
     smtp_send := fun k _ =>
       match k with
       | 0 => Some (SmtpError (lit "connection refused"))
       | _ => None
       end;
     fs_write := fun _ => WriteOk |}.

(** The text of a store that holds the key of [slot_march] at [jfk]. *)
Definition store_with_march : jsstring :=
  JSON_stringify (JArr [JStr (appointmentKey jfk slot_march)]).

(* ================================================================== *)
(** ** Strings: facts about [split], [<] and keys *)
(* ================================================================== *)

Lemma str_eqb_eq (a b : jsstring) : str_eqb a b = true <-> a = b.
Proof.
  revert b; induction a as [|x a IH]; intros [|y b]; simpl;
    try (split; [discriminate | discriminate]); try tauto.
  rewrite andb_true_iff, N.eqb_eq, IH. split.
  - intros [-> ->]; reflexivity.
  - intros H; injection H; auto.
Qed.

Lemma str_eqb_refl (a : jsstring) : str_eqb a a = true.
Proof. apply str_eqb_eq; reflexivity. Qed.

Lemma split_head (sep : code_unit) (s : jsstring) :
  nth 0 (split sep s) [] = prefix_before sep s.
Proof.
  induction s as [|c r IH]; simpl; [reflexivity|].
  destruct (N.eqb c sep); [reflexivity|].
  destruct (split sep r) as [|h t]; simpl in *; rewrite <- IH; reflexivity.
Qed.

Lemma prefix_before_absent (sep : code_unit) (s : jsstring) :
  ~ In sep s -> prefix_before sep s = s.
Proof.
  induction s as [|c r IH]; simpl; intros H; [reflexivity|].
  destruct (N.eqb_spec c sep) as [->|_].
  - exfalso; apply H; left; reflexivity.
  - rewrite IH; [reflexivity | intros ?; apply H; right; assumption].
Qed.

Lemma split_length (sep : code_unit) (s : jsstring) :
  length (split sep s) = S (count_occ N.eq_dec s sep).
Proof.
  induction s as [|c r IH]; simpl; [reflexivity|].
  destruct (N.eqb_spec c sep) as [->|Hne].
  - simpl. rewrite IH. destruct (N.eq_dec sep sep); [reflexivity|contradiction].
  - destruct (N.eq_dec c sep); [contradiction|].
    destruct (split sep r); simpl in *; [discriminate | assumption].
Qed.

(** A key splits at its first underscore when the identifier has none. *)
Lemma key_split (i1 i2 t1 t2 : jsstring) :
  ~ In underscore i1 -> ~ In underscore i2 ->
  i1 ++ underscore :: t1 = i2 ++ underscore :: t2 ->
  i1 = i2 /\ t1 = t2.
Proof.
  revert i2; induction i1 as [|x i1 IH]; intros [|y i2] H1 H2 E; simpl in *.
  - injection E; auto.
  - injection E as E1 E2. exfalso; apply H2; left; symmetry; exact E1.
  - injection E as E1 E2. exfalso; apply H1; left; exact E1.
  - injection E as E1 E2. subst y.
    destruct (IH i2) as [-> ->]; auto.
Qed.

(* ================================================================== *)
(** ** Sets of keys *)
(* ================================================================== *)

Lemma set_has_str (s : JsSet) (k : jsstring) :
  set_has s (JStr k) = true <-> In (JStr k) s.
Proof.
  unfold set_has. rewrite existsb_exists. split.
  - intros [x [Hin Hx]]. destruct x; simpl in Hx; try discriminate.
    apply str_eqb_eq in Hx. subst; assumption.
  - intros Hin. exists (JStr k); split; [assumption|]. apply str_eqb_refl.
Qed.

Lemma set_has_str_false (s : JsSet) (k : jsstring) :
  set_has s (JStr k) = false <-> ~ In (JStr k) s.
Proof.
  rewrite <- set_has_str. destruct (set_has s (JStr k)); split; intros H;
    try reflexivity; try discriminate; try (intros ?; discriminate).
  exfalso; apply H; reflexivity.
Qed.

Lemma set_add_present (s : JsSet) (v : json) :
  set_has s v = true -> set_add s v = s.
Proof. unfold set_add; intros ->; reflexivity. Qed.

Lemma set_add_fresh (s : JsSet) (k : jsstring) :
  set_has s (JStr k) = false -> set_add s (JStr k) = s ++ [JStr k].
Proof. unfold set_add; intros ->; reflexivity. Qed.

Lemma set_has_after_add (s : JsSet) (k : jsstring) :
  set_has (set_add s (JStr k)) (JStr k) = true.
Proof.
  unfold set_add. destruct (set_has s (JStr k)) eqn:H; [assumption|].
  apply set_has_str, in_or_app; right; left; reflexivity.
Qed.

(** The set only grows under [add]: the old elements stay, in place. *)
Lemma set_add_extends (s : JsSet) (v : json) :
  exists ext, set_add s v = s ++ ext.
Proof.
  unfold set_add. destruct (set_has s v).
  - exists []; rewrite app_nil_r; reflexivity.
  - exists [positive_zero v]; reflexivity.
Qed.

Lemma JStr_injective (a b : jsstring) : JStr a = JStr b -> a = b.
Proof. intros H; injection H; auto. Qed.

(** Adding distinct, absent keys one after the other appends them. *)
Lemma add_all_fresh (keys : list jsstring) (s : JsSet) :
  NoDup keys ->
  (forall k, In k keys -> ~ In (JStr k) s) ->
  fold_left set_add (List.map JStr keys) s = s ++ List.map JStr keys.
Proof.
  revert s; induction keys as [|k keys IH]; intros s Hnd Hfresh; simpl.
  - rewrite app_nil_r; reflexivity.
  - inversion Hnd as [|? ? Hk Hnd']; subst.
    rewrite set_add_fresh.
    + rewrite IH; [rewrite <- app_assoc; reflexivity | assumption |].
      intros k' Hin Hs. apply in_app_or in Hs as [Hs|[Hs|[]]].
      * apply (Hfresh k'); [right; assumption | assumption].
      * apply JStr_injective in Hs; subst; contradiction.
    + apply set_has_str_false, Hfresh; left; reflexivity.
Qed.

Lemma new_Set_of_keys (keys : list jsstring) :
  NoDup keys -> new_Set (JArr (List.map JStr keys)) = Some (List.map JStr keys).
Proof.
  intros Hnd; simpl. rewrite add_all_fresh; auto.
Qed.

Lemma set_has_app (s ext : JsSet) (x : json) :
  set_has (s ++ ext) x = set_has s x || set_has ext x.
Proof. unfold set_has. apply existsb_app. Qed.

Lemma in_map_JStr (k : jsstring) (keys : list jsstring) :
  In (JStr k) (List.map JStr keys) <-> In k keys.
Proof.
  rewrite in_map_iff. split.
  - intros [x [Hx Hin]]. apply JStr_injective in Hx. subst; assumption.
  - intros H. exists k; split; [reflexivity | assumption].
Qed.

Lemma same_value_zero_str (k : jsstring) (y : json) :
  same_value_zero (JStr k) y = true <-> y = JStr k.
Proof.
  destruct y; simpl; try (split; [discriminate | discriminate]).
  rewrite str_eqb_eq. split; intros H; [subst; reflexivity|].
  injection H; auto.
Qed.

Lemma same_value_zero_positive_zero (k : jsstring) (x : json) :
  same_value_zero (JStr k) (positive_zero x) = same_value_zero (JStr k) x.
Proof.
  destruct x as [|b|n|t|items|members]; try reflexivity.
  destruct n as [|neg|[|] [|p] e]; reflexivity.
Qed.

Lemma set_has_add (s : JsSet) (x : json) (k : jsstring) :
  set_has (set_add s x) (JStr k)
  = set_has s (JStr k) || same_value_zero (JStr k) x.
Proof.
  unfold set_add. destruct (set_has s x) eqn:Hx.
  - destruct (same_value_zero (JStr k) x) eqn:Hk.
    + apply same_value_zero_str in Hk. subst x. rewrite Hx. reflexivity.
    + rewrite orb_false_r. reflexivity.
  - rewrite set_has_app. cbn [set_has existsb]. rewrite orb_false_r.
    apply f_equal. apply same_value_zero_positive_zero.
Qed.

Lemma fold_add_has (k : jsstring) (items : list json) :
  forall acc,
    set_has (fold_left set_add items acc) (JStr k)
    = set_has acc (JStr k) || existsb (same_value_zero (JStr k)) items.
Proof.
  induction items as [|x items IH]; intros acc; cbn [fold_left existsb].
  - rewrite orb_false_r. reflexivity.
  - rewrite IH, set_has_add, orb_assoc. reflexivity.
Qed.





(* ================================================================== *)
(** ** [JSON.parse] after [JSON.stringify] on an array of strings *)
(* ================================================================== *)

Local Open Scope N_scope.

Lemma hex_value_char (d : N) : d < 16 -> hex_value (hex_char d) = Some d.
Proof.
  intros H. destruct d as [|p]; [reflexivity|].
  do 4 (try destruct p as [p|p|]); try reflexivity; exfalso; lia.
Qed.

Lemma hex4_escape (c : code_unit) :
  c < 65536 ->
  hex4 (hex_char ((c / 4096) mod 16)) (hex_char ((c / 256) mod 16))
       (hex_char ((c / 16) mod 16)) (hex_char (c mod 16)) = Some c.
Proof.
  intros H. unfold hex4.
  rewrite !hex_value_char by (apply N.mod_upper_bound; discriminate).
  f_equal. zify. Z.to_euclidean_division_equations. lia.
Qed.

Lemma parse_unicode_escape (c : code_unit) (r : jsstring) :
  c < 65536 ->
  parse_string_body (unicode_escape c ++ r)
  = cons_result c (parse_string_body r).
Proof.
  intros H. unfold unicode_escape. simpl app.
  cbn [parse_string_body N.eqb Pos.eqb]. rewrite hex4_escape by assumption.
  reflexivity.
Qed.

Lemma parse_literal (c : code_unit) (r : jsstring) :
  N.eqb c 34 = false -> N.eqb c 92 = false -> N.ltb c 32 = false ->
  parse_string_body (c :: r) = cons_result c (parse_string_body r).
Proof. intros H1 H2 H3. simpl. rewrite H1, H2, H3. reflexivity. Qed.

Lemma parse_quote_body_bounded (n : nat) :
  forall (s rest : jsstring), (length s <= n)%nat ->
    parse_string_body (quote_body s ++ 34 :: rest) = Some (s, rest).
Proof.
  induction n as [|n IH]; intros s rest Hlen.
  - destruct s; [reflexivity | simpl in Hlen; lia].
  - destruct s as [|c r]; [reflexivity|].
    simpl in Hlen.
    assert (IHr : forall rest', parse_string_body (quote_body r ++ 34 :: rest')
                                = Some (r, rest'))
      by (intros; apply IH; lia).
    cbn [quote_body].
    destruct (N.eqb_spec c 8) as [->|N8]; [simpl; rewrite IHr; reflexivity|].
    destruct (N.eqb_spec c 9) as [->|N9]; [simpl; rewrite IHr; reflexivity|].
    destruct (N.eqb_spec c 10) as [->|N10]; [simpl; rewrite IHr; reflexivity|].
    destruct (N.eqb_spec c 12) as [->|N12]; [simpl; rewrite IHr; reflexivity|].
    destruct (N.eqb_spec c 13) as [->|N13]; [simpl; rewrite IHr; reflexivity|].
    destruct (N.eqb_spec c 34) as [->|N34]; [simpl; rewrite IHr; reflexivity|].
    destruct (N.eqb_spec c 92) as [->|N92]; [simpl; rewrite IHr; reflexivity|].
    destruct (N.ltb_spec c 32) as [L32|G32].
    { rewrite <- app_assoc, parse_unicode_escape by lia.
      rewrite IHr; reflexivity. }
    assert (Lit : forall t, parse_string_body (c :: t)
                            = cons_result c (parse_string_body t)).
    { intros t. apply parse_literal.
      - apply N.eqb_neq; assumption.
      - apply N.eqb_neq; assumption.
      - apply N.ltb_ge; assumption. }
    destruct (is_high_surrogate c) eqn:Hhi.
    { unfold is_high_surrogate in Hhi.
      apply andb_true_iff in Hhi as [Hlo1 Hhi1].
      apply N.leb_le in Hlo1, Hhi1.
      destruct r as [|d r'].
      - rewrite parse_unicode_escape by lia. reflexivity.
      - destruct (is_low_surrogate d) eqn:Hd.
        + unfold is_low_surrogate in Hd.
          apply andb_true_iff in Hd as [Hd1 Hd2].
          apply N.leb_le in Hd1, Hd2.
          simpl app. rewrite Lit.
          rewrite parse_literal.
          * rewrite IH by (simpl in Hlen; lia). reflexivity.
          * apply N.eqb_neq; lia.
          * apply N.eqb_neq; lia.
          * apply N.ltb_ge; lia.
        + rewrite <- app_assoc, parse_unicode_escape by lia.
          rewrite IHr; reflexivity. }
    destruct (is_low_surrogate c) eqn:Hlo.
    { unfold is_low_surrogate in Hlo.
      apply andb_true_iff in Hlo as [Hlo1 Hlo2].
      apply N.leb_le in Hlo1, Hlo2.
      rewrite <- app_assoc, parse_unicode_escape by lia.
      rewrite IHr; reflexivity. }
    simpl app. rewrite Lit, IHr. reflexivity.
Qed.

(** A quoted string is read back as the string it quotes. *)
Lemma parse_quote_body (s rest : jsstring) :
  parse_string_body (quote_body s ++ 34 :: rest) = Some (s, rest).
Proof. apply (parse_quote_body_bounded (length s)); lia. Qed.

Local Close Scope N_scope.

Lemma parse_value_quote (fuel : nat) (k rest : jsstring) :
  1 <= fuel ->
  parse_value fuel (quote k ++ rest) = Some (JStr k, rest).
Proof.
  intros Hfuel. destruct fuel as [|fuel]; [lia|].
  unfold quote. simpl app. rewrite <- app_assoc. simpl app.
  cbn [parse_value N.eqb Pos.eqb]. rewrite parse_quote_body. reflexivity.
Qed.

Lemma join_comma_cons (p q : jsstring) (rest : list jsstring) :
  join_comma (p :: q :: rest) = p ++ comma :: join_comma (q :: rest).
Proof. reflexivity. Qed.

Lemma skip_ws_quote (k rest : jsstring) :
  skip_ws (quote k ++ rest) = quote k ++ rest.
Proof. reflexivity. Qed.

Lemma skip_ws_join (k : jsstring) (keys : list jsstring) (rest : jsstring) :
  skip_ws (join_comma (List.map quote (k :: keys)) ++ rest)
  = join_comma (List.map quote (k :: keys)) ++ rest.
Proof. destruct keys; reflexivity. Qed.

Lemma parse_elements_keys (keys : list jsstring) :
  forall (k rest : jsstring) (fuel : nat),
    length keys + 2 <= fuel ->
    parse_elements fuel
      (join_comma (List.map quote (k :: keys)) ++ 93%N :: rest)
    = Some (List.map JStr (k :: keys), rest).
Proof.
  induction keys as [|k' keys IH]; intros k rest fuel Hfuel.
  - destruct fuel as [|fuel]; [simpl in Hfuel; lia|].
    cbn [List.map join_comma parse_elements].
    rewrite parse_value_quote by (simpl in Hfuel; lia). reflexivity.
  - destruct fuel as [|fuel]; [simpl in Hfuel; lia|].
    change (List.map quote (k :: k' :: keys))
      with (quote k :: List.map quote (k' :: keys)).
    change (join_comma (quote k :: List.map quote (k' :: keys)))
      with (quote k ++ comma :: join_comma (List.map quote (k' :: keys))).
    rewrite <- app_assoc. cbn [parse_elements].
    rewrite parse_value_quote by (simpl in Hfuel; lia).
    change ((comma :: join_comma (List.map quote (k' :: keys))) ++ 93%N :: rest)
      with (44%N :: (join_comma (List.map quote (k' :: keys)) ++ 93%N :: rest)).
    cbn [skip_ws is_json_ws N.eqb Pos.eqb orb].
    rewrite skip_ws_join, IH by (simpl in Hfuel |- *; lia).
    reflexivity.
Qed.

Lemma stringify_keys (keys : list jsstring) :
  JSON_stringify (JArr (List.map JStr keys))
  = 91%N :: join_comma (List.map quote keys) ++ [93%N].
Proof.
  cbn [JSON_stringify]. rewrite map_map. reflexivity.
Qed.

Lemma join_comma_length (keys : list jsstring) :
  2 * length keys <= length (join_comma (List.map quote keys)).
Proof.
  induction keys as [|k [|k' keys] IH].
  - simpl; lia.
  - simpl. rewrite length_app. simpl. lia.
  - change (join_comma (List.map quote (k :: k' :: keys)))
      with (quote k ++ comma :: join_comma (List.map quote (k' :: keys))).
    rewrite length_app.
    cbn [length] in IH |- *. unfold quote at 1. cbn [length].
    rewrite length_app. cbn [length]. lia.
Qed.

Lemma parse_value_array (fuel : nat) (r t : jsstring) :
  skip_ws r = 34%N :: t ->
  parse_value (S fuel) (91%N :: r)
  = match parse_elements fuel (skip_ws r) with
    | Some (items, rest) => Some (JArr items, rest)
    | None => None
    end.
Proof.
  intros H. cbn [parse_value N.eqb Pos.eqb]. rewrite H. reflexivity.
Qed.

(** [JSON.parse] reads back the array of strings [JSON.stringify] wrote. *)
Lemma parse_stringify_keys (keys : list jsstring) :
  JSON_parse (JSON_stringify (JArr (List.map JStr keys)))
  = Some (JArr (List.map JStr keys)).
Proof.
  rewrite stringify_keys. unfold JSON_parse.
  cbn [skip_ws is_json_ws N.eqb Pos.eqb orb].
  pose proof (join_comma_length keys) as Hlen.
  match goal with
  | |- context [parse_value ?f _] => remember f as fuel eqn:Hfuel
  end.
  assert (Hf : length keys + 3 <= fuel).
  { subst fuel. cbn [length]. rewrite length_app. cbn [length]. lia. }
  clear Hfuel. destruct fuel as [|fuel]; [lia|].
  destruct keys as [|k keys].
  - reflexivity.
  - assert (Hq : exists t, skip_ws (join_comma (List.map quote (k :: keys))
                                     ++ [93%N]) = 34%N :: t).
    { destruct keys; eexists; reflexivity. }
    destruct Hq as [t Hq].
    rewrite (parse_value_array fuel _ t Hq), skip_ws_join.
    change [93%N] with (93%N :: @nil code_unit).
    rewrite parse_elements_keys by (simpl in Hf |- *; lia).
    reflexivity.
Qed.

(* ================================================================== *)
(** ** The fuel of [JSON.parse] is enough *)
(* ================================================================== *)

Lemma skip_ws_length (s : jsstring) : length (skip_ws s) <= length s.
Proof.
  induction s as [|c r IH]; simpl; [lia|].
  destruct (is_json_ws c); simpl; lia.
Qed.

Lemma cons_result_some (c : code_unit) (r : option (jsstring * jsstring))
  (k rest : jsstring) :
  cons_result c r = Some (k, rest) ->
  exists k', r = Some (k', rest).
Proof.
  destruct r as [[k' rest']|]; simpl; [|discriminate].
  intros H; injection H as _ <-. exists k'; reflexivity.
Qed.

Lemma parse_string_body_length_bounded (n : nat) :
  forall s k rest,
    length s <= n -> parse_string_body s = Some (k, rest) ->
    length rest <= length s.
Proof.
  induction n as [|n IH]; intros s k rest Hn H.
  - destruct s; [discriminate | simpl in Hn; lia].
  - destruct s as [|c r]; [discriminate|]. simpl in Hn.
    cbn [parse_string_body] in H.
    destruct (N.eqb c 34).
    { injection H as _ <-. simpl; lia. }
    destruct (N.eqb c 92).
    { destruct r as [|e r']; [discriminate|]. simpl in Hn.
      destruct (N.eqb e 117).
      - destruct r' as [|h1 [|h2 [|h3 [|h4 r'']]]]; try discriminate.
        simpl in Hn. destruct (hex4 h1 h2 h3 h4); [|discriminate].
        apply cons_result_some in H as [k' H].
        apply IH in H; simpl; lia.
      - destruct (simple_escape e); [|discriminate].
        apply cons_result_some in H as [k' H].
        apply IH in H; simpl; lia. }
    destruct (N.ltb c 32); [discriminate|].
    apply cons_result_some in H as [k' H].
    apply IH in H; simpl; lia.
Qed.

Lemma parse_string_body_length (s k rest : jsstring) :
  parse_string_body s = Some (k, rest) -> length rest <= length s.
Proof. apply (parse_string_body_length_bounded (length s)); lia. Qed.

Lemma take_digits_length (s : jsstring) :
  length (snd (take_digits s)) <= length s.
Proof.
  induction s as [|c r IH]; simpl; [lia|].
  destruct (is_digit c); [|simpl; lia].
  destruct (take_digits r); simpl in *; lia.
Qed.

Lemma take_if_length (p : code_unit -> bool) (s : jsstring) :
  length (snd (take_if p s)) <= length s.
Proof.
  destruct s as [|c r]; simpl; [lia|]. destruct (p c); simpl; lia.
Qed.

Lemma parse_int_part_length (s i rest : jsstring) :
  parse_int_part s = Some (i, rest) -> length rest <= length s.
Proof.
  unfold parse_int_part. destruct s as [|c r]; [discriminate|].
  pose proof (take_digits_length (c :: r)) as Hl.
  destruct (take_digits (c :: r)) as [d rest'].
  destruct (N.eqb c 48); [intros H; injection H as _ <-; simpl; lia|].
  destruct (is_digit c); [|discriminate].
  intros H; injection H as _ <-. exact Hl.
Qed.

Lemma parse_fraction_length (s f rest : jsstring) :
  parse_fraction s = Some (f, rest) -> length rest <= length s.
Proof.
  unfold parse_fraction. destruct s as [|c r].
  - intros H; injection H as _ <-. simpl; lia.
  - destruct (N.eqb c 46).
    + pose proof (take_digits_length r) as Hl.
      destruct (take_digits r) as [[|d0 d] rest']; [discriminate|].
      intros H; injection H as _ <-. simpl in *; lia.
    + intros H; injection H as _ <-. lia.
Qed.

Lemma parse_exponent_length (s x rest : jsstring) :
  parse_exponent s = Some (x, rest) -> length rest <= length s.
Proof.
  unfold parse_exponent. destruct s as [|e r].
  - intros H; injection H as _ <-. simpl; lia.
  - destruct (N.eqb e 101 || N.eqb e 69).
    + pose proof (take_if_length (fun c => N.eqb c 43 || N.eqb c 45) r) as H1.
      destruct (take_if (fun c => N.eqb c 43 || N.eqb c 45) r) as [sg r1].
      pose proof (take_digits_length r1) as H2.
      destruct (take_digits r1) as [[|d0 d] rest']; [discriminate|].
      intros H; injection H as _ <-. simpl in *; lia.
    + intros H; injection H as _ <-. lia.
Qed.

Lemma parse_number_length (s l rest : jsstring) :
  parse_number s = Some (l, rest) -> length rest <= length s.
Proof.
  unfold parse_number.
  pose proof (take_if_length (N.eqb 45) s) as H0.
  destruct (take_if (N.eqb 45) s) as [sign s1].
  destruct (parse_int_part s1) as [[i s2]|] eqn:H1; [|discriminate].
  destruct (parse_fraction s2) as [[f s3]|] eqn:H2; [|discriminate].
  destruct (parse_exponent s3) as [[x s4]|] eqn:H3; [|discriminate].
  intros H; injection H as _ <-.
  apply parse_int_part_length in H1. apply parse_fraction_length in H2.
  apply parse_exponent_length in H3. simpl in H0. lia.
Qed.

Lemma strip_prefix_length (p s rest : jsstring) :
  strip_prefix p s = Some rest -> length rest <= length s.
Proof.
  revert s; induction p as [|a p IH]; intros [|b s]; simpl;
    try discriminate.
  - intros H; injection H as H; subst rest; simpl; lia.
  - intros H; injection H as H; subst rest; simpl; lia.
  - destruct (N.eqb a b); [|discriminate]. intros H. apply IH in H. lia.
Qed.

(** A successful parse never returns more than it was given. *)
Lemma parse_consumes (fuel : nat) :
  (forall s v rest,
      parse_value fuel s = Some (v, rest) -> length rest <= length s)
  /\ (forall s l rest,
         parse_elements fuel s = Some (l, rest) -> length rest <= length s)
  /\ (forall s l rest,
         parse_members fuel s = Some (l, rest) -> length rest <= length s).
Proof.
  induction fuel as [|fuel [IHv [IHe IHm]]].
  - repeat split; intros; discriminate.
  - split; [|split].
    + intros s v rest H. cbn [parse_value] in H.
      destruct s as [|c r]; [discriminate|].
      destruct (N.eqb c 34).
      { destruct (parse_string_body r) as [[str rest']|] eqn:Hs; [|discriminate].
        injection H as _ <-. apply parse_string_body_length in Hs. simpl; lia. }
      destruct (N.eqb c 91).
      { pose proof (skip_ws_length r) as Hw.
        destruct (skip_ws r) as [|c1 rest1]; [discriminate|].
        destruct (N.eqb c1 93); [injection H as _ <-; simpl in *; lia|].
        destruct (parse_elements fuel (c1 :: rest1)) as [[items rest']|] eqn:He;
          [|discriminate].
        injection H as _ <-. apply IHe in He. simpl in *; lia. }
      destruct (N.eqb c 123).
      { pose proof (skip_ws_length r) as Hw.
        destruct (skip_ws r) as [|c1 rest1]; [discriminate|].
        destruct (N.eqb c1 125); [injection H as _ <-; simpl in *; lia|].
        destruct (parse_members fuel (c1 :: rest1)) as [[ms rest']|] eqn:He;
          [|discriminate].
        injection H as _ <-. apply IHm in He. simpl in *; lia. }
      destruct (N.eqb c 110).
      { destruct (strip_prefix _ r) as [rest'|] eqn:Hp; [|discriminate].
        injection H as _ <-. apply strip_prefix_length in Hp. simpl; lia. }
      destruct (N.eqb c 116).
      { destruct (strip_prefix _ r) as [rest'|] eqn:Hp; [|discriminate].
        injection H as _ <-. apply strip_prefix_length in Hp. simpl; lia. }
      destruct (N.eqb c 102).
      { destruct (strip_prefix _ r) as [rest'|] eqn:Hp; [|discriminate].
        injection H as _ <-. apply strip_prefix_length in Hp. simpl; lia. }
      destruct (parse_number (c :: r)) as [[l rest']|] eqn:Hn; [|discriminate].
      injection H as _ <-. apply parse_number_length in Hn. exact Hn.
    + intros s l rest H. cbn [parse_elements] in H.
      destruct (parse_value fuel s) as [[x rest0]|] eqn:Hv; [|discriminate].
      apply IHv in Hv. pose proof (skip_ws_length rest0) as Hw.
      destruct (skip_ws rest0) as [|c rest1]; [discriminate|].
      destruct (N.eqb c 93); [injection H as _ <-; simpl in *; lia|].
      destruct (N.eqb c 44); [|discriminate].
      pose proof (skip_ws_length rest1) as Hw1.
      destruct (parse_elements fuel (skip_ws rest1)) as [[xs rest2]|] eqn:He;
        [|discriminate].
      injection H as _ <-. apply IHe in He. simpl in *; lia.
    + intros s l rest H. cbn [parse_members] in H.
      destruct s as [|q r]; [discriminate|].
      destruct (N.eqb q 34); [|discriminate].
      destruct (parse_string_body r) as [[k rest0]|] eqn:Hs; [|discriminate].
      apply parse_string_body_length in Hs.
      pose proof (skip_ws_length rest0) as Hw.
      destruct (skip_ws rest0) as [|c rest1]; [discriminate|].
      destruct (N.eqb c 58); [|discriminate].
      pose proof (skip_ws_length rest1) as Hw1.
      destruct (parse_value fuel (skip_ws rest1)) as [[x rest2]|] eqn:Hv;
        [|discriminate].
      apply IHv in Hv. pose proof (skip_ws_length rest2) as Hw2.
      destruct (skip_ws rest2) as [|c' rest3]; [discriminate|].
      destruct (N.eqb c' 125); [injection H as _ <-; simpl in *; lia|].
      destruct (N.eqb c' 44); [|discriminate].
      pose proof (skip_ws_length rest3) as Hw3.
      destruct (parse_members fuel (skip_ws rest3)) as [[ms rest4]|] eqn:Hm;
        [|discriminate].
      injection H as _ <-. apply IHm in Hm. simpl in *; lia.
Qed.

(** Beyond twice the length of the input, more fuel changes nothing. *)
Lemma parse_fuel_stable (fuel : nat) :
  (forall s fuel',
      2 * length s < fuel -> 2 * length s < fuel' ->
      parse_value fuel s = parse_value fuel' s)
  /\ (forall s fuel',
         2 * length s + 1 < fuel -> 2 * length s + 1 < fuel' ->
         parse_elements fuel s = parse_elements fuel' s)
  /\ (forall s fuel',
         2 * length s + 1 < fuel -> 2 * length s + 1 < fuel' ->
         parse_members fuel s = parse_members fuel' s).
Proof.
  induction fuel as [|fuel [IHv [IHe IHm]]].
  - repeat split; intros; lia.
  - split; [|split].
    + intros s [|fuel'] H1 H2; [lia|]. cbn [parse_value].
      destruct s as [|c r]; [reflexivity|]. cbn [length] in H1, H2.
      destruct (N.eqb c 34); [reflexivity|].
      pose proof (skip_ws_length r) as Hw.
      destruct (N.eqb c 91).
      { destruct (skip_ws r) as [|c1 rest1]; [reflexivity|].
        destruct (N.eqb c1 93); [reflexivity|].
        rewrite (IHe (c1 :: rest1) fuel') by (cbn [length] in *; lia).
        reflexivity. }
      destruct (N.eqb c 123); [|reflexivity].
      destruct (skip_ws r) as [|c1 rest1]; [reflexivity|].
      destruct (N.eqb c1 125); [reflexivity|].
      rewrite (IHm (c1 :: rest1) fuel') by (cbn [length] in *; lia).
      reflexivity.
    + intros s [|fuel'] H1 H2; [lia|]. cbn [parse_elements].
      rewrite (IHv s fuel') by lia.
      destruct (parse_value fuel' s) as [[x rest0]|] eqn:Hv; [|reflexivity].
      apply (proj1 (parse_consumes fuel')) in Hv.
      pose proof (skip_ws_length rest0) as Hw.
      destruct (skip_ws rest0) as [|c rest1]; [reflexivity|].
      destruct (N.eqb c 93); [reflexivity|].
      destruct (N.eqb c 44); [|reflexivity].
      pose proof (skip_ws_length rest1) as Hw1.
      rewrite (IHe (skip_ws rest1) fuel') by (cbn [length] in *; lia).
      reflexivity.
    + intros s [|fuel'] H1 H2; [lia|]. cbn [parse_members].
      destruct s as [|q r]; [reflexivity|]. cbn [length] in H1, H2.
      destruct (N.eqb q 34); [|reflexivity].
      destruct (parse_string_body r) as [[k rest0]|] eqn:Hs; [|reflexivity].
      apply parse_string_body_length in Hs.
      pose proof (skip_ws_length rest0) as Hw.
      destruct (skip_ws rest0) as [|c rest1]; [reflexivity|].
      destruct (N.eqb c 58); [|reflexivity].
      pose proof (skip_ws_length rest1) as Hw1.
      rewrite (IHv (skip_ws rest1) fuel') by (cbn [length] in *; lia).
      destruct (parse_value fuel' (skip_ws rest1)) as [[x rest2]|] eqn:Hv;
        [|reflexivity].
      apply (proj1 (parse_consumes fuel')) in Hv.
      pose proof (skip_ws_length rest2) as Hw2.
      destruct (skip_ws rest2) as [|c' rest3]; [reflexivity|].
      destruct (N.eqb c' 125); [reflexivity|].
      destruct (N.eqb c' 44); [|reflexivity].
      pose proof (skip_ws_length rest3) as Hw3.
      rewrite (IHm (skip_ws rest3) fuel') by (cbn [length] in *; lia).
      reflexivity.
Qed.

(** [JSON_parse] does not depend on its fuel: any larger amount parses
    the text to the same result, so a [None] is a syntax error of the
    text and never a shortage of fuel. *)
Lemma JSON_parse_fuel_enough (text : jsstring) (fuel : nat) :
  2 * length text + 2 <= fuel ->
  parse_value fuel (skip_ws text)
  = parse_value (2 * length text + 2) (skip_ws text).
Proof.
  intros H. pose proof (skip_ws_length text) as Hw.
  apply (proj1 (parse_fuel_stable fuel)); lia.
Qed.

(* ================================================================== *)
(** ** The world and the monad *)
(* ================================================================== *)

Lemma add_events_nil (w : World) : add_events w [] = w.
Proof. destruct w; unfold add_events; simpl. rewrite app_nil_r. reflexivity. Qed.

Lemma add_events_app (w : World) (a b : list event) :
  add_events (add_events w a) b = add_events w (a ++ b).
Proof. unfold add_events; simpl. rewrite app_assoc. reflexivity. Qed.

(* ================================================================== *)
(** ** Location Registry *)
(* ================================================================== *)

Lemma trim_start_count (s : jsstring) (c : code_unit) :
  is_white_space c = false ->
  count_occ N.eq_dec (trim_start s) c = count_occ N.eq_dec s c.
Proof.
  intros Hc. induction s as [|a r IH]; [reflexivity|]. cbn [trim_start].
  destruct (is_white_space a) eqn:Ha; [|reflexivity].
  rewrite IH. cbn [count_occ].
  destruct (N.eq_dec a c) as [->|_]; [congruence | reflexivity].
Qed.

Lemma trim_count (s : jsstring) (c : code_unit) :
  is_white_space c = false ->
  count_occ N.eq_dec (trim s) c = count_occ N.eq_dec s c.
Proof.
  intros Hc. unfold trim.
  rewrite count_occ_rev, trim_start_count, count_occ_rev, trim_start_count
    by assumption.
  reflexivity.
Qed.

(** Exactly three colon-separated fields: exactly two colons. *)
Lemma well_formed_two_colons (entry : jsstring) :
  well_formed entry = true <-> count_occ N.eq_dec entry colon = 2.
Proof.
  unfold well_formed, fields.
  rewrite split_length, trim_count by reflexivity.
  rewrite Nat.eqb_eq. split; intros H; [injection H; auto | rewrite H; reflexivity].
Qed.

Lemma parse_entry_spec (entry : jsstring) (w : World) :
  parse_entry entry w
  = (Ret (entry_value entry), add_events w (entry_errors entry)).
Proof.
  unfold parse_entry, entry_value, entry_errors, well_formed, record_of, fields.
  destruct (Nat.eqb (length (split colon (trim entry))) 3); simpl.
  - rewrite add_events_nil. reflexivity.
  - reflexivity.
Qed.

Lemma array_map_parse_entry (entries : list jsstring) :
  forall w,
    array_map parse_entry entries w
    = (Ret (List.map entry_value entries),
       add_events w (flat_map entry_errors entries)).
Proof.
  induction entries as [|e entries IH]; intros w; simpl.
  - rewrite add_events_nil. reflexivity.
  - unfold bind at 1. rewrite parse_entry_spec.
    unfold bind at 1. rewrite IH. unfold ret.
    rewrite add_events_app. reflexivity.
Qed.

Lemma filter_Boolean_entries (entries : list jsstring) :
  filter_Boolean (List.map entry_value entries)
  = List.map record_of (filter well_formed entries).
Proof.
  induction entries as [|e entries IH]; simpl; [reflexivity|].
  unfold entry_value at 1. destruct (well_formed e); simpl; rewrite IH; reflexivity.
Qed.

Lemma entry_errors_malformed (entries : list jsstring) :
  flat_map entry_errors entries
  = List.map (fun e => ConsoleError (MsgInvalidLocation e))
      (filter malformed entries).
Proof.
  induction entries as [|e entries IH]; simpl; [reflexivity|].
  unfold entry_errors at 1, malformed at 1.
  destruct (well_formed e); simpl; rewrite IH; reflexivity.
Qed.

Lemma count_console_errors (l : list jsstring) :
  length (filter is_console_error
            (List.map (fun e => ConsoleError (MsgInvalidLocation e)) l))
  = length l.
Proof. induction l; simpl; [reflexivity | rewrite IHl; reflexivity]. Qed.

Lemma parseLocations_nonempty (s : jsstring) (w : World) :
  s <> [] ->
  parseLocations s w
  = (Ret (List.map record_of (filter well_formed (split comma s))),
     add_events w (List.map (fun e => ConsoleError (MsgInvalidLocation e))
                            (filter malformed (split comma s)))).
Proof.
  intros Hs. unfold parseLocations.
  destruct s as [|c r]; [contradiction|]. cbn [truthy negb].
  unfold bind. rewrite array_map_parse_entry. unfold ret.
  rewrite filter_Boolean_entries, entry_errors_malformed. reflexivity.
Qed.

Lemma parseLocations_empty (w : World) :
  parseLocations [] w
  = (Ret [], add_events w [ConsoleError MsgLocationsNotSet;
                            ConsoleLog MsgFormatHint;
                            ConsoleLog MsgExampleHint]).
Proof.
  unfold parseLocations, bind, console_error, console_log, emit, ret; simpl.
  rewrite !add_events_app. reflexivity.
Qed.

(** C3.  A configuration string with k well-formed entries (exactly
    three colon-separated fields, that is exactly two colons) and m
    malformed ones parses to exactly k records and logs m errors, and [parseLocations] returns in every
    case.  For a string that is not empty the records are the
    well-formed entries in order, their three fields taken as they
    stand, and the errors name the malformed entries in order.  The
    empty string, which is also what an unset variable becomes, parses
    to the empty list and logs that the variable is not set.  Dates and
    identifiers are not checked: a repeated identifier and a date that
    is no date are passed through. *)
Theorem parseLocations_k_records_m_errors :
  (forall (s : jsstring) (w : World) (k m : nat),
      k = length (filter well_formed (split comma s)) ->
      m = length (filter malformed (split comma s)) ->
      exists recs d,
        parseLocations s w = (Ret recs, add_events w d)
        /\ length recs = k
        /\ length (filter is_console_error d) = m
        /\ k + m = length (split comma s)
        /\ (s <> [] ->
            recs = List.map record_of (filter well_formed (split comma s))
            /\ d = List.map (fun e => ConsoleError (MsgInvalidLocation e))
                     (filter malformed (split comma s))))
  /\ (forall w,
         parseLocations [] w
         = (Ret [], add_events w [ConsoleError MsgLocationsNotSet;
                                   ConsoleLog MsgFormatHint;
                                   ConsoleLog MsgExampleHint]))
  /\ (forall entry,
         well_formed entry = true <-> count_occ N.eq_dec entry colon = 2)
  /\ (forall v, truthy v = false -> env_or v [] = [])
  /\ (forall w,
         fst (parseLocations (lit "7:a:soon,7:b:2025-13-45") w)
         = Ret [ {| id := lit "7"; name := lit "a"; targetDate := lit "soon" |};
                 {| id := lit "7"; name := lit "b";
                    targetDate := lit "2025-13-45" |} ]).
Proof.
  split; [|split; [|split; [|split]]].
  - intros s w k m -> ->.
    assert (Hsum : length (filter well_formed (split comma s))
                   + length (filter malformed (split comma s))
                   = length (split comma s))
      by (unfold malformed; apply filter_length).
    destruct s as [|c r].
    + rewrite parseLocations_empty. eexists; eexists.
      split; [reflexivity|]. split; [reflexivity|]. split; [reflexivity|].
      split; [reflexivity|]. intros H; contradiction.
    + rewrite parseLocations_nonempty by discriminate.
      eexists; eexists. split; [reflexivity|].
      split; [rewrite length_map; reflexivity|].
      split; [apply count_console_errors|].
      split; [exact Hsum|]. intros _. split; reflexivity.
  - exact parseLocations_empty.
  - exact well_formed_two_colons.
  - intros [[|c r]|]; simpl; try discriminate; reflexivity.
  - intros w. rewrite parseLocations_nonempty by discriminate. reflexivity.
Qed.

Lemma parseLocations_k_records_m_errors_witness :
  exists recs d,
    parseLocations (lit "5140:JFK:2025-04-01,oops,5183:Newark:2025-04-01,a:b")
      (initial_world Absent)
    = (Ret recs, add_events (initial_world Absent) d)
    /\ length recs = 2
    /\ length (filter is_console_error d) = 2.
Proof.
  destruct (proj1 parseLocations_k_records_m_errors
              (lit "5140:JFK:2025-04-01,oops,5183:Newark:2025-04-01,a:b")
              (initial_world Absent) 2 2)
    as [recs [d [H1 [H2 [H3 _]]]]].
  - reflexivity.
  - reflexivity.
  - exists recs, d. repeat split; assumption.
Defined.

(* ================================================================== *)
(** ** Keys and dates *)
(* ================================================================== *)

Lemma appointmentDate_prefix (slot : Slot) :
  appointmentDate slot = prefix_before letter_T (startTimestamp slot).
Proof. apply split_head. Qed.

(** A key is split at its last underscore when the timestamp has
    none. *)
Lemma key_split_right (i1 i2 t1 t2 : jsstring) :
  ~ In underscore t1 -> ~ In underscore t2 ->
  i1 ++ underscore :: t1 = i2 ++ underscore :: t2 ->
  i1 = i2 /\ t1 = t2.
Proof.
  intros H1 H2 E. apply (f_equal (@rev code_unit)) in E.
  rewrite !rev_app_distr in E. cbn [rev] in E. rewrite <- !app_assoc in E.
  cbn [app] in E.
  apply key_split in E.
  - destruct E as [Et Ei].
    apply (f_equal (@rev code_unit)) in Et, Ei.
    rewrite !rev_involutive in Et, Ei. split; assumption.
  - intros Hin. apply H1. apply in_rev. exact Hin.
  - intros Hin. apply H2. apply in_rev. exact Hin.
Qed.

(** With an underscore on both sides two pairs can share a key. *)
Lemma key_collision_with_underscores :
  let l1 := {| id := lit "a_b"; name := []; targetDate := [] |} in
  let l2 := {| id := lit "a"; name := []; targetDate := [] |} in
  let s1 := {| startTimestamp := lit "c" |} in
  let s2 := {| startTimestamp := lit "b_c" |} in
  (id l1, startTimestamp s1) <> (id l2, startTimestamp s2)
  /\ appointmentKey l1 s1 = appointmentKey l2 s2.
Proof.
  split; [discriminate | reflexivity].
Qed.

(** C2.  The key is the location identifier, an underscore and the
    slot's start timestamp, so equal inputs give equal keys.  For start
    timestamps that contain no underscore, as the ISO-8601 datetimes of
    the endpoint do, distinct inputs give distinct keys whatever the
    identifiers are, and adding the keys of n pairwise distinct inputs
    to the empty set leaves a set of size n.  Adding a key the set
    already holds changes neither the set nor its size. *)
Theorem key_deterministic_and_injective :
  (forall l s, appointmentKey l s = id l ++ underscore :: startTimestamp s)
  /\ (forall l1 l2 s1 s2,
         id l1 = id l2 -> startTimestamp s1 = startTimestamp s2 ->
         appointmentKey l1 s1 = appointmentKey l2 s2)
  /\ (forall l1 l2 s1 s2,
         ~ In underscore (startTimestamp s1) ->
         ~ In underscore (startTimestamp s2) ->
         appointmentKey l1 s1 = appointmentKey l2 s2 ->
         id l1 = id l2 /\ startTimestamp s1 = startTimestamp s2)
  /\ (forall inputs : list (LocationTarget * Slot),
         (forall p, In p inputs -> ~ In underscore (startTimestamp (snd p))) ->
         NoDup (List.map (fun p => (id (fst p), startTimestamp (snd p))) inputs) ->
         fold_left set_add
           (List.map (fun p => JStr (appointmentKey (fst p) (snd p))) inputs)
           []
         = List.map
             (fun p => JStr (id (fst p) ++ underscore :: startTimestamp (snd p)))
             inputs
         /\ set_size
              (fold_left set_add
                 (List.map (fun p => JStr (appointmentKey (fst p) (snd p)))
                           inputs)
                 [])
            = length inputs)
  /\ (forall (s : JsSet) (k : jsstring),
         In (JStr k) s ->
         set_add s (JStr k) = s /\ set_size (set_add s (JStr k)) = set_size s)
  /\ (forall (s : JsSet) (k : jsstring),
         set_add (set_add s (JStr k)) (JStr k) = set_add s (JStr k)).
Proof.
  split; [reflexivity|].
  split; [|split; [|split; [|split]]].
  - intros l1 l2 s1 s2 Hi Ht. unfold appointmentKey. rewrite Hi, Ht. reflexivity.
  - intros l1 l2 s1 s2 H1 H2 E. unfold appointmentKey in E.
    apply key_split_right in E; assumption.
  - intros inputs Hts Hnd.
    assert (Hkeys : NoDup (List.map (fun p => appointmentKey (fst p) (snd p))
                                    inputs)).
    { induction inputs as [|p inputs IH]; simpl; [constructor|].
      simpl in Hnd. inversion Hnd as [|? ? Hnot Hnd']; subst.
      constructor.
      - intros Hin. apply in_map_iff in Hin as [q [Eq Hq]].
        apply Hnot. apply in_map_iff. exists q. split; [|assumption].
        unfold appointmentKey in Eq. apply key_split_right in Eq.
        + destruct Eq as [-> ->]. reflexivity.
        + apply Hts; right; assumption.
        + apply Hts; left; reflexivity.
      - apply IH; [|assumption]. intros q Hq. apply Hts; right; assumption. }
    rewrite <- (map_map (fun p => appointmentKey (fst p) (snd p)) JStr).
    rewrite add_all_fresh; [|assumption|intros ? ? []].
    unfold set_size. cbn [app]. rewrite !length_map.
    split; [|reflexivity]. rewrite map_map. reflexivity.
  - intros s k Hin. apply set_has_str in Hin.
    rewrite (set_add_present s (JStr k) Hin). split; reflexivity.
  - intros s k. apply set_add_present, set_has_after_add.
Qed.

Lemma key_deterministic_and_injective_witness :
  let odd := {| id := lit "a_b"; name := lit "odd";
                targetDate := lit "2025-04-01" |} in
  fold_left set_add
    (List.map (fun p => JStr (appointmentKey (fst p) (snd p)))
              [(jfk, slot_march); (jfk, slot_may); (odd, slot_march)]) []
  = [JStr (lit "5140_2025-03-15T09:00:00");
     JStr (lit "5140_2025-05-01T09:00:00");
     JStr (lit "a_b_2025-03-15T09:00:00")]
  /\ set_size
       (fold_left set_add
          (List.map (fun p => JStr (appointmentKey (fst p) (snd p)))
                    [(jfk, slot_march); (jfk, slot_may); (odd, slot_march)]) [])
     = 3.
Proof.
  intros odd.
  destruct key_deterministic_and_injective as [_ [_ [_ [Hsize _]]]].
  apply (Hsize [(jfk, slot_march); (jfk, slot_may); (odd, slot_march)]).
  - intros p [<-|[<-|[<-|[]]]]; cbn [snd startTimestamp slot_march slot_may];
      intros H; vm_compute in H;
      repeat (destruct H as [H|H]; [discriminate|]); exact H.
  - repeat constructor; simpl; intros H;
      repeat (destruct H as [H|H]; [discriminate|]); exact H.
Defined.


(* ================================================================== *)
(** ** Notifier and the body of the slot loop *)
(* ================================================================== *)

Lemma createEmailTransporter_set (cfg : Config) (w : World) :
  credentials_set cfg = true ->
  createEmailTransporter cfg w = (Ret (smtp cfg), w).
Proof.
  unfold credentials_set, createEmailTransporter. intros H.
  apply andb_true_iff in H as [-> ->]. reflexivity.
Qed.

Lemma createEmailTransporter_missing (cfg : Config) (w : World) :
  credentials_set cfg = false ->
  createEmailTransporter cfg w = (Throw CredentialsNotConfigured, w).
Proof.
  unfold credentials_set, createEmailTransporter. intros H.
  apply andb_false_iff in H as [-> | ->]; simpl;
    [|rewrite orb_true_r]; reflexivity.
Qed.

Lemma sendEmail_set (E : Env) (cfg : Config) (n : Notice) (w : World) :
  credentials_set cfg = true ->
  sendEmail E cfg n w
  = match smtp_send E (mails w) (mail_of cfg n) with
    | None =>
        (Ret true,
         add_events (after_mail w (mail_of cfg n)) [ConsoleLog (MsgEmailSent n)])
    | Some e =>
        (Ret false,
         add_events (after_mail w (mail_of cfg n))
                    [ConsoleError (MsgErrorSendingEmail e)])
    end.
Proof.
  intros H. unfold sendEmail. unfold bind at 1.
  rewrite createEmailTransporter_set by assumption.
  unfold try_catch, bind, sendMail. fold (mail_of cfg n). fold (after_mail w (mail_of cfg n)).
  destruct (smtp_send E (mails w) (mail_of cfg n)); reflexivity.
Qed.

Lemma sendEmail_missing (E : Env) (cfg : Config) (n : Notice) (w : World) :
  credentials_set cfg = false ->
  sendEmail E cfg n w = (Throw CredentialsNotConfigured, w).
Proof.
  intros H. unfold sendEmail. unfold bind at 1.
  rewrite createEmailTransporter_missing by assumption. reflexivity.
Qed.

(** What one turn of the slot loop does, case by case. *)
Lemma slot_body_cases (E : Env) (cfg : Config) (location : LocationTarget)
  (slot : Slot) (notified : JsSet) (n : nat) (w : World) :
  slot_body E cfg location slot (notified, n) w
  = if qualifies location slot notified then
      let w1 := add_events w [ConsoleLog (MsgSlotLine (startTimestamp slot));
                              ConsoleLog MsgBetterFound] in
      let m := mail_of cfg (notice_of location slot) in
      if credentials_set cfg then
        match smtp_send E (mails w) m with
        | None =>
            (Ret (set_add notified (JStr (appointmentKey location slot)), S n),
             add_events (after_mail w1 m)
               [ConsoleLog (MsgEmailSent (notice_of location slot))])
        | Some e =>
            (Ret (notified, n),
             add_events (after_mail w1 m)
               [ConsoleError (MsgErrorSendingEmail e)])
        end
      else (Throw CredentialsNotConfigured, w1)
    else
      (Ret (notified, n),
       add_events w [ConsoleLog (MsgSlotLine (startTimestamp slot))]).
Proof.
  unfold slot_body, qualifies. rewrite appointmentDate_prefix.
  destruct (str_ltb _ (targetDate location)); [|reflexivity].
  destruct (set_has notified _); [reflexivity|]. cbn [negb andb].
  unfold bind at 1. unfold console_log at 1, emit at 1.
  unfold bind at 1. unfold console_log at 1, emit at 1.
  rewrite add_events_app. cbn [app].
  unfold bind at 1. fold (notice_of location slot).
  destruct (credentials_set cfg) eqn:Hc.
  - rewrite sendEmail_set by assumption. cbn [mails add_events].
    destruct (smtp_send E (mails w) _); reflexivity.
  - rewrite sendEmail_missing by assumption. reflexivity.
Qed.

Lemma qualifies_true (location : LocationTarget) (slot : Slot)
  (notified : JsSet) :
  qualifies location slot notified = true
  <-> str_ltb (appointmentDate slot) (targetDate location) = true
      /\ set_has notified (JStr (appointmentKey location slot)) = false.
Proof.
  unfold qualifies. rewrite appointmentDate_prefix, andb_true_iff, negb_true_iff.
  reflexivity.
Qed.

Lemma qualifies_false (location : LocationTarget) (slot : Slot)
  (notified : JsSet) :
  qualifies location slot notified = false
  <-> str_ltb (appointmentDate slot) (targetDate location) = false
      \/ set_has notified (JStr (appointmentKey location slot)) = true.
Proof.
  unfold qualifies. rewrite appointmentDate_prefix, andb_false_iff, negb_false_iff.
  reflexivity.
Qed.

(** One turn for a slot: the element read, then the body. *)
Lemma as_slot_value (slot : Slot) : as_slot (slot_value slot) = Some slot.
Proof. destruct slot; reflexivity. Qed.

Lemma slot_turn_slot (E : Env) (cfg : Config) (location : LocationTarget)
  (x : json) (slot : Slot) (v : Vars) :
  as_slot x = Some slot ->
  slot_turn E cfg location x v = slot_body E cfg location slot v.
Proof. unfold slot_turn. intros ->. reflexivity. Qed.

Lemma slot_turn_no_slot (E : Env) (cfg : Config) (location : LocationTarget)
  (x : json) (v : Vars) (w : World) :
  as_slot x = None ->
  slot_turn E cfg location x v w = (Throw TypeError, w).
Proof. unfold slot_turn. intros ->. reflexivity. Qed.

(** The decision of a turn in terms of the operations of the script. *)
Lemma slot_body_sends_iff
  (E : Env) (cfg : Config) (location : LocationTarget) (slot : Slot)
  (notified : JsSet) (n : nat) (w : World) :
  let key := JStr (appointmentKey location slot) in
  let earlier := str_ltb (appointmentDate slot) (targetDate location) in
  let r := slot_body E cfg location slot (notified, n) w in
  ((earlier = true /\ set_has notified key = false)
   <-> (mails (snd r) = S (mails w) \/ fst r = Throw CredentialsNotConfigured))
  /\ (credentials_set cfg = true ->
      ((earlier = true /\ set_has notified key = false)
       <-> mails (snd r) = S (mails w)))
  /\ (forall notified' n',
         fst r = Ret (notified', n') ->
         (notified' <> notified \/ n' <> n) ->
         (earlier = true /\ set_has notified key = false)
         /\ smtp_send E (mails w) (mail_of cfg (notice_of location slot)) = None
         /\ notified' = set_add notified key /\ n' = S n)
  /\ (earlier = true -> set_has notified key = false ->
      credentials_set cfg = true ->
      smtp_send E (mails w) (mail_of cfg (notice_of location slot)) = None ->
      fst r = Ret (set_add notified key, S n))
  /\ (earlier = false ->
      r = (Ret (notified, n),
           add_events w [ConsoleLog (MsgSlotLine (startTimestamp slot))]))
  /\ (set_has notified key = true ->
      r = (Ret (notified, n),
           add_events w [ConsoleLog (MsgSlotLine (startTimestamp slot))])).
Proof.
  intros key earlier r. subst key earlier r.
  rewrite <- qualifies_true. rewrite slot_body_cases.
  destruct (qualifies location slot notified) eqn:Hq.
  - pose proof (proj1 (qualifies_true _ _ _) Hq) as [Hlt Hhas].
    cbv zeta. destruct (credentials_set cfg) eqn:Hc.
    + destruct (smtp_send E (mails w) _) eqn:Hs;
        cbn [fst snd mails add_events after_mail].
      * split; [split; auto|]. split; [intros _; split; auto|].
        split; [intros ? ? H [Hn|Hn]; injection H as <- <-; contradiction|].
        split; [discriminate|]. split; congruence.
      * split; [split; auto|]. split; [intros _; split; auto|].
        split; [intros ? ? H _; injection H as <- <-; auto|].
        split; [reflexivity|]. split; congruence.
    + cbn [fst snd mails add_events].
      split; [split; auto|]. split; [discriminate|].
      split; [discriminate|]. split; [discriminate|]. split; congruence.
  - pose proof (proj1 (qualifies_false _ _ _) Hq) as Hor.
    cbn [fst snd mails add_events].
    split; [split; [discriminate|intros [H|H]; [lia|discriminate]]|].
    split; [intros _; split; [discriminate|intros H; lia]|].
    split; [intros ? ? H [Hn|Hn]; injection H as <- <-; contradiction|].
    split; [intros H1 H2; destruct Hor; congruence|].
    split; reflexivity.
Qed.


(** C1.  For a slot processed for a location, [sendEmail] is called if
    and only if the part of the slot's start timestamp before its first
    ['T'] is strictly smaller, as a string, than the location's target
    date and the key, which is the identifier, an underscore and the
    start timestamp, is not an element of the notified set; a call shows
    as a mail handed to the relay, or as the credentials error when the
    credentials are missing.  The set and the counter change exactly
    when the relay accepted the mail: the set is then the old one with
    the key appended, the counter one more, and the same slot processed
    again with this set is passed over.  A slot whose date is not
    smaller than the target date is passed over whatever the set holds,
    and so is a slot whose key is in the set. *)
Theorem send_iff_earlier_and_unseen
  (E : Env) (cfg : Config) (location : LocationTarget) (slot : Slot)
  (notified : JsSet) (n : nat) (w : World) :
  let key := JStr (id location ++ underscore :: startTimestamp slot) in
  let earlier :=
    str_ltb (prefix_before letter_T (startTimestamp slot))
            (targetDate location) in
  let mail := {| mail_from := user (smtp cfg); mail_to := emailTo cfg;
                 mail_notice := {| notice_location := location;
                                   notice_slot := slot |} |} in
  let passed_over (v : Vars) (w0 : World) :=
    slot_body E cfg location slot v w0
    = (Ret v,
       add_events w0 [ConsoleLog (MsgSlotLine (startTimestamp slot))]) in
  let r := slot_body E cfg location slot (notified, n) w in
  ((earlier = true /\ ~ In key notified)
   <-> (mails (snd r) = S (mails w) \/ fst r = Throw CredentialsNotConfigured))
  /\ (credentials_set cfg = true ->
      ((earlier = true /\ ~ In key notified)
       <-> (mails (snd r) = S (mails w)
            /\ In (SendMail mail) (trace (snd r)))))
  /\ (forall notified' n',
         fst r = Ret (notified', n') ->
         (notified' <> notified \/ n' <> n) ->
         (earlier = true /\ ~ In key notified)
         /\ smtp_send E (mails w) mail = None
         /\ notified' = notified ++ [key] /\ n' = S n)
  /\ (earlier = true -> ~ In key notified ->
      credentials_set cfg = true ->
      smtp_send E (mails w) mail = None ->
      fst r = Ret (notified ++ [key], S n)
      /\ forall w2, passed_over (notified ++ [key], S n) w2)
  /\ (earlier = false -> passed_over (notified, n) w)
  /\ (In key notified -> passed_over (notified, n) w).
Proof.
  intros key earlier mail passed_over r.
  pose proof (slot_body_sends_iff E cfg location slot notified n w) as H.
  cbv zeta in H. rewrite appointmentDate_prefix in H.
  fold earlier in H. fold r in H.
  change (JStr (appointmentKey location slot)) with key in H.
  change (mail_of cfg (notice_of location slot)) with mail in H.
  assert (Hin : set_has notified key = false <-> ~ In key notified)
    by apply set_has_str_false.
  assert (Hin' : set_has notified key = true <-> In key notified)
    by apply set_has_str.
  destruct H as [H1 [H2 [H3 [H4 [H5 H6]]]]].
  split; [rewrite <- Hin; exact H1|].
  split.
  { intros Hc. rewrite <- Hin, (H2 Hc). split; [|tauto].
    intros Hm. split; [exact Hm|].
    apply (H2 Hc) in Hm. destruct Hm as [He Hh].
    assert (Hq : qualifies location slot notified = true).
    { unfold qualifies. fold earlier.
      change (JStr (appointmentKey location slot)) with key.
      rewrite He, Hh. reflexivity. }
    subst r. rewrite slot_body_cases, Hq, Hc. cbv zeta.
    fold (notice_of location slot).
    change (mail_of cfg (notice_of location slot)) with mail.
    destruct (smtp_send E (mails w) mail);
      cbn [snd trace add_events after_mail];
      rewrite <- !app_assoc; apply in_or_app; right;
      cbn [app In]; auto. }
  split.
  { intros notified' n' Hr Hne.
    destruct (H3 notified' n' Hr Hne) as [[He Hh] [Hs [Hn' Hc]]].
    split; [split; [exact He | apply Hin; exact Hh]|].
    split; [exact Hs|]. split; [|exact Hc].
    rewrite Hn'. apply set_add_fresh. exact Hh. }
  split.
  { intros He Hk Hc Hs. apply Hin in Hk.
    split.
    - rewrite (H4 He Hk Hc Hs). unfold key. rewrite set_add_fresh by exact Hk.
      reflexivity.
    - intros w2. unfold passed_over.
      pose proof (slot_body_sends_iff E cfg location slot
                    (notified ++ [key]) (S n) w2) as G.
      cbv zeta in G. destruct G as [_ [_ [_ [_ [_ G]]]]].
      apply G. apply set_has_str. apply in_or_app. right. left. reflexivity. }
  split; [exact H5|].
  intros Hk. apply H6. apply Hin'. exact Hk.
Qed.

Lemma send_iff_earlier_and_unseen_witness :
  let late := {| id := lit "5140"; name := lit "JFK";
                 targetDate := lit "2025-03-15-late" |} in
  (fst (slot_body env_ok cfg_ok jfk slot_march ([], 0) (initial_world Absent))
   = Ret ([JStr (lit "5140_2025-03-15T09:00:00")], 1)
   /\ forall w2,
        slot_body env_ok cfg_ok jfk slot_march
          ([JStr (lit "5140_2025-03-15T09:00:00")], 1) w2
        = (Ret ([JStr (lit "5140_2025-03-15T09:00:00")], 1),
           add_events w2
             [ConsoleLog (MsgSlotLine (lit "2025-03-15T09:00:00"))]))
  /\ (str_ltb (lit "2025-03-15T09:00:00") (lit "2025-03-15-late") = false
      /\ fst (slot_body env_ok cfg_ok late slot_march ([], 0)
                (initial_world Absent))
         = Ret ([JStr (lit "5140_2025-03-15T09:00:00")], 1)).
Proof.
  intros late. split; [|split; [reflexivity|]].
  - pose proof (send_iff_earlier_and_unseen env_ok cfg_ok jfk slot_march [] 0
                  (initial_world Absent)) as H.
    cbv zeta in H. destruct H as [_ [_ [_ [H _]]]].
    apply H; [reflexivity | intros [] | reflexivity | reflexivity].
  - pose proof (send_iff_earlier_and_unseen env_ok cfg_ok late slot_march [] 0
                  (initial_world Absent)) as H.
    cbv zeta in H. destruct H as [_ [_ [_ [H _]]]].
    apply H; [reflexivity | intros [] | reflexivity | reflexivity].
Defined.

(** C7.  When a slot qualifies, the credentials are present and the
    relay fails the mail, [sendEmail] logs the error and returns false,
    the turn of the loop ends normally with the notified set and the
    counter as they were, so that the key is still absent and the slot
    still qualifies, and the loop goes on with the remaining elements of
    the list, whatever they are. *)
Theorem failed_send_leaves_key_unnotified
  (E : Env) (cfg : Config) (location : LocationTarget) (slot : Slot)
  (notified : JsSet) (n : nat) (w : World) (e : error) :
  let key := JStr (appointmentKey location slot) in
  let m := mail_of cfg (notice_of location slot) in
  let w' := add_events
              (after_mail
                 (add_events w [ConsoleLog (MsgSlotLine (startTimestamp slot));
                                ConsoleLog MsgBetterFound]) m)
              [ConsoleError (MsgErrorSendingEmail e)] in
  credentials_set cfg = true ->
  str_ltb (appointmentDate slot) (targetDate location) = true ->
  set_has notified key = false ->
  smtp_send E (mails w) m = Some e ->
  sendEmail E cfg (notice_of location slot) w
  = (Ret false,
     add_events (after_mail w m) [ConsoleError (MsgErrorSendingEmail e)])
  /\ slot_body E cfg location slot (notified, n) w = (Ret (notified, n), w')
  /\ qualifies location slot notified = true
  /\ (forall (x : json) (rest : list json),
         as_slot x = Some slot ->
         for_slots E cfg location (x :: rest) (notified, n) w
         = for_slots E cfg location rest (notified, n) w').
Proof.
  intros key m w' Hc Hlt Hhas Hs. subst key m w'.
  assert (Hq : qualifies location slot notified = true)
    by (apply qualifies_true; split; assumption).
  assert (Hbody : slot_body E cfg location slot (notified, n) w
                  = (Ret (notified, n),
                     add_events
                       (after_mail
                          (add_events w
                             [ConsoleLog (MsgSlotLine (startTimestamp slot));
                              ConsoleLog MsgBetterFound])
                          (mail_of cfg (notice_of location slot)))
                       [ConsoleError (MsgErrorSendingEmail e)])).
  { rewrite slot_body_cases, Hq, Hc. cbv zeta. rewrite Hs. reflexivity. }
  split; [rewrite sendEmail_set by assumption; rewrite Hs; reflexivity|].
  split; [exact Hbody|]. split; [exact Hq|].
  intros x rest Hx.
  cbn [for_slots]. unfold bind at 1.
  rewrite (slot_turn_slot E cfg location x slot _ Hx), Hbody. reflexivity.
Qed.

Lemma failed_send_leaves_key_unnotified_witness :
  slot_body env_mail_fails cfg_ok jfk slot_march ([], 0) (initial_world Absent)
  = (Ret ([], 0),
     add_events
       (after_mail
          (add_events (initial_world Absent)
             [ConsoleLog (MsgSlotLine (startTimestamp slot_march));
              ConsoleLog MsgBetterFound])
          (mail_of cfg_ok (notice_of jfk slot_march)))
       [ConsoleError (MsgErrorSendingEmail (SmtpError (lit "connection refused")))]).
Proof.
  apply (failed_send_leaves_key_unnotified env_mail_fails cfg_ok jfk slot_march
           [] 0 (initial_world Absent) (SmtpError (lit "connection refused")));
    reflexivity.
Defined.

Lemma slot_body_not_earlier (E : Env) (cfg : Config)
  (location : LocationTarget) (slot : Slot) (v : Vars) (w : World) :
  str_ltb (prefix_before letter_T (startTimestamp slot)) (targetDate location)
  = false ->
  slot_body E cfg location slot v w
  = (Ret v, add_events w [ConsoleLog (MsgSlotLine (startTimestamp slot))]).
Proof.
  intros H. destruct v as [notified n]. rewrite slot_body_cases.
  unfold qualifies. rewrite H. reflexivity.
Qed.

Lemma slot_body_announces (E : Env) (cfg : Config)
  (location : LocationTarget) (slot : Slot) (notified : JsSet) (n : nat)
  (w : World) :
  qualifies location slot notified = true ->
  In (ConsoleLog MsgBetterFound)
     (trace (snd (slot_body E cfg location slot (notified, n) w))).
Proof.
  intros Hq. rewrite slot_body_cases, Hq. cbv zeta.
  destruct (credentials_set cfg); [destruct (smtp_send E _ _)|];
    cbn [snd trace add_events after_mail];
    rewrite ?in_app_iff; cbn [In]; intuition auto.
Qed.

(** C10.  The date compared with the target date is the part of the
    slot's start timestamp strictly before its first ['T'], and the whole
    timestamp when it contains no ['T'].  The loop tests that this string
    is smaller than the target date, code unit by code unit: when it is
    not, the slot is passed over with nothing but its log line; when it
    is and the key is new, the slot is announced. *)
Theorem appointmentDate_is_prefix_before_T :
  (forall slot,
      appointmentDate slot = prefix_before letter_T (startTimestamp slot))
  /\ (forall slot,
         ~ In letter_T (startTimestamp slot) ->
         appointmentDate slot = startTimestamp slot)
  /\ (forall E cfg location slot v w,
         str_ltb (prefix_before letter_T (startTimestamp slot))
                 (targetDate location) = false ->
         slot_body E cfg location slot v w
         = (Ret v, add_events w [ConsoleLog (MsgSlotLine (startTimestamp slot))]))
  /\ (forall E cfg location slot notified n w,
         str_ltb (prefix_before letter_T (startTimestamp slot))
                 (targetDate location) = true ->
         set_has notified (JStr (appointmentKey location slot)) = false ->
         In (ConsoleLog MsgBetterFound)
            (trace (snd (slot_body E cfg location slot (notified, n) w))))
  /\ (forall E cfg location slot v w,
         ~ In letter_T (startTimestamp slot) ->
         str_ltb (startTimestamp slot) (targetDate location) = false ->
         slot_body E cfg location slot v w
         = (Ret v, add_events w [ConsoleLog (MsgSlotLine (startTimestamp slot))]))
  /\ (forall E cfg location slot notified n w,
         ~ In letter_T (startTimestamp slot) ->
         str_ltb (startTimestamp slot) (targetDate location) = true ->
         set_has notified (JStr (appointmentKey location slot)) = false ->
         In (ConsoleLog MsgBetterFound)
            (trace (snd (slot_body E cfg location slot (notified, n) w)))).
Proof.
  split; [exact appointmentDate_prefix|].
  split.
  { intros slot H. rewrite appointmentDate_prefix.
    apply prefix_before_absent; assumption. }
  split; [exact slot_body_not_earlier|].
  split.
  { intros E cfg location slot notified n w Hlt Hhas.
    apply slot_body_announces. unfold qualifies. rewrite Hlt, Hhas. reflexivity. }
  split.
  { intros E cfg location slot v w HT Hlt.
    apply slot_body_not_earlier.
    rewrite prefix_before_absent by assumption. assumption. }
  intros E cfg location slot notified n w HT Hlt Hhas.
  apply slot_body_announces. unfold qualifies.
  rewrite prefix_before_absent by assumption. rewrite Hlt, Hhas. reflexivity.
Qed.

Lemma appointmentDate_is_prefix_before_T_witness :
  appointmentDate {| startTimestamp := lit "2025-03-15" |} = lit "2025-03-15"
  /\ slot_body env_ok cfg_ok jfk {| startTimestamp := lit "2025-04-01" |}
       ([], 0) (initial_world Absent)
     = (Ret ([], 0),
        add_events (initial_world Absent)
          [ConsoleLog (MsgSlotLine (lit "2025-04-01"))])
  /\ In (ConsoleLog MsgBetterFound)
        (trace (snd (slot_body env_ok cfg_ok jfk
                       {| startTimestamp := lit "2025-03-15" |}
                       ([], 0) (initial_world Absent)))).
Proof.
  destruct appointmentDate_is_prefix_before_T as [_ [H2 [_ [_ [H5 H6]]]]].
  assert (HT : forall s, s = lit "2025-03-15" \/ s = lit "2025-04-01" ->
                         ~ In letter_T s).
  { intros s [-> | ->] H; simpl in H;
      repeat (destruct H as [H|H]; [discriminate|]); exact H. }
  split; [apply (H2 {| startTimestamp := lit "2025-03-15" |}), HT; left; reflexivity|].
  split.
  - apply (H5 env_ok cfg_ok jfk {| startTimestamp := lit "2025-04-01" |}).
    + apply HT; right; reflexivity.
    + reflexivity.
  - apply (H6 env_ok cfg_ok jfk {| startTimestamp := lit "2025-03-15" |}).
    + apply HT; left; reflexivity.
    + reflexivity.
    + reflexivity.
Defined.

(* ================================================================== *)
(** ** Notification Store *)
(* ================================================================== *)

(** What [loadNotifiedAppointments] does, by the state of the file. *)
Lemma load_cases (w : World) :
  loadNotifiedAppointments w
  = match file w with
    | Absent => (Ret [], w)
    | Unreadable _ => (Ret [], add_events w [ConsoleLog MsgNoPreviousFile])
    | Content data =>
        match JSON_parse data with
        | None => (Ret [], add_events w [ConsoleLog MsgNoPreviousFile])
        | Some v =>
            match new_Set v with
            | None => (Ret [], add_events w [ConsoleLog MsgNoPreviousFile])
            | Some s => (Ret s, w)
            end
        end
    end.
Proof.
  unfold loadNotifiedAppointments, try_catch, load_try, get_file.
  unfold bind at 1. unfold bind at 1.
  destruct (file w) as [|e|data]; try reflexivity.
  destruct (JSON_parse data) as [v|]; [|reflexivity].
  destruct (new_Set v); reflexivity.
Qed.

Lemma save_ok (E : Env) (notified : JsSet) (w : World) :
  fs_write E (JSON_stringify (JArr notified)) = WriteOk ->
  saveNotifiedAppointments E notified w
  = (Ret tt,
     {| file := Content (JSON_stringify (JArr notified));
        trace := trace w ++ [WriteFile (JSON_stringify (JArr notified))];
        requests := requests w; mails := mails w |}).
Proof.
  intros H. unfold saveNotifiedAppointments, try_catch, writeFileSync.
  rewrite H. reflexivity.
Qed.




(** C5.  Saving a set of key strings and then loading, in any process
    that finds the file as the save left it, gives back the same keys in
    the same order, provided the write succeeded. *)
Theorem save_then_load_same_keys
  (E : Env) (keys : list jsstring) (w : World) :
  NoDup keys ->
  fs_write E (JSON_stringify (JArr (List.map JStr keys))) = WriteOk ->
  let saved := saveNotifiedAppointments E (List.map JStr keys) w in
  fst saved = Ret tt
  /\ (forall w2, file w2 = file (snd saved) ->
        loadNotifiedAppointments w2 = (Ret (List.map JStr keys), w2))
  /\ (forall w2 k, file w2 = file (snd saved) ->
        match fst (loadNotifiedAppointments w2) with
        | Ret loaded => set_has loaded (JStr k) = set_has (List.map JStr keys) (JStr k)
        | _ => False
        end).
Proof.
  intros Hnd Hw saved. subst saved. rewrite save_ok by assumption.
  cbn [fst snd file].
  assert (Hload : forall w2,
             file w2 = Content (JSON_stringify (JArr (List.map JStr keys))) ->
             loadNotifiedAppointments w2 = (Ret (List.map JStr keys), w2)).
  { intros w2 Hf. rewrite load_cases, Hf, parse_stringify_keys.
    rewrite new_Set_of_keys by assumption. reflexivity. }
  split; [reflexivity|]. split; [exact Hload|].
  intros w2 k Hf. rewrite Hload by assumption. reflexivity.
Qed.

Lemma save_then_load_same_keys_witness :
  loadNotifiedAppointments
    (snd (saveNotifiedAppointments env_ok
            [JStr (lit "5140_2025-03-15T09:00:00"); JStr (odd_key)]
            (initial_world Absent)))
  = (Ret [JStr (lit "5140_2025-03-15T09:00:00"); JStr (odd_key)],
     snd (saveNotifiedAppointments env_ok
            [JStr (lit "5140_2025-03-15T09:00:00"); JStr (odd_key)]
            (initial_world Absent))).
Proof.
  apply (save_then_load_same_keys env_ok
           [lit "5140_2025-03-15T09:00:00"; odd_key] (initial_world Absent)).
  - repeat constructor; simpl; intros H;
      repeat (destruct H as [H|H]; [discriminate|]); exact H.
  - reflexivity.
  - reflexivity.
Defined.

(* ================================================================== *)
(** ** Availability Client and the per-location loop *)
(* ================================================================== *)

Lemma checkLocation_cases (E : Env) (locationId : jsstring) (w : World) :
  checkLocation E locationId w
  = match http_get E (requests w) locationId with
    | inr data =>
        (Ret (or_empty_array data), after_request w locationId)
    | inl e =>
        (Ret (JArr []), add_events (after_request w locationId)
                          [ConsoleError (MsgErrorChecking locationId e)])
    end.
Proof.
  unfold checkLocation, try_catch, bind, axios_get.
  fold (after_request w locationId).
  destruct (http_get E (requests w) locationId) as [e|data]; reflexivity.
Qed.

Lemma length_is_zero_empty : length_is_zero (JArr []) = true.
Proof. reflexivity. Qed.

(** What one turn of the location loop does. *)
Lemma location_body_cases (E : Env) (cfg : Config)
  (location : LocationTarget) (v : Vars) (w : World) :
  location_body E cfg location v w
  = let w1 := after_request
                (add_events w [ConsoleLog (MsgChecking location);
                               ConsoleLog (MsgTargetDate (targetDate location))])
                (id location) in
    match http_get E (requests w) (id location) with
    | inl e =>
        (Ret v, add_events w1 [ConsoleError (MsgErrorChecking (id location) e);
                               ConsoleLog MsgNoAppointments;
                               ConsoleLog MsgBlank])
    | inr data =>
        let slots := or_empty_array data in
        if length_is_zero slots then
          (Ret v, add_events w1 [ConsoleLog MsgNoAppointments;
                                 ConsoleLog MsgBlank])
        else
          match for_of_slots E cfg location slots v
                  (add_events w1 [ConsoleLog (MsgFound (get_length slots))])
          with
          | (Ret v', w2) =>
              (Ret v', add_events w2 [ConsoleLog MsgBlank; Delay 2000])
          | (Throw e, w2) => (Throw e, w2)
          | (Exit code, w2) => (Exit code, w2)
          end
    end.
Proof.
  unfold location_body.
  unfold bind at 1. unfold console_log at 1, emit at 1.
  unfold bind at 1. unfold console_log at 1, emit at 1.
  rewrite add_events_app. cbn [app].
  unfold bind at 1. rewrite checkLocation_cases. cbn [requests add_events].
  destruct (http_get E (requests w) (id location)) as [e|data]; cbv zeta.
  - rewrite length_is_zero_empty.
    unfold bind, console_log, emit, ret. rewrite !add_events_app. reflexivity.
  - destruct (length_is_zero (or_empty_array data)).
    + unfold bind, console_log, emit, ret. rewrite !add_events_app. reflexivity.
    + unfold bind at 1. unfold console_log at 1, emit at 1.
      unfold bind at 1.
      destruct (for_of_slots E cfg location (or_empty_array data) v _)
        as [[v'|e|code] w2]; try reflexivity.
      unfold bind, console_log, emit, ret. rewrite !add_events_app. reflexivity.
Qed.

Lemma loop_step_refl (cfg : Config) (v : Vars) (w : World) :
  loop_step cfg v w (Ret v) w.
Proof.
  split; [reflexivity|]. exists []. rewrite app_nil_r.
  split; [reflexivity|]. split; [reflexivity|].
  split; [exists []; rewrite app_nil_r; reflexivity|].
  split; [apply le_n|]. intros _ [].
Qed.

(** A stretch that only logs, asks the endpoint or waits. *)
Lemma loop_step_quiet (cfg : Config) (v : Vars) (w w' : World)
  (d : list event) :
  file w' = file w -> trace w' = trace w ++ d ->
  forallb not_write d = true -> ~ announced d ->
  loop_step cfg v w (Ret v) w'.
Proof.
  intros Hf Ht Hw Ha. split; [assumption|]. exists d.
  split; [assumption|]. split; [assumption|].
  split; [exists []; rewrite app_nil_r; reflexivity|].
  split; [apply le_n|]. intros _; assumption.
Qed.

Lemma loop_step_trans (cfg : Config) (v v1 : Vars) (w w1 w2 : World)
  (o : outcome Vars) :
  loop_step cfg v w (Ret v1) w1 -> loop_step cfg v1 w1 o w2 ->
  loop_step cfg v w o w2.
Proof.
  intros [Hf1 [d1 [Ht1 [Hw1 [[ext1 He1] [Hn1 Ha1]]]]]] [Hf2 [d2 [Ht2 [Hw2 Ho]]]].
  split; [congruence|]. exists (d1 ++ d2).
  split; [rewrite Ht2, Ht1, app_assoc; reflexivity|].
  split; [rewrite forallb_app, Hw1, Hw2; reflexivity|].
  destruct o as [v2|e|code].
  - destruct Ho as [[ext2 He2] [Hn2 Ha2]].
    split; [exists (ext1 ++ ext2); rewrite He2, He1, app_assoc; reflexivity|].
    split; [lia|].
    intros Hc Hin. apply in_app_or in Hin as [Hin|Hin];
      [apply (Ha1 Hc Hin) | apply (Ha2 Hc Hin)].
  - destruct Ho as [[He [Hc Ha2]] | [He Ha2]].
    + left. split; [assumption|]. split; [assumption|].
      apply in_or_app; right; assumption.
    + right. split; [assumption|].
      intros Hc Hin. apply in_app_or in Hin as [Hin|Hin];
        [apply (Ha1 Hc Hin) | apply (Ha2 Hc Hin)].
  - contradiction.
Qed.

(** A [TypeError] raised on the spot. *)
Lemma loop_step_type_error (cfg : Config) (v : Vars) (w : World) :
  loop_step cfg v w (Throw TypeError) w.
Proof.
  split; [reflexivity|]. exists []. rewrite app_nil_r.
  split; [reflexivity|]. split; [reflexivity|].
  right. split; [reflexivity|]. intros _ [].
Qed.

Ltac quiet_step :=
  eapply loop_step_quiet;
  [ reflexivity
  | cbn [trace add_events after_request after_mail];
    rewrite <- ?app_assoc; cbn [app]; reflexivity
  | reflexivity
  | unfold announced; cbn [In];
    intros H; repeat (destruct H as [H|H]; [discriminate|]); exact H ].

Lemma loop_step_slot_body (E : Env) (cfg : Config)
  (location : LocationTarget) (slot : Slot) (v : Vars) (w : World) :
  loop_step cfg v w (fst (slot_body E cfg location slot v w))
                    (snd (slot_body E cfg location slot v w)).
Proof.
  destruct v as [notified n]. rewrite slot_body_cases.
  destruct (qualifies location slot notified); cbv zeta.
  - destruct (credentials_set cfg) eqn:Hc.
    + destruct (smtp_send E (mails w) _); cbn [fst snd].
      * split; [reflexivity|]. eexists. split.
        { cbn [trace add_events after_mail]. rewrite <- !app_assoc.
          cbn [app]. reflexivity. }
        split; [reflexivity|].
        split; [exists []; rewrite app_nil_r; reflexivity|].
        split; [apply le_n|]. rewrite Hc; discriminate.
      * split; [reflexivity|]. eexists. split.
        { cbn [trace add_events after_mail]. rewrite <- !app_assoc.
          cbn [app]. reflexivity. }
        split; [reflexivity|].
        split; [apply set_add_extends|].
        split; [cbn [snd]; lia|]. rewrite Hc; discriminate.
    + cbn [fst snd]. split; [reflexivity|]. eexists.
      split; [reflexivity|]. split; [reflexivity|].
      left. split; [reflexivity|]. split; [exact Hc|].
      right; left; reflexivity.
  - cbn [fst snd]. quiet_step.
Qed.

Lemma loop_step_slot_turn (E : Env) (cfg : Config)
  (location : LocationTarget) (x : json) (v : Vars) (w : World) :
  loop_step cfg v w (fst (slot_turn E cfg location x v w))
                    (snd (slot_turn E cfg location x v w)).
Proof.
  unfold slot_turn. destruct (as_slot x) as [slot|].
  - apply loop_step_slot_body.
  - apply loop_step_type_error.
Qed.

Lemma loop_step_for_slots (E : Env) (cfg : Config)
  (location : LocationTarget) (slots : list json) :
  forall (v : Vars) (w : World),
    loop_step cfg v w (fst (for_slots E cfg location slots v w))
                      (snd (for_slots E cfg location slots v w)).
Proof.
  induction slots as [|x rest IH]; intros v w.
  - apply loop_step_refl.
  - cbn [for_slots]. unfold bind.
    pose proof (loop_step_slot_turn E cfg location x v w) as Hs.
    destruct (slot_turn E cfg location x v w) as [[v1|e|code] w1];
      cbn [fst snd] in Hs |- *.
    + eapply loop_step_trans; [exact Hs | apply IH].
    + exact Hs.
    + exact Hs.
Qed.

Lemma loop_step_for_of_slots (E : Env) (cfg : Config)
  (location : LocationTarget) (slots : json) (v : Vars) (w : World) :
  loop_step cfg v w (fst (for_of_slots E cfg location slots v w))
                    (snd (for_of_slots E cfg location slots v w)).
Proof.
  unfold for_of_slots. destruct (iterate slots) as [items|].
  - apply loop_step_for_slots.
  - apply loop_step_type_error.
Qed.

Lemma loop_step_location_body (E : Env) (cfg : Config)
  (location : LocationTarget) (v : Vars) (w : World) :
  loop_step cfg v w (fst (location_body E cfg location v w))
                    (snd (location_body E cfg location v w)).
Proof.
  rewrite location_body_cases. cbv zeta.
  destruct (http_get E (requests w) (id location)) as [e|data].
  - cbn [fst snd]. quiet_step.
  - destruct (length_is_zero (or_empty_array data)).
    + cbn [fst snd]. quiet_step.
    + match goal with
      | |- context [for_of_slots E cfg location ?s v ?w0] =>
          pose proof (loop_step_for_of_slots E cfg location s v w0) as Hs;
          assert (H0 : loop_step cfg v w (Ret v) w0) by quiet_step;
          destruct (for_of_slots E cfg location s v w0) as [[v1|e|code] w2]
      end; cbn [fst snd] in Hs |- *.
      * eapply loop_step_trans; [exact H0|].
        eapply loop_step_trans; [exact Hs|]. quiet_step.
      * eapply loop_step_trans; [exact H0 | exact Hs].
      * eapply loop_step_trans; [exact H0 | exact Hs].
Qed.

Lemma loop_step_for_locations (E : Env) (cfg : Config)
  (locs : list LocationTarget) :
  forall (v : Vars) (w : World),
    loop_step cfg v w (fst (for_locations E cfg locs v w))
                      (snd (for_locations E cfg locs v w)).
Proof.
  induction locs as [|location rest IH]; intros v w.
  - apply loop_step_refl.
  - cbn [for_locations]. unfold bind.
    pose proof (loop_step_location_body E cfg location v w) as Hs.
    destruct (location_body E cfg location v w) as [[v1|e|code] w1];
      cbn [fst snd] in Hs |- *.
    + eapply loop_step_trans; [exact Hs | apply IH].
    + exact Hs.
    + exact Hs.
Qed.

(* ================================================================== *)
(** ** Orchestrator *)
(* ================================================================== *)

Lemma save_cases (E : Env) (notified : JsSet) (w : World) :
  saveNotifiedAppointments E notified w
  = let content := JSON_stringify (JArr notified) in
    match fs_write E content with
    | WriteOk => (Ret tt, after_write w content (Content content))
    | WriteFails e remains =>
        (Ret tt, add_events (after_write w content remains)
                   [ConsoleError (MsgErrorSaving e)])
    end.
Proof.
  unfold saveNotifiedAppointments, try_catch, writeFileSync. cbv zeta.
  destruct (fs_write E (JSON_stringify (JArr notified))); reflexivity.
Qed.

Lemma load_returns (w : World) :
  exists loaded d,
    loadNotifiedAppointments w = (Ret loaded, add_events w d)
    /\ forallb is_console d = true /\ forallb not_write d = true
    /\ ~ announced d.
Proof.
  rewrite load_cases.
  assert (Hq : ~ announced [ConsoleLog MsgNoPreviousFile])
    by (intros [H|[]]; discriminate).
  destruct (file w) as [|e|data].
  - exists [], []. rewrite add_events_nil. repeat split; auto; intros [].
  - eexists; eexists; repeat split; auto.
  - destruct (JSON_parse data) as [v|]; [destruct (new_Set v) as [s|]|].
    + exists s, []. rewrite add_events_nil. repeat split; auto; intros [].
    + eexists; eexists; repeat split; auto.
    + eexists; eexists; repeat split; auto.
Qed.

(** What [checkAllLocations] does, stage by stage. *)
Lemma checkAllLocations_cases (E : Env) (cfg : Config) (w : World) :
  checkAllLocations E cfg w
  = let w0 := add_events w (banner cfg) in
    if Nat.eqb (length (locations cfg)) 0 then
      (Exit 1%Z, add_events w0 [ConsoleError MsgNoLocations;
                                ConsoleLog MsgSetLocationsHint])
    else
      match loadNotifiedAppointments w0 with
      | (Ret notified, w1) =>
          match for_locations E cfg (locations cfg) (notified, 0) w1 with
          | (Ret v, w2) =>
              match saveNotifiedAppointments E (fst v) w2 with
              | (Ret _, w3) => (Ret tt, add_events w3 (summary cfg v))
              | (Throw e, w3) => (Throw e, w3)
              | (Exit code, w3) => (Exit code, w3)
              end
          | (Throw e, w2) => (Throw e, w2)
          | (Exit code, w2) => (Exit code, w2)
          end
      | (Throw e, w1) => (Throw e, w1)
      | (Exit code, w1) => (Exit code, w1)
      end.
Proof.
  unfold checkAllLocations.
  do 6 (unfold bind at 1; unfold console_log at 1, emit at 1).
  rewrite !add_events_app. cbn [app]. fold (banner cfg). cbv zeta.
  unfold bind at 1.
  destruct (Nat.eqb (length (locations cfg)) 0).
  - unfold bind, console_error, console_log, emit, process_exit.
    rewrite !add_events_app. reflexivity.
  - unfold ret at 1. unfold bind at 1.
    destruct (loadNotifiedAppointments (add_events w (banner cfg)))
      as [[notified|e|code] w1]; try reflexivity.
    unfold bind at 1.
    destruct (for_locations E cfg (locations cfg) (notified, 0) w1)
      as [[v|e|code] w2]; try reflexivity.
    unfold bind at 1.
    destruct (saveNotifiedAppointments E (fst v) w2)
      as [[u|e|code] w3]; try reflexivity.
    do 7 (unfold bind at 1; unfold console_log at 1, emit at 1).
    unfold console_log, emit. rewrite !add_events_app. cbn [app].
    destruct u. reflexivity.
Qed.

Lemma console_not_write (d : list event) :
  forallb is_console d = true -> forallb not_write d = true.
Proof.
  induction d as [|e d IH]; simpl; [reflexivity|].
  intros H. apply andb_true_iff in H as [He Hd].
  rewrite (IH Hd), andb_true_r. destruct e; try reflexivity; discriminate.
Qed.

Lemma no_write_filter (d : list event) :
  forallb not_write d = true -> filter is_write d = [].
Proof.
  induction d as [|e d IH]; simpl; [reflexivity|].
  intros H. apply andb_true_iff in H as [He Hd].
  unfold not_write in He. apply negb_true_iff in He. rewrite He. auto.
Qed.

Lemma banner_console (cfg : Config) : forallb is_console (banner cfg) = true.
Proof. reflexivity. Qed.

Lemma summary_console (cfg : Config) (v : Vars) :
  forallb is_console (summary cfg v) = true.
Proof. reflexivity. Qed.

(** A run of [checkAllLocations] that ends normally: the events it adds
    are a stretch without writes, then the one write of the final set,
    then console output only. *)
Lemma checkAllLocations_completed (E : Env) (cfg : Config) (w w' : World) :
  checkAllLocations E cfg w = (Ret tt, w') ->
  exists pre post loaded v,
    fst (loadNotifiedAppointments (add_events w (banner cfg))) = Ret loaded
    /\ fst (for_locations E cfg (locations cfg) (loaded, 0)
              (snd (loadNotifiedAppointments (add_events w (banner cfg)))))
       = Ret v
    /\ (exists ext, fst v = loaded ++ ext)
    /\ trace w' = trace w ++ pre
                  ++ WriteFile (JSON_stringify (JArr (fst v))) :: post
    /\ forallb not_write pre = true
    /\ forallb is_console post = true
    /\ (fs_write E (JSON_stringify (JArr (fst v))) = WriteOk ->
        file w' = Content (JSON_stringify (JArr (fst v)))).
Proof.
  rewrite checkAllLocations_cases. cbv zeta.
  destruct (Nat.eqb (length (locations cfg)) 0); [discriminate|].
  destruct (load_returns (add_events w (banner cfg)))
    as [loaded [d0 [Hload [Hc0 [Hw0 _]]]]].
  rewrite Hload. cbn [fst snd].
  pose proof (loop_step_for_locations E cfg (locations cfg) (loaded, 0)
                (add_events (add_events w (banner cfg)) d0)) as Hloop.
  destruct (for_locations E cfg (locations cfg) (loaded, 0)
              (add_events (add_events w (banner cfg)) d0))
    as [[v|e|code] w2] eqn:Hfor; try discriminate.
  cbn [fst snd] in Hloop.
  destruct Hloop as [_ [d1 [Ht1 [Hw1 [Hext _]]]]].
  cbn [trace add_events] in Ht1.
  rewrite save_cases. cbv zeta.
  destruct (fs_write E (JSON_stringify (JArr (fst v)))) as [|e remains] eqn:Hwr;
    intros H; injection H as <-.
  - exists (banner cfg ++ d0 ++ d1), (summary cfg v), loaded, v.
    split; [reflexivity|]. split; [rewrite Hfor; reflexivity|].
    split; [exact Hext|].
    split.
    { cbn [trace add_events after_write]. rewrite Ht1.
      rewrite <- !app_assoc. reflexivity. }
    split.
    { rewrite !forallb_app, Hw0, Hw1,
        (console_not_write _ (banner_console cfg)). reflexivity. }
    split; [apply summary_console | reflexivity].
  - exists (banner cfg ++ d0 ++ d1),
           (ConsoleError (MsgErrorSaving e) :: summary cfg v), loaded, v.
    split; [reflexivity|]. split; [rewrite Hfor; reflexivity|].
    split; [exact Hext|].
    split.
    { cbn [trace add_events after_write]. rewrite Ht1.
      rewrite <- !app_assoc. reflexivity. }
    split.
    { rewrite !forallb_app, Hw0, Hw1,
        (console_not_write _ (banner_console cfg)). reflexivity. }
    split; [reflexivity | intros Hok; rewrite Hwr in Hok; discriminate].
Qed.

(** A run of [checkAllLocations] that does not end normally writes
    nothing and leaves the file as it was. *)
Lemma checkAllLocations_aborted (E : Env) (cfg : Config) (w w' : World)
  (o : outcome unit) :
  checkAllLocations E cfg w = (o, w') -> o <> Ret tt ->
  file w' = file w
  /\ exists d, trace w' = trace w ++ d /\ forallb not_write d = true.
Proof.
  rewrite checkAllLocations_cases. cbv zeta.
  destruct (Nat.eqb (length (locations cfg)) 0).
  { intros H _; injection H as <- <-. split; [reflexivity|].
    eexists. split.
    - cbn [trace add_events]. rewrite <- app_assoc. reflexivity.
    - reflexivity. }
  destruct (load_returns (add_events w (banner cfg)))
    as [loaded [d0 [Hload [Hc0 [Hw0 _]]]]].
  rewrite Hload.
  pose proof (loop_step_for_locations E cfg (locations cfg) (loaded, 0)
                (add_events (add_events w (banner cfg)) d0)) as Hloop.
  destruct (for_locations E cfg (locations cfg) (loaded, 0)
              (add_events (add_events w (banner cfg)) d0))
    as [[v|e|code] w2]; cbn [fst snd] in Hloop.
  - rewrite save_cases. cbv zeta.
    destruct (fs_write E (JSON_stringify (JArr (fst v))));
      intros H Hne; injection H as <- <-; contradiction.
  - intros H _; injection H as <- <-.
    destruct Hloop as [Hf [d1 [Ht1 [Hw1 _]]]].
    split; [exact Hf|]. exists (banner cfg ++ d0 ++ d1). split.
    + rewrite Ht1. cbn [trace add_events]. rewrite <- !app_assoc. reflexivity.
    + rewrite !forallb_app, Hw0, Hw1, (console_not_write _ (banner_console cfg)).
      reflexivity.
  - destruct Hloop as [_ [d1 [_ [_ []]]]].
Qed.

Lemma parseLocations_returns (s : jsstring) (w : World) :
  exists recs d,
    parseLocations s w = (Ret recs, add_events w d)
    /\ forallb is_console d = true /\ ~ announced d.
Proof.
  destruct s as [|c r].
  - rewrite parseLocations_empty. eexists; eexists.
    split; [reflexivity|]. split; [reflexivity|].
    intros H; repeat (destruct H as [H|H]; [discriminate|]); exact H.
  - rewrite parseLocations_nonempty by discriminate. eexists; eexists.
    split; [reflexivity|]. generalize (filter malformed (split comma (c :: r))).
    intros l. split.
    + induction l; simpl; auto.
    + intros H. apply in_map_iff in H as [x [Hx _]]. discriminate.
Qed.

(** [CONFIG] always evaluates, to a configuration with the user and the
    password of the environment, a host and a port that are set, and the
    parsed locations. *)
Lemma CONFIG_returns (E : Env) (w : World) :
  exists cfg d,
    CONFIG E w = (Ret cfg, add_events w d)
    /\ forallb is_console d = true /\ ~ announced d
    /\ user (smtp cfg) = SMTP_USER E /\ pass (smtp cfg) = SMTP_PASS E
    /\ host (smtp cfg) = js_or (SMTP_HOST E) (Some (lit "smtp.gmail.com"))
    /\ port (smtp cfg) = smtp_port E
    /\ fst (parseLocations (env_or (LOCATIONS E) []) w) = Ret (locations cfg).
Proof.
  unfold CONFIG, bind.
  destruct (parseLocations_returns (env_or (LOCATIONS E) []) w)
    as [recs [d [Hp [Hc Ha]]]].
  rewrite Hp. eexists; exists d. split; [reflexivity|].
  repeat split; assumption.
Qed.

(** The exit status in terms of [checkAllLocations]. *)
Lemma run_cases (E : Env) (w : World) (cfg : Config) (w1 : World) :
  CONFIG E w = (Ret cfg, w1) ->
  run E w
  = match checkAllLocations E cfg w1 with
    | (Ret _, w') => (0%Z, w')
    | (Throw e, w') => (1%Z, add_events w' [ConsoleError (MsgFatal e)])
    | (Exit code, w') => (code, w')
    end.
Proof.
  intros Hcfg. unfold run, script. unfold bind at 1. rewrite Hcfg.
  unfold try_catch.
  destruct (checkAllLocations E cfg w1) as [[u|e|code] w']; reflexivity.
Qed.

(** On a list of slots the loop raises no [TypeError]. *)
Lemma slot_body_no_type_error (E : Env) (cfg : Config)
  (location : LocationTarget) (slot : Slot) (v : Vars) (w : World) :
  fst (slot_body E cfg location slot v w) <> Throw TypeError.
Proof.
  destruct v as [notified n]. rewrite slot_body_cases.
  destruct (qualifies location slot notified); cbv zeta; [|discriminate].
  destruct (credentials_set cfg); [|discriminate].
  destruct (smtp_send E (mails w) _); discriminate.
Qed.

Lemma for_slots_no_type_error (E : Env) (cfg : Config)
  (location : LocationTarget) (items : list json) :
  forall (slots : list Slot) (v : Vars) (w : World),
    slots_of_items items = Some slots ->
    fst (for_slots E cfg location items v w) <> Throw TypeError.
Proof.
  induction items as [|x rest IH]; intros slots v w Hs.
  - discriminate.
  - cbn [slots_of_items] in Hs.
    destruct (as_slot x) as [slot|] eqn:Hx; [|discriminate].
    destruct (slots_of_items rest) as [slots'|] eqn:Hr; [|discriminate].
    cbn [for_slots]. unfold bind.
    rewrite (slot_turn_slot E cfg location x slot v Hx).
    pose proof (slot_body_no_type_error E cfg location slot v w) as Hb.
    destruct (slot_body E cfg location slot v w) as [[v1|e|code] w1];
      cbn [fst] in Hb |- *.
    + apply (IH slots'). reflexivity.
    + exact Hb.
    + discriminate.
Qed.

(** A body that is a list of slots, as the loop sees it: nothing to do
    when it is falsy or empty, its elements otherwise. *)
Lemma slot_list_cases (body : json) :
  is_slot_list body = true ->
  length_is_zero (or_empty_array body) = true
  \/ exists items slots,
       or_empty_array body = JArr items
       /\ slots_of_items items = Some slots.
Proof.
  unfold is_slot_list, slots_of_body, or_empty_array.
  destruct body as [|b|n|s|items|members];
    try (destruct (js_truthy _); [discriminate | intros _; left; reflexivity]).
  cbn [js_truthy]. destruct (slots_of_items items) as [slots|] eqn:Hs;
    [|discriminate].
  intros _. right. exists items, slots. split; [reflexivity | exact Hs].
Qed.

Lemma location_body_no_type_error (E : Env) (cfg : Config)
  (location : LocationTarget) (v : Vars) (w : World) :
  answers_slot_lists E ->
  fst (location_body E cfg location v w) <> Throw TypeError.
Proof.
  intros Hshape. rewrite location_body_cases. cbv zeta.
  destruct (http_get E (requests w) (id location)) as [e|data] eqn:Hget;
    [discriminate|].
  destruct (slot_list_cases data (Hshape _ _ _ Hget))
    as [Hz | [items [slots [Hitems Hs]]]].
  - rewrite Hz. discriminate.
  - destruct (length_is_zero (or_empty_array data)); [discriminate|].
    rewrite Hitems. unfold for_of_slots. cbn [iterate].
    match goal with
    | |- context [for_slots E cfg location items v ?w0] =>
        pose proof (for_slots_no_type_error E cfg location items slots v w0 Hs)
          as Hf;
        destruct (for_slots E cfg location items v w0) as [[v1|e|code] w2]
    end; cbn [fst] in Hf |- *; [discriminate | exact Hf | discriminate].
Qed.

Lemma for_locations_no_type_error (E : Env) (cfg : Config)
  (locs : list LocationTarget) :
  answers_slot_lists E ->
  forall (v : Vars) (w : World),
    fst (for_locations E cfg locs v w) <> Throw TypeError.
Proof.
  intros Hshape. induction locs as [|location rest IH]; intros v w.
  - discriminate.
  - cbn [for_locations]. unfold bind.
    pose proof (location_body_no_type_error E cfg location v w Hshape) as Hb.
    destruct (location_body E cfg location v w) as [[v1|e|code] w1];
      cbn [fst] in Hb |- *.
    + apply IH.
    + exact Hb.
    + discriminate.
Qed.

(** With the credentials set and an endpoint that answers with lists of
    slots nothing in the loop throws. *)
Lemma for_locations_returns (E : Env) (cfg : Config)
  (locs : list LocationTarget) (v : Vars) (w : World) :
  credentials_set cfg = true ->
  answers_slot_lists E ->
  exists v' w', for_locations E cfg locs v w = (Ret v', w').
Proof.
  intros Hc Hshape.
  pose proof (loop_step_for_locations E cfg locs v w) as H.
  pose proof (for_locations_no_type_error E cfg locs Hshape v w) as Hno.
  destruct (for_locations E cfg locs v w) as [[v'|e|code] w'];
    cbn [fst snd] in H, Hno.
  - exists v', w'; reflexivity.
  - destruct H as [_ [d [_ [_ [[He [Hf _]] | [He _]]]]]]; congruence.
  - destruct H as [_ [d [_ [_ []]]]].
Qed.

Lemma checkAllLocations_returns (E : Env) (cfg : Config) (w : World) :
  locations cfg <> [] ->
  (forall loaded w1, exists v w2,
      for_locations E cfg (locations cfg) (loaded, 0) w1 = (Ret v, w2)) ->
  exists w', checkAllLocations E cfg w = (Ret tt, w').
Proof.
  intros Hne Hfor. rewrite checkAllLocations_cases. cbv zeta.
  destruct (locations cfg) as [|l ls] eqn:Hl; [contradiction|].
  cbn [length Nat.eqb].
  destruct (load_returns (add_events w (banner cfg)))
    as [loaded [d0 [Hload _]]].
  rewrite Hload.
  destruct (Hfor loaded (add_events (add_events w (banner cfg)) d0))
    as [v [w2 Hv]].
  rewrite Hv, save_cases. cbv zeta.
  destruct (fs_write E _); eexists; reflexivity.
Qed.

(** A fetch that fails makes its turn of the location loop a turn that
    changes nothing but the trace. *)
Lemma location_body_fetch_failed (E : Env) (cfg : Config)
  (location : LocationTarget) (v : Vars) (w : World) (e : error) :
  http_get E (requests w) (id location) = inl e ->
  location_body E cfg location v w
  = (Ret v,
     add_events
       (after_request
          (add_events w [ConsoleLog (MsgChecking location);
                         ConsoleLog (MsgTargetDate (targetDate location))])
          (id location))
       [ConsoleError (MsgErrorChecking (id location) e);
        ConsoleLog MsgNoAppointments; ConsoleLog MsgBlank]).
Proof.
  intros H. rewrite location_body_cases. cbv zeta. rewrite H. reflexivity.
Qed.

Lemma for_locations_all_failed (E : Env) (cfg : Config)
  (locs : list LocationTarget) (v : Vars) :
  (forall n i, exists e, http_get E n i = inl e) ->
  forall w, exists w',
    for_locations E cfg locs v w = (Ret v, w') /\ mails w' = mails w.
Proof.
  intros Hfail. induction locs as [|location rest IH]; intros w.
  - exists w; split; reflexivity.
  - cbn [for_locations]. unfold bind.
    destruct (Hfail (requests w) (id location)) as [e He].
    rewrite (location_body_fetch_failed E cfg location v w e He).
    match goal with
    | |- context [for_locations E cfg rest v ?w1] =>
        destruct (IH w1) as [w' [Hw' Hm]]
    end.
    exists w'. split; [exact Hw' | rewrite Hm; reflexivity].
Qed.

(** C6.  [checkLocation] always returns: the body of the response when
    the request succeeds (a list as it is, the empty list for a falsy
    body), and the empty list, after logging the error, when the request
    fails.  A
    location whose fetch fails leaves the notified set, the counter, the
    mail count and the file as they are, and the loop goes on with the
    next location.  A run with at least one location ends with status 0
    when every fetch fails; and with the credentials set and an endpoint
    whose responses are lists of slots it ends with status 0 however
    many of the fetches fail. *)
Theorem fetch_failure_is_recovered (E : Env) :
  (forall locationId w,
      exists slots w', checkLocation E locationId w = (Ret slots, w'))
  /\ (forall locationId w e,
         http_get E (requests w) locationId = inl e ->
         checkLocation E locationId w
         = (Ret (JArr []),
            add_events (after_request w locationId)
              [ConsoleError (MsgErrorChecking locationId e)]))
  /\ (forall locationId w body,
         http_get E (requests w) locationId = inr body ->
         checkLocation E locationId w
         = (Ret (if js_truthy body then body else JArr []),
            after_request w locationId))
  /\ (forall locationId w items,
         http_get E (requests w) locationId = inr (JArr items) ->
         checkLocation E locationId w
         = (Ret (JArr items), after_request w locationId))
  /\ (forall cfg location rest v w e,
         http_get E (requests w) (id location) = inl e ->
         exists w',
           location_body E cfg location v w = (Ret v, w')
           /\ mails w' = mails w /\ file w' = file w
           /\ for_locations E cfg (location :: rest) v w
              = for_locations E cfg rest v w')
  /\ (forall f cfg w1,
         CONFIG E (initial_world f) = (Ret cfg, w1) ->
         locations cfg <> [] ->
         (forall n i, exists e, http_get E n i = inl e) ->
         fst (run E (initial_world f)) = 0%Z
         /\ mails (snd (run E (initial_world f))) = 0)
  /\ (forall f cfg w1,
         CONFIG E (initial_world f) = (Ret cfg, w1) ->
         locations cfg <> [] ->
         credentials_set cfg = true ->
         answers_slot_lists E ->
         fst (run E (initial_world f)) = 0%Z).
Proof.
  split.
  { intros i w. rewrite checkLocation_cases.
    destruct (http_get E (requests w) i); eexists; eexists; reflexivity. }
  split.
  { intros i w e H. rewrite checkLocation_cases, H. reflexivity. }
  split.
  { intros i w body H. rewrite checkLocation_cases, H. reflexivity. }
  split.
  { intros i w items H. rewrite checkLocation_cases, H. reflexivity. }
  split.
  { intros cfg location rest v w e H. eexists.
    split; [apply location_body_fetch_failed; exact H|].
    split; [reflexivity|]. split; [reflexivity|].
    cbn [for_locations]. unfold bind at 1.
    rewrite (location_body_fetch_failed E cfg location v w e H). reflexivity. }
  split.
  { intros f cfg w1 Hcfg Hne Hfail.
    rewrite (run_cases E (initial_world f) cfg w1 Hcfg).
    rewrite checkAllLocations_cases. cbv zeta.
    destruct (locations cfg) as [|l ls] eqn:Hl; [contradiction|].
    cbn [length Nat.eqb].
    destruct (load_returns (add_events w1 (banner cfg)))
      as [loaded [d0 [Hload _]]].
    rewrite Hload.
    destruct (for_locations_all_failed E cfg (l :: ls) (loaded, 0) Hfail
                (add_events (add_events w1 (banner cfg)) d0))
      as [w2 [Hfor Hm]].
    rewrite Hfor, save_cases. cbv zeta.
    destruct (CONFIG_returns E (initial_world f)) as [cfg' [d [Hc' _]]].
    rewrite Hcfg in Hc'. injection Hc' as _ Hw1.
    destruct (fs_write E _); cbn [fst snd mails add_events after_write];
      rewrite Hm, Hw1; split; reflexivity. }
  intros f cfg w1 Hcfg Hne Hc Hshape.
  rewrite (run_cases E (initial_world f) cfg w1 Hcfg).
  destruct (checkAllLocations_returns E cfg w1 Hne) as [w' Hw'].
  - intros loaded w0. apply for_locations_returns; assumption.
  - rewrite Hw'. reflexivity.
Qed.

Lemma fetch_failure_is_recovered_witness :
  (fst (run env_fetch_fails (initial_world Absent)) = 0%Z
   /\ mails (snd (run env_fetch_fails (initial_world Absent))) = 0
   /\ checkLocation env_fetch_fails (lit "5140") (initial_world Absent)
      = (Ret (JArr []),
         add_events (after_request (initial_world Absent) (lit "5140"))
           [ConsoleError
              (MsgErrorChecking (lit "5140")
                 (HttpError (lit "timeout of 10000ms exceeded")))]))
  /\ fst (run env_second_fetch_fails (initial_world Absent)) = 0%Z.
Proof.
  split.
  - destruct (fetch_failure_is_recovered env_fetch_fails)
      as [_ [H2 [_ [_ [_ [H5 _]]]]]].
    destruct (H5 Absent cfg_ok
                (snd (CONFIG env_fetch_fails (initial_world Absent))))
      as [Hexit Hmails].
    + reflexivity.
    + discriminate.
    + intros n i. eexists. reflexivity.
    + split; [exact Hexit|]. split; [exact Hmails|].
      apply H2. reflexivity.
  - destruct (fetch_failure_is_recovered env_second_fetch_fails)
      as [_ [_ [_ [_ [_ [_ H6]]]]]].
    apply (H6 Absent
             (match fst (CONFIG env_second_fetch_fails (initial_world Absent))
              with Ret cfg => cfg | _ => cfg_ok end)
             (snd (CONFIG env_second_fetch_fails (initial_world Absent)))).
    + reflexivity.
    + discriminate.
    + reflexivity.
    + intros [|[|n]] i body H; try discriminate H;
        injection H as <-; reflexivity.
Defined.

(** C8 as written fails: with the host and the port unset, and the user
    and the password set, the transporter is built on the defaults,
    nothing is raised, the mail goes out and the status is 0. *)
Lemma unset_host_and_port_are_defaulted :
  SMTP_HOST env_ok = None /\ SMTP_PORT env_ok = None
  /\ CONFIG env_ok (initial_world Absent) = (Ret cfg_ok, initial_world Absent)
  /\ createEmailTransporter cfg_ok (initial_world Absent)
     = (Ret smtp_ok, initial_world Absent)
  /\ host smtp_ok = Some (lit "smtp.gmail.com")
  /\ port smtp_ok = Finite false 587 0
  /\ fst (run env_ok (initial_world Absent)) = 0%Z
  /\ mails (snd (run env_ok (initial_world Absent))) = 1.
Proof. repeat (split; [reflexivity|]). reflexivity. Qed.

(** C8, amended.  When the user or the password is unset or empty,
    building the transporter raises the credentials error; [sendEmail]
    does not catch it, the turn of the slot loop that wanted to notify
    ends with it, and a process in which a slot was announced exits with
    status 1 after logging the error as fatal.  The host and the port are
    never missing: an unset or empty host is replaced by smtp.gmail.com,
    an unset, unreadable or zero port by 587, and the check does not look
    at them. *)
Theorem missing_user_or_password_is_fatal :
  (forall cfg w,
      credentials_set cfg = false ->
      createEmailTransporter cfg w = (Throw CredentialsNotConfigured, w))
  /\ (forall E cfg n w,
         credentials_set cfg = false ->
         sendEmail E cfg n w = (Throw CredentialsNotConfigured, w))
  /\ (forall E cfg location slot notified n w,
         credentials_set cfg = false ->
         qualifies location slot notified = true ->
         slot_body E cfg location slot (notified, n) w
         = (Throw CredentialsNotConfigured,
            add_events w [ConsoleLog (MsgSlotLine (startTimestamp slot));
                          ConsoleLog MsgBetterFound]))
  /\ (forall E f,
         truthy (SMTP_USER E) && truthy (SMTP_PASS E) = false ->
         announced (trace (snd (run E (initial_world f)))) ->
         fst (run E (initial_world f)) = 1%Z
         /\ In (ConsoleError (MsgFatal CredentialsNotConfigured))
               (trace (snd (run E (initial_world f))))
         /\ file (snd (run E (initial_world f))) = f)
  /\ (forall E w cfg w',
         CONFIG E w = (Ret cfg, w') ->
         truthy (host (smtp cfg)) = true
         /\ number_truthy (port (smtp cfg)) = true
         /\ credentials_set cfg = truthy (SMTP_USER E) && truthy (SMTP_PASS E))
  /\ (forall cfg w,
         credentials_set cfg = true ->
         createEmailTransporter cfg w = (Ret (smtp cfg), w)).
Proof.
  split; [exact createEmailTransporter_missing|].
  split; [exact sendEmail_missing|].
  split.
  { intros E cfg location slot notified n w Hc Hq.
    rewrite slot_body_cases, Hq, Hc. reflexivity. }
  split.
  { intros E f Hcred Hann.
    destruct (CONFIG_returns E (initial_world f))
      as [cfg [d [Hcfg [Hcd [Had [Hu [Hp _]]]]]]].
    assert (Hc : credentials_set cfg = false)
      by (unfold credentials_set; rewrite Hu, Hp; exact Hcred).
    rewrite (run_cases E (initial_world f) cfg _ Hcfg) in Hann |- *.
    rewrite checkAllLocations_cases in Hann |- *. cbv zeta in Hann |- *.
    destruct (Nat.eqb (length (locations cfg)) 0).
    { exfalso. cbn [snd trace add_events initial_world app] in Hann.
      unfold announced in Hann. rewrite !in_app_iff in Hann.
      destruct Hann as [[Hann|Hann]|Hann].
      - exact (Had Hann).
      - cbn [banner In] in Hann.
        repeat (destruct Hann as [Hann|Hann]; [discriminate|]). exact Hann.
      - cbn [In] in Hann.
        repeat (destruct Hann as [Hann|Hann]; [discriminate|]). exact Hann. }
    destruct (load_returns (add_events (add_events (initial_world f) d)
                              (banner cfg)))
      as [loaded [d0 [Hload [_ [_ Ha0]]]]].
    rewrite Hload in Hann |- *.
    pose proof (loop_step_for_locations E cfg (locations cfg) (loaded, 0)
                  (add_events (add_events (add_events (initial_world f) d)
                                 (banner cfg)) d0)) as Hloop.
    destruct (for_locations E cfg (locations cfg) (loaded, 0) _)
      as [[v|e|code] w2]; cbn [fst snd] in Hloop.
    - exfalso. destruct Hloop as [_ [d1 [Ht1 [_ [_ [_ Ha1]]]]]].
      rewrite save_cases in Hann. cbv zeta in Hann.
      assert (Hsum : ~ announced (summary cfg v)).
      { intros H. cbn [summary] in H. unfold announced in H. cbn [In] in H.
        repeat (destruct H as [H|H]; [discriminate|]). exact H. }
      assert (Hpre : ~ announced (trace w2)).
      { rewrite Ht1. cbn [trace add_events initial_world app].
        unfold announced. rewrite !in_app_iff.
        intros [[[H|H]|H]|H].
        - exact (Had H).
        - cbn [banner In] in H.
          repeat (destruct H as [H|H]; [discriminate|]). exact H.
        - exact (Ha0 H).
        - exact (Ha1 Hc H). }
      destruct (fs_write E _);
        cbn [snd trace add_events after_write] in Hann;
        unfold announced in Hann; rewrite !in_app_iff in Hann; cbn [In] in Hann;
        intuition (try discriminate; auto).
    - destruct Hloop as [Hf [d1 [Ht1 [_ [[-> [_ Ha1]] | [-> Ha1]]]]]].
      + cbn [fst snd trace add_events].
        split; [reflexivity|].
        split; [apply in_or_app; right; left; reflexivity|].
        exact Hf.
      + exfalso. cbn [snd trace add_events] in Hann. rewrite Ht1 in Hann.
        cbn [trace add_events initial_world app] in Hann.
        unfold announced in Hann. rewrite !in_app_iff in Hann.
        destruct Hann as [[[[H|H]|H]|H]|H].
        * exact (Had H).
        * cbn [banner In] in H.
          repeat (destruct H as [H|H]; [discriminate|]). exact H.
        * exact (Ha0 H).
        * exact (Ha1 Hc H).
        * destruct H as [H|[]]; discriminate.
    - destruct Hloop as [_ [d1 [_ [_ []]]]]. }
  split.
  { intros E w cfg w' Hcfg.
    destruct (CONFIG_returns E w) as [cfg' [d [Hc' [_ [_ [Hu [Hp [Hh [Hport _]]]]]]]]].
    rewrite Hcfg in Hc'. injection Hc' as <- _.
    split.
    - rewrite Hh. unfold js_or. destruct (truthy (SMTP_HOST E)) eqn:H;
        [exact H | reflexivity].
    - split.
      + rewrite Hport. unfold smtp_port.
        destruct (number_truthy (parseInt _)) eqn:H; [exact H | reflexivity].
      + unfold credentials_set. rewrite Hu, Hp. reflexivity. }
  exact createEmailTransporter_set.
Qed.

Lemma missing_user_or_password_is_fatal_witness :
  fst (run env_no_password (initial_world Absent)) = 1%Z
  /\ file (snd (run env_no_password (initial_world Absent))) = Absent
  /\ createEmailTransporter cfg_no_password (initial_world Absent)
     = (Throw CredentialsNotConfigured, initial_world Absent).
Proof.
  destruct missing_user_or_password_is_fatal as [H1 [_ [_ [H4 _]]]].
  destruct (H4 env_no_password Absent) as [Hexit [_ Hfile]].
  - reflexivity.
  - unfold announced. vm_compute.
    repeat (try (left; reflexivity); right).
  - split; [exact Hexit|]. split; [exact Hfile|].
    apply H1. reflexivity.
Defined.

(** C9.  Within a run the notified set only grows: [add], the one
    operation the cycle applies to it, keeps the elements it had in
    place; so does a turn of the slot loop, and so does the whole loop
    over the locations.  A run of [checkAllLocations] that ends normally
    wrote the file exactly once: everything before the write is free of
    writes, the write carries the set the loop over all the locations
    ended with, which extends the loaded one, and after the write there
    is only console output.  A run that does not end normally wrote
    nothing. *)
Theorem notified_set_grows_and_is_saved_once (E : Env) (cfg : Config) :
  (forall (s : JsSet) (x : json), exists ext, set_add s x = s ++ ext)
  /\ (forall location slot notified n w notified' n',
         fst (slot_body E cfg location slot (notified, n) w)
         = Ret (notified', n') ->
         exists ext, notified' = notified ++ ext)
  /\ (forall locs notified n w notified' n',
         fst (for_locations E cfg locs (notified, n) w) = Ret (notified', n') ->
         exists ext, notified' = notified ++ ext)
  /\ (forall w w',
         checkAllLocations E cfg w = (Ret tt, w') ->
         exists pre post loaded v,
           fst (loadNotifiedAppointments (add_events w (banner cfg)))
           = Ret loaded
           /\ fst (for_locations E cfg (locations cfg) (loaded, 0)
                     (snd (loadNotifiedAppointments
                             (add_events w (banner cfg)))))
              = Ret v
           /\ (exists ext, fst v = loaded ++ ext)
           /\ trace w' = trace w ++ pre
                         ++ WriteFile (JSON_stringify (JArr (fst v))) :: post
           /\ forallb not_write pre = true
           /\ forallb is_console post = true
           /\ length (filter is_write
                        (pre ++ WriteFile (JSON_stringify (JArr (fst v)))
                             :: post)) = 1
           /\ (fs_write E (JSON_stringify (JArr (fst v))) = WriteOk ->
               file w' = Content (JSON_stringify (JArr (fst v)))))
  /\ (forall w o w',
         checkAllLocations E cfg w = (o, w') -> o <> Ret tt ->
         file w' = file w
         /\ exists d, trace w' = trace w ++ d /\ filter is_write d = []).
Proof.
  split; [exact set_add_extends|].
  split.
  { intros location slot notified n w notified' n' H.
    pose proof (loop_step_slot_body E cfg location slot (notified, n) w) as Hs.
    rewrite H in Hs. destruct Hs as [_ [d [_ [_ [Hext _]]]]]. exact Hext. }
  split.
  { intros locs notified n w notified' n' H.
    pose proof (loop_step_for_locations E cfg locs (notified, n) w) as Hs.
    rewrite H in Hs. destruct Hs as [_ [d [_ [_ [Hext _]]]]]. exact Hext. }
  split.
  { intros w w' H.
    destruct (checkAllLocations_completed E cfg w w' H)
      as [pre [post [loaded [v [H1 [H2 [H3 [H4 [H5 [H6 H7]]]]]]]]]].
    exists pre, post, loaded, v.
    repeat (split; [assumption|]).
    split; [|exact H7].
    rewrite filter_app. cbn [filter is_write].
    rewrite (no_write_filter pre H5).
    rewrite (no_write_filter post (console_not_write post H6)). reflexivity. }
  intros w o w' H Hne.
  destruct (checkAllLocations_aborted E cfg w w' o H Hne) as [Hf [d [Ht Hw]]].
  split; [exact Hf|]. exists d. split; [exact Ht|].
  apply no_write_filter; exact Hw.
Qed.

Lemma notified_set_grows_and_is_saved_once_witness :
  exists ext,
    set_add [] (JStr (appointmentKey jfk slot_march)) = [] ++ ext
    /\ length
         (filter is_write
            (trace (snd (checkAllLocations env_ok cfg_ok (initial_world Absent)))))
       = 1.
Proof.
  destruct (notified_set_grows_and_is_saved_once env_ok cfg_ok)
    as [_ [H2 [_ [H4 _]]]].
  destruct (H2 jfk slot_march [] 0 (initial_world Absent)
              (set_add [] (JStr (appointmentKey jfk slot_march))) 1 eq_refl)
    as [ext Hext].
  exists ext. split; [exact Hext|].
  destruct (H4 (initial_world Absent)
              (snd (checkAllLocations env_ok cfg_ok (initial_world Absent)))
              eq_refl)
    as [pre [post [loaded [v [_ [_ [_ [Ht [_ [_ [Hone _]]]]]]]]]]].
  rewrite Ht. exact Hone.
Defined.

(* ================================================================== *)
(** ** The books of the loop *)
(* ================================================================== *)

Lemma count_app (p : event -> bool) (a b : list event) :
  count p (a ++ b) = count p a + count p b.
Proof. unfold count. rewrite filter_app, length_app. reflexivity. Qed.

Lemma NoDup_snoc (keys : list jsstring) (k : jsstring) :
  NoDup keys -> ~ In k keys -> NoDup (keys ++ [k]).
Proof.
  intros Hnd Hk. induction keys as [|a keys IH]; simpl.
  - constructor; [intros [] | constructor].
  - inversion Hnd as [|? ? Ha Hnd']; subst. constructor.
    + intros Hin. apply in_app_or in Hin as [Hin|[Hin|[]]].
      * contradiction.
      * subst. apply Hk; left; reflexivity.
    + apply IH; [assumption|]. intros Hin; apply Hk; right; assumption.
Qed.

Lemma ledger_refl (cfg : Config) (v : Vars) (w : World) :
  ledger cfg v w (Ret v) w.
Proof.
  exists []. rewrite app_nil_r. cbn [count filter length].
  rewrite !Nat.add_0_r.
  repeat (split; [reflexivity|]).
  split; [intros m []|].
  split; [exists []; rewrite app_nil_r; reflexivity|].
  repeat (split; [reflexivity|]).
  intros keys Hnd Hk. exists []. rewrite app_nil_r. split; assumption.
Qed.

Lemma ledger_trans (cfg : Config) (v v1 : Vars) (w w1 w2 : World)
  (o : outcome Vars) :
  ledger cfg v w (Ret v1) w1 -> ledger cfg v1 w1 o w2 ->
  ledger cfg v w o w2.
Proof.
  intros [d1 [Ht1 [Hm1 [Hr1 [Hmail1 [[ext1 He1] [Hn1 [Hl1 [Hs1 [Hd1 Hk1]]]]]]]]]]
         [d2 [Ht2 [Hm2 [Hr2 [Hmail2 Ho]]]]].
  exists (d1 ++ d2). rewrite !count_app.
  split; [rewrite Ht2, Ht1, app_assoc; reflexivity|].
  split; [lia|]. split; [lia|].
  split.
  { intros m Hin. apply in_app_or in Hin as [Hin|Hin].
    - apply Hmail1; assumption.
    - destruct (Hmail2 m Hin) as [Hc [Hf [Hto Hhas]]].
      repeat (split; [assumption|]).
      rewrite He1, set_has_app in Hhas.
      apply orb_false_iff in Hhas as [Hhas _]. exact Hhas. }
  destruct o as [v2|e|code]; [|exact I|exact I].
  destruct Ho as [[ext2 He2] [Hn2 [Hl2 [Hs2 [Hd2 Hk2]]]]].
  rewrite ?count_app.
  split; [exists (ext1 ++ ext2); rewrite He2, He1, app_assoc; reflexivity|].
  split; [lia|]. split; [lia|]. split; [lia|]. split; [lia|].
  intros keys Hnd Hk.
  destruct (Hk1 keys Hnd Hk) as [more1 [Hnd1 Hv1]].
  destruct (Hk2 (keys ++ more1) Hnd1 Hv1) as [more2 [Hnd2 Hv2]].
  exists (more1 ++ more2). rewrite app_assoc. split; assumption.
Qed.

(** A stretch of console output, with or without a request or a delay
    that balances a found line. *)
Lemma ledger_quiet (cfg : Config) (v : Vars) (w w' : World)
  (d : list event) :
  trace w' = trace w ++ d ->
  mails w' = mails w + count is_mail d ->
  requests w' = requests w + count is_http d ->
  count is_mail d = 0 -> count is_sent_log d = 0 ->
  count is_delay d = count is_found_log d ->
  ledger cfg v w (Ret v) w'.
Proof.
  intros Ht Hm Hr Hmail Hsent Hdelay. exists d.
  repeat (split; [assumption|]).
  split.
  { intros m Hin. exfalso. unfold count in Hmail.
    assert (Hf : In (SendMail m) (filter is_mail d))
      by (apply filter_In; split; [assumption | reflexivity]).
    destruct (filter is_mail d); [exact Hf | discriminate]. }
  split; [exists []; rewrite app_nil_r; reflexivity|].
  rewrite Hsent, Hmail, !Nat.add_0_r.
  split; [reflexivity|]. split; [reflexivity|]. split; [apply le_n|].
  split; [assumption|].
  intros keys Hnd Hk. exists []. rewrite app_nil_r. split; assumption.
Qed.

Ltac ledger_quiet_step :=
  eapply ledger_quiet;
  [ cbn [trace add_events after_request after_mail];
    rewrite <- ?app_assoc; cbn [app]; reflexivity
  | cbn; lia | cbn; lia | reflexivity | reflexivity | reflexivity ].

Lemma ledger_slot_body (E : Env) (cfg : Config)
  (location : LocationTarget) (slot : Slot) (v : Vars) (w : World) :
  ledger cfg v w (fst (slot_body E cfg location slot v w))
                 (snd (slot_body E cfg location slot v w)).
Proof.
  destruct v as [notified n]. rewrite slot_body_cases.
  destruct (qualifies location slot notified) eqn:Hq; cbv zeta.
  - apply qualifies_true in Hq as [_ Hhas].
    destruct (credentials_set cfg) eqn:Hc.
    + assert (Hmail : forall (m : Mail) (rest : list event),
                 In (SendMail m)
                    (ConsoleLog (MsgSlotLine (startTimestamp slot))
                     :: ConsoleLog MsgBetterFound
                     :: SendMail (mail_of cfg (notice_of location slot))
                     :: rest) ->
                 (forall x, In x rest -> is_mail x = false) ->
                 credentials_set cfg = true
                 /\ mail_from m = user (smtp cfg) /\ mail_to m = emailTo cfg
                 /\ set_has (fst (notified, n)) (JStr (mail_key m)) = false).
      { intros m rest [H|[H|[H|H]]] Hrest; try discriminate.
        - injection H as <-. repeat split; assumption.
        - apply Hrest in H. discriminate. }
      destruct (smtp_send E (mails w) _); cbn [fst snd].
      * eexists. split.
        { cbn [trace add_events after_mail]. rewrite <- !app_assoc.
          cbn [app]. reflexivity. }
        split; [cbn; lia|]. split; [cbn; lia|].
        split.
        { intros m Hin. apply (Hmail m _ Hin).
          intros x [<-|[]]; reflexivity. }
        split; [exists []; rewrite app_nil_r; reflexivity|].
        split; [cbn; lia|]. split; [cbn; lia|]. split; [cbn; lia|].
        split; [reflexivity|].
        intros keys Hnd Hk. exists []. rewrite app_nil_r. split; assumption.
      * eexists. split.
        { cbn [trace add_events after_mail]. rewrite <- !app_assoc.
          cbn [app]. reflexivity. }
        split; [cbn; lia|]. split; [cbn; lia|].
        split.
        { intros m Hin. apply (Hmail m _ Hin).
          intros x [<-|[]]; reflexivity. }
        cbn [fst snd]. rewrite set_add_fresh by assumption.
        split; [eexists; reflexivity|].
        split; [cbn; lia|].
        split; [rewrite length_app; cbn; lia|]. split; [cbn; lia|].
        split; [reflexivity|].
        intros keys Hnd Hk. exists [appointmentKey location slot].
        split.
        -- apply NoDup_snoc; [assumption|].
           rewrite <- in_map_JStr, <- Hk. apply set_has_str_false. exact Hhas.
        -- rewrite map_app, Hk. reflexivity.
    + cbn [fst snd]. eexists.
      split; [reflexivity|]. split; [cbn; lia|]. split; [cbn; lia|].
      split; [|exact I].
      intros m [H|[H|[]]]; discriminate.
  - cbn [fst snd]. ledger_quiet_step.
Qed.

Lemma ledger_type_error (cfg : Config) (v : Vars) (w : World) :
  ledger cfg v w (Throw TypeError) w.
Proof.
  exists []. rewrite app_nil_r. cbn [count filter length].
  rewrite !Nat.add_0_r.
  repeat (split; [reflexivity|]).
  split; [intros m []|exact I].
Qed.

Lemma ledger_slot_turn (E : Env) (cfg : Config)
  (location : LocationTarget) (x : json) (v : Vars) (w : World) :
  ledger cfg v w (fst (slot_turn E cfg location x v w))
                 (snd (slot_turn E cfg location x v w)).
Proof.
  unfold slot_turn. destruct (as_slot x) as [slot|].
  - apply ledger_slot_body.
  - apply ledger_type_error.
Qed.

Lemma ledger_for_slots (E : Env) (cfg : Config)
  (location : LocationTarget) (slots : list json) :
  forall (v : Vars) (w : World),
    ledger cfg v w (fst (for_slots E cfg location slots v w))
                   (snd (for_slots E cfg location slots v w)).
Proof.
  induction slots as [|x rest IH]; intros v w.
  - apply ledger_refl.
  - cbn [for_slots]. unfold bind.
    pose proof (ledger_slot_turn E cfg location x v w) as Hs.
    destruct (slot_turn E cfg location x v w) as [[v1|e|code] w1];
      cbn [fst snd] in Hs |- *.
    + eapply ledger_trans; [exact Hs | apply IH].
    + exact Hs.
    + exact Hs.
Qed.

Lemma ledger_for_of_slots (E : Env) (cfg : Config)
  (location : LocationTarget) (slots : json) (v : Vars) (w : World) :
  ledger cfg v w (fst (for_of_slots E cfg location slots v w))
                 (snd (for_of_slots E cfg location slots v w)).
Proof.
  unfold for_of_slots. destruct (iterate slots) as [items|].
  - apply ledger_for_slots.
  - apply ledger_type_error.
Qed.

Lemma ledger_location_body (E : Env) (cfg : Config)
  (location : LocationTarget) (v : Vars) (w : World) :
  ledger cfg v w (fst (location_body E cfg location v w))
                 (snd (location_body E cfg location v w)).
Proof.
  rewrite location_body_cases. cbv zeta.
  destruct (http_get E (requests w) (id location)) as [e|data].
  - cbn [fst snd]. ledger_quiet_step.
  - destruct (length_is_zero (or_empty_array data)).
    + cbn [fst snd]. ledger_quiet_step.
    + match goal with
      | |- context [for_of_slots E cfg location ?s v ?w0] =>
          pose proof (ledger_for_of_slots E cfg location s v w0) as Hs;
          pose proof (loop_step_for_of_slots E cfg location s v w0) as Hl;
          destruct (for_of_slots E cfg location s v w0) as [[v1|e|code] w2]
      end; cbn [fst snd] in Hs, Hl |- *.
      * destruct Hs as [d [Ht [Hm [Hr [Hmail [Hext [Hn [Hlen [Hle [Hdel Hk]]]]]]]]]].
        exists ([ConsoleLog (MsgChecking location);
                 ConsoleLog (MsgTargetDate (targetDate location));
                 HttpGet (id location);
                 ConsoleLog (MsgFound (get_length (or_empty_array data)))]
                ++ d ++ [ConsoleLog MsgBlank; Delay 2000]).
        rewrite !count_app.
        cbn [trace add_events after_request mails requests] in Ht, Hm, Hr |- *.
        split; [rewrite Ht, <- !app_assoc; reflexivity|].
        split; [cbn; lia|]. split; [cbn; lia|].
        split.
        { intros m Hin. apply in_app_or in Hin as [Hin|Hin].
          - exfalso. cbn [In] in Hin.
            repeat (destruct Hin as [Hin|Hin]; [discriminate|]). exact Hin.
          - apply in_app_or in Hin as [Hin|Hin]; [apply Hmail; exact Hin|].
            exfalso. cbn [In] in Hin.
            repeat (destruct Hin as [Hin|Hin]; [discriminate|]). exact Hin. }
        split; [exact Hext|].
        split; [cbn; lia|]. split; [cbn; lia|]. split; [cbn; lia|].
        split; [cbn; lia|]. exact Hk.
      * destruct Hs as [d [Ht [Hm [Hr [Hmail _]]]]].
        exists ([ConsoleLog (MsgChecking location);
                 ConsoleLog (MsgTargetDate (targetDate location));
                 HttpGet (id location);
                 ConsoleLog (MsgFound (get_length (or_empty_array data)))] ++ d).
        rewrite !count_app.
        cbn [trace add_events after_request mails requests] in Ht, Hm, Hr |- *.
        split; [rewrite Ht, <- !app_assoc; reflexivity|].
        split; [cbn; lia|]. split; [cbn; lia|].
        split; [|exact I].
        intros m Hin. apply in_app_or in Hin as [Hin|Hin]; [|apply Hmail; exact Hin].
        exfalso. cbn [In] in Hin.
        repeat (destruct Hin as [Hin|Hin]; [discriminate|]). exact Hin.
      * destruct Hl as [_ [d [_ [_ []]]]].
Qed.

Lemma ledger_for_locations (E : Env) (cfg : Config)
  (locs : list LocationTarget) :
  forall (v : Vars) (w : World),
    ledger cfg v w (fst (for_locations E cfg locs v w))
                   (snd (for_locations E cfg locs v w)).
Proof.
  induction locs as [|location rest IH]; intros v w.
  - apply ledger_refl.
  - cbn [for_locations]. unfold bind.
    pose proof (ledger_location_body E cfg location v w) as Hs.
    destruct (location_body E cfg location v w) as [[v1|e|code] w1];
      cbn [fst snd] in Hs |- *.
    + eapply ledger_trans; [exact Hs | apply IH].
    + exact Hs.
    + exact Hs.
Qed.

(* ================================================================== *)
(** ** Further properties of the cycle *)
(* ================================================================== *)

(** X1.  When the loop over the locations ends normally, the counter of
    new notifications has grown by exactly the number of keys added to
    the set, which is the number of mails confirmed in the log, and this
    is at most the number of mails handed to the relay. *)
Theorem counter_matches_keys_added
  (E : Env) (cfg : Config) (locs : list LocationTarget)
  (notified notified' : JsSet) (n n' : nat) (w w' : World) :
  for_locations E cfg locs (notified, n) w = (Ret (notified', n'), w') ->
  exists d,
    trace w' = trace w ++ d
    /\ n' = n + count is_sent_log d
    /\ set_size notified' = set_size notified + count is_sent_log d
    /\ mails w' = mails w + count is_mail d
    /\ count is_sent_log d <= count is_mail d
    /\ n' - n = set_size notified' - set_size notified
    /\ n' - n <= mails w' - mails w.
Proof.
  intros H. pose proof (ledger_for_locations E cfg locs (notified, n) w) as L.
  rewrite H in L. cbn [fst snd] in L.
  destruct L as [d [Ht [Hm [_ [_ [_ [Hn [Hlen [Hle _]]]]]]]]].
  cbn [fst snd] in Hn, Hlen.
  exists d. unfold set_size. repeat (split; [assumption|]). split; lia.
Qed.

Lemma counter_matches_keys_added_witness :
  exists d,
    trace (snd (for_locations env_ok cfg_ok [jfk; jfk] ([], 0)
                  (initial_world Absent))) = [] ++ d
    /\ 1 = 0 + count is_sent_log d.
Proof.
  destruct (counter_matches_keys_added env_ok cfg_ok [jfk; jfk] []
              [JStr (appointmentKey jfk slot_march)] 0 1
              (initial_world Absent)
              (snd (for_locations env_ok cfg_ok [jfk; jfk] ([], 0)
                      (initial_world Absent))) eq_refl)
    as [d [Ht [Hn _]]].
  exists d. split; assumption.
Defined.

(** X2.  The summary of a run that ends normally is consistent: it
    reports the number of configured locations, the number k of new
    notifications, and as total tracked the size of the loaded set plus
    k; k is at most the number of mails handed to the relay. *)
Theorem summary_is_consistent
  (E : Env) (cfg : Config) (w w' : World) :
  checkAllLocations E cfg w = (Ret tt, w') ->
  exists pre loaded k,
    fst (loadNotifiedAppointments (add_events w (banner cfg))) = Ret loaded
    /\ trace w'
       = pre ++ [ConsoleLog MsgRule; ConsoleLog MsgSummary; ConsoleLog MsgRule;
                 ConsoleLog (MsgTotalLocations (length (locations cfg)));
                 ConsoleLog (MsgNewNotifications k);
                 ConsoleLog (MsgTotalTracked (set_size loaded + k));
                 ConsoleLog MsgCompleted; ConsoleLog MsgRule]
    /\ mails w + k <= mails w'.
Proof.
  rewrite checkAllLocations_cases. cbv zeta.
  destruct (Nat.eqb (length (locations cfg)) 0); [discriminate|].
  destruct (load_returns (add_events w (banner cfg)))
    as [loaded [d0 [Hload _]]].
  rewrite Hload. cbn [fst].
  pose proof (ledger_for_locations E cfg (locations cfg) (loaded, 0)
                (add_events (add_events w (banner cfg)) d0)) as L.
  destruct (for_locations E cfg (locations cfg) (loaded, 0)
              (add_events (add_events w (banner cfg)) d0))
    as [[v|e|code] w2]; try discriminate.
  cbn [fst snd] in L.
  destruct L as [d [_ [Hm [_ [_ [_ [Hn [Hlen [Hle _]]]]]]]]].
  cbn [mails add_events fst snd] in Hm, Hn, Hlen.
  rewrite save_cases. cbv zeta.
  destruct (fs_write E (JSON_stringify (JArr (fst v))));
    intros H; injection H as <-;
    eexists; exists loaded, (snd v);
    (split; [reflexivity|]);
    (split; [cbn [trace add_events]; unfold summary, set_size;
             rewrite Hlen, Hn; reflexivity|]);
    cbn [mails add_events after_write]; lia.
Qed.

Lemma summary_is_consistent_witness :
  exists pre loaded k,
    fst (loadNotifiedAppointments
           (add_events (initial_world Absent) (banner cfg_ok))) = Ret loaded
    /\ trace (snd (checkAllLocations env_ok cfg_ok (initial_world Absent)))
       = pre ++ [ConsoleLog MsgRule; ConsoleLog MsgSummary; ConsoleLog MsgRule;
                 ConsoleLog (MsgTotalLocations (length (locations cfg_ok)));
                 ConsoleLog (MsgNewNotifications k);
                 ConsoleLog (MsgTotalTracked (set_size loaded + k));
                 ConsoleLog MsgCompleted; ConsoleLog MsgRule].
Proof.
  destruct (summary_is_consistent env_ok cfg_ok (initial_world Absent)
              (snd (checkAllLocations env_ok cfg_ok (initial_world Absent)))
              eq_refl)
    as [pre [loaded [k [H1 [H2 _]]]]].
  exists pre, loaded, k. split; assumption.
Defined.

(** X3.  The store stays a list of distinct keys from run to run: when
    the loaded set is a set of distinct strings (as it is on a first
    run, and after any run of which this is true), a run that ends
    normally with a write that succeeds leaves a file that holds those
    keys, in place, followed by the new ones, all distinct, and loading
    that file in a later process gives back exactly this set. *)
Theorem store_keeps_distinct_keys
  (E : Env) (cfg : Config) (w w' : World) (keys : list jsstring) :
  NoDup keys ->
  fst (loadNotifiedAppointments (add_events w (banner cfg)))
  = Ret (List.map JStr keys) ->
  (forall content, fs_write E content = WriteOk) ->
  checkAllLocations E cfg w = (Ret tt, w') ->
  exists more,
    NoDup (keys ++ more)
    /\ file w' = Content (JSON_stringify (JArr (List.map JStr (keys ++ more))))
    /\ (forall w2, file w2 = file w' ->
          loadNotifiedAppointments w2
          = (Ret (List.map JStr (keys ++ more)), w2)).
Proof.
  intros Hnd Hload Hwrite H.
  destruct (checkAllLocations_completed E cfg w w' H)
    as [pre [post [loaded [v [H1 [H2 [_ [_ [_ [_ H7]]]]]]]]]].
  rewrite Hload in H1. injection H1 as <-.
  match type of H2 with
  | fst (for_locations _ _ ?l ?v0 ?w0) = _ =>
      pose proof (ledger_for_locations E cfg l v0 w0) as L
  end.
  rewrite H2 in L.
  destruct L as [d [_ [_ [_ [_ [_ [_ [_ [_ [_ Hk]]]]]]]]]].
  destruct (Hk keys Hnd eq_refl) as [more [Hnd' Hv]].
  exists more. split; [exact Hnd'|].
  rewrite (H7 (Hwrite _)), Hv. split; [reflexivity|].
  intros w3 Hf. rewrite load_cases, Hf, parse_stringify_keys.
  rewrite new_Set_of_keys by assumption. reflexivity.
Qed.

Lemma store_keeps_distinct_keys_witness :
  exists more,
    NoDup ([] ++ more)
    /\ file (snd (checkAllLocations env_ok cfg_ok (initial_world Absent)))
       = Content (JSON_stringify (JArr (List.map JStr ([] ++ more)))).
Proof.
  destruct (store_keeps_distinct_keys env_ok cfg_ok (initial_world Absent)
              (snd (checkAllLocations env_ok cfg_ok (initial_world Absent)))
              [])
    as [more [H1 [H2 _]]].
  - constructor.
  - reflexivity.
  - intros content. reflexivity.
  - reflexivity.
  - exists more. split; assumption.
Defined.

(** The shape of every run of [checkAllLocations]: either there is no
    location and the process is left at once, or the store is loaded,
    the loop runs, and what follows the loop is the one write and the
    summary when the loop ended normally, and nothing otherwise. *)
Lemma checkAllLocations_shape (E : Env) (cfg : Config) (w w' : World)
  (o : outcome unit) :
  checkAllLocations E cfg w = (o, w') ->
  (locations cfg = [] /\ o = Exit 1%Z
   /\ w' = add_events w (banner cfg ++ [ConsoleError MsgNoLocations;
                                        ConsoleLog MsgSetLocationsHint]))
  \/ (locations cfg <> []
      /\ exists loaded d0 lo w2 post,
           loadNotifiedAppointments (add_events w (banner cfg))
           = (Ret loaded, add_events w (banner cfg ++ d0))
           /\ (forallb is_console d0 = true /\ ~ announced d0)
           /\ for_locations E cfg (locations cfg) (loaded, 0)
                (add_events w (banner cfg ++ d0)) = (lo, w2)
           /\ trace w' = trace w2 ++ post
           /\ mails w' = mails w2 /\ requests w' = requests w2
           /\ match lo with
              | Ret v =>
                  o = Ret tt
                  /\ exists err,
                       post = WriteFile (JSON_stringify (JArr (fst v)))
                              :: err ++ summary cfg v
                       /\ forallb is_console err = true
                       /\ ~ announced err
              | Throw e => o = Throw e /\ post = [] /\ w' = w2
              | Exit code => o = Exit code /\ post = [] /\ w' = w2
              end).
Proof.
  rewrite checkAllLocations_cases. cbv zeta.
  destruct (locations cfg) as [|l ls] eqn:Hlocs.
  { intros H; injection H as <- <-. left.
    split; [reflexivity|]. split; [reflexivity|].
    rewrite add_events_app. reflexivity. }
  change (Nat.eqb (length (l :: ls)) 0) with false. cbv iota.
  intros H. right. split; [discriminate|].
  destruct (load_returns (add_events w (banner cfg)))
    as [loaded [d0 [Hload [Hc0' [_ Ha0]]]]].
  assert (Hc0 : forallb is_console d0 = true /\ ~ announced d0)
    by (split; assumption).
  rewrite Hload in H. rewrite add_events_app in Hload, H.
  exists loaded, d0.
  destruct (for_locations E cfg (l :: ls) (loaded, 0)
              (add_events w (banner cfg ++ d0)))
    as [[v|e|code] w2] eqn:Hfor.
  - rewrite save_cases in H. cbv zeta in H.
    destruct (fs_write E (JSON_stringify (JArr (fst v)))) as [|e remains];
      injection H as <- <-.
    + exists (Ret v), w2,
        (WriteFile (JSON_stringify (JArr (fst v))) :: [] ++ summary cfg v).
      split; [exact Hload|]. split; [exact Hc0|]. split; [reflexivity|].
      split; [unfold add_events, after_write; simpl trace;
              rewrite <- app_assoc; reflexivity|].
      split; [reflexivity|]. split; [reflexivity|].
      split; [reflexivity|]. exists [].
      split; [reflexivity|]. split; [reflexivity | intros []].
    + exists (Ret v), w2,
        (WriteFile (JSON_stringify (JArr (fst v)))
         :: [ConsoleError (MsgErrorSaving e)] ++ summary cfg v).
      split; [exact Hload|]. split; [exact Hc0|]. split; [reflexivity|].
      split; [unfold add_events, after_write; simpl trace;
              rewrite <- !app_assoc; reflexivity|].
      split; [reflexivity|]. split; [reflexivity|].
      split; [reflexivity|]. eexists.
      split; [reflexivity|]. split; [reflexivity|].
      intros [Hin|[]]; discriminate.
  - injection H as <- <-. exists (Throw e), w2, [].
    split; [exact Hload|]. split; [exact Hc0|]. split; [reflexivity|].
    rewrite app_nil_r. repeat split; reflexivity.
  - injection H as <- <-. exists (Exit code), w2, [].
    split; [exact Hload|]. split; [exact Hc0|]. split; [reflexivity|].
    rewrite app_nil_r. repeat split; reflexivity.
Qed.

Lemma no_mail_in_console (d : list event) (m : Mail) :
  forallb is_console d = true -> ~ In (SendMail m) d.
Proof.
  intros H Hin. rewrite forallb_forall in H. apply H in Hin. discriminate.
Qed.

(** The mails of a run are those of its loop. *)
Lemma checkAllLocations_mails (E : Env) (cfg : Config) (w w' : World)
  (o : outcome unit) (loaded : JsSet) :
  checkAllLocations E cfg w = (o, w') ->
  fst (loadNotifiedAppointments (add_events w (banner cfg))) = Ret loaded ->
  exists d,
    trace w' = trace w ++ d
    /\ forall m, In (SendMail m) d ->
         credentials_set cfg = true
         /\ mail_from m = user (smtp cfg) /\ mail_to m = emailTo cfg
         /\ set_has loaded (JStr (mail_key m)) = false.
Proof.
  intros H Hload.
  destruct (checkAllLocations_shape E cfg w w' o H)
    as [[_ [_ ->]] | [_ [loaded' [d0 [lo [w2 [post
         [Hl [[Hc0 _] [Hfor [Ht [_ [_ Hpost]]]]]]]]]]]]].
  { eexists. split; [reflexivity|].
    intros m Hin. exfalso. apply in_app_or in Hin as [Hin|Hin].
    - exact (no_mail_in_console _ m (banner_console cfg) Hin).
    - cbn [In] in Hin.
      repeat (destruct Hin as [Hin|Hin]; [discriminate|]). exact Hin. }
  rewrite Hl in Hload. cbn [fst] in Hload. injection Hload as ->.
  pose proof (ledger_for_locations E cfg (locations cfg) (loaded, 0)
                (add_events w (banner cfg ++ d0))) as L.
  rewrite Hfor in L. cbn [fst snd] in L.
  destruct L as [d1 [Ht1 [_ [_ [Hmail _]]]]].
  exists ((banner cfg ++ d0) ++ d1 ++ post).
  split.
  { rewrite Ht, Ht1. unfold add_events; simpl trace.
    rewrite <- !app_assoc. reflexivity. }
  intros m Hin.
  apply in_app_or in Hin as [Hin|Hin].
  { exfalso. apply in_app_or in Hin as [Hin|Hin].
    - exact (no_mail_in_console _ m (banner_console cfg) Hin).
    - exact (no_mail_in_console _ m Hc0 Hin). }
  apply in_app_or in Hin as [Hin|Hin]; [apply Hmail; exact Hin|].
  exfalso. destruct lo as [v|e|code].
  - destruct Hpost as [_ [err [-> [Herr _]]]].
    destruct Hin as [Hin|Hin]; [discriminate|].
    apply in_app_or in Hin as [Hin|Hin].
    + exact (no_mail_in_console _ m Herr Hin).
    + exact (no_mail_in_console _ m (summary_console cfg v) Hin).
  - destruct Hpost as [_ [-> _]]. exact Hin.
  - destruct Hpost as [_ [-> _]]. exact Hin.
Qed.

(** X4.  A key in the store is never notified again: every mail a run
    hands to the relay is about a key that the set loaded at the start
    of the run did not hold, whatever the outcome of the run. *)
Theorem mails_are_about_new_keys
  (E : Env) (cfg : Config) (w w' : World) (o : outcome unit)
  (loaded : JsSet) :
  checkAllLocations E cfg w = (o, w') ->
  fst (loadNotifiedAppointments (add_events w (banner cfg))) = Ret loaded ->
  exists d,
    trace w' = trace w ++ d
    /\ forall m, In (SendMail m) d ->
         set_has loaded (JStr (mail_key m)) = false.
Proof.
  intros H Hload.
  destruct (checkAllLocations_mails E cfg w w' o loaded H Hload)
    as [d [Ht Hmail]].
  exists d. split; [exact Ht|]. intros m Hin. apply (Hmail m Hin).
Qed.

Lemma mails_are_about_new_keys_witness :
  exists d,
    trace (snd (checkAllLocations env_ok cfg_ok
                  (initial_world (Content store_with_march)))) = [] ++ d
    /\ forall m, In (SendMail m) d ->
         set_has [JStr (appointmentKey jfk slot_march)] (JStr (mail_key m))
         = false.
Proof.
  apply (mails_are_about_new_keys env_ok cfg_ok
           (initial_world (Content store_with_march))
           (snd (checkAllLocations env_ok cfg_ok
                   (initial_world (Content store_with_march))))
           (fst (checkAllLocations env_ok cfg_ok
                   (initial_world (Content store_with_march))))
           [JStr (appointmentKey jfk slot_march)]).
  - apply surjective_pairing.
  - vm_compute. reflexivity.
Defined.

Lemma run_trace (E : Env) (w : World) :
  exists cfg d0 o w' tail,
    CONFIG E w = (Ret cfg, add_events w d0)
    /\ (forallb is_console d0 = true /\ ~ announced d0)
    /\ checkAllLocations E cfg (add_events w d0) = (o, w')
    /\ trace (snd (run E w)) = trace w' ++ tail
    /\ forallb is_console tail = true
    /\ file (snd (run E w)) = file w'
    /\ mails (snd (run E w)) = mails w'
    /\ requests (snd (run E w)) = requests w'
    /\ fst (run E w) = match o with
                       | Ret _ => 0%Z
                       | Throw _ => 1%Z
                       | Exit code => code
                       end.
Proof.
  destruct (CONFIG_returns E w) as [cfg [d0 [Hcfg [Hc0 [Ha0 _]]]]].
  rewrite (run_cases E w cfg _ Hcfg).
  exists cfg, d0.
  destruct (checkAllLocations E cfg (add_events w d0)) as [[u|e|code] w'].
  - exists (Ret u), w', []. rewrite app_nil_r. repeat split; auto.
  - exists (Throw e), w', [ConsoleError (MsgFatal e)]. repeat split; auto.
  - exists (Exit code), w', []. rewrite app_nil_r. repeat split; auto.
Qed.

Lemma CONFIG_emailTo (E : Env) (w : World) (cfg : Config) (w1 : World) :
  CONFIG E w = (Ret cfg, w1) ->
  emailTo cfg = js_or (EMAIL_TO E) (SMTP_USER E)
  /\ user (smtp cfg) = SMTP_USER E /\ pass (smtp cfg) = SMTP_PASS E.
Proof.
  unfold CONFIG, bind.
  destruct (parseLocations_returns (env_or (LOCATIONS E) []) w)
    as [recs [d [Hp _]]].
  rewrite Hp. intros H; injection H as <- _. repeat split.
Qed.

(** X5.  Every mail the process hands to the relay is sent from the
    configured user to [EMAIL_TO], or to the user when [EMAIL_TO] is
    unset or empty; neither the sender nor the recipient is ever
    missing. *)
Theorem mail_from_user_to_recipient (E : Env) (f : file_state) (m : Mail) :
  In (SendMail m) (trace (snd (run E (initial_world f)))) ->
  mail_from m = SMTP_USER E
  /\ mail_to m = js_or (EMAIL_TO E) (SMTP_USER E)
  /\ truthy (mail_from m) = true /\ truthy (mail_to m) = true.
Proof.
  intros Hin.
  destruct (run_trace E (initial_world f))
    as [cfg [d0 [o [w' [tail [Hcfg [[Hc0 _] [Hrun [Ht [Htail _]]]]]]]]]].
  destruct (CONFIG_emailTo E _ cfg _ Hcfg) as [Hto [Hu Hp]].
  destruct (load_returns (add_events (add_events (initial_world f) d0)
                            (banner cfg)))
    as [loaded [dl [Hload _]]].
  destruct (checkAllLocations_mails E cfg _ w' o loaded Hrun)
    as [d [Htd Hmail]]; [rewrite Hload; reflexivity|].
  rewrite Ht, Htd in Hin. cbn [trace add_events initial_world app] in Hin.
  apply in_app_or in Hin as [Hin|Hin];
    [|exfalso; exact (no_mail_in_console _ m Htail Hin)].
  apply in_app_or in Hin as [Hin|Hin];
    [exfalso; exact (no_mail_in_console _ m Hc0 Hin)|].
  destruct (Hmail m Hin) as [Hc [Hfrom [Hmto _]]].
  unfold credentials_set in Hc. apply andb_true_iff in Hc as [Hcu _].
  rewrite Hfrom, Hmto, Hto, Hu. rewrite Hu in Hcu.
  repeat split; try assumption.
  unfold js_or. destruct (truthy (EMAIL_TO E)) eqn:He; assumption.
Qed.

Lemma mail_from_user_to_recipient_witness :
  mail_from (mail_of cfg_ok (notice_of jfk slot_march)) = SMTP_USER env_ok
  /\ truthy (mail_to (mail_of cfg_ok (notice_of jfk slot_march))) = true.
Proof.
  destruct (mail_from_user_to_recipient env_ok Absent
              (mail_of cfg_ok (notice_of jfk slot_march)))
    as [H1 [_ [_ H4]]].
  - vm_compute. repeat (try (left; reflexivity); right).
  - split; assumption.
Defined.

Lemma no_http_console (d : list event) :
  forallb is_console d = true -> filter is_http d = [].
Proof.
  induction d as [|e d IH]; simpl; [reflexivity|].
  intros H. apply andb_true_iff in H as [He Hd].
  destruct e; try discriminate; simpl; auto.
Qed.

Lemma slot_body_http (E : Env) (cfg : Config) (location : LocationTarget)
  (slot : Slot) (v : Vars) (w : World) :
  exists d,
    trace (snd (slot_body E cfg location slot v w)) = trace w ++ d
    /\ filter is_http d = []
    /\ requests (snd (slot_body E cfg location slot v w)) = requests w.
Proof.
  destruct v as [notified n]. rewrite slot_body_cases.
  destruct (qualifies location slot notified); cbv zeta;
    [destruct (credentials_set cfg); [destruct (smtp_send E _ _)|]|];
    eexists;
    (split; [unfold add_events, after_mail; simpl trace;
             rewrite <- ?app_assoc; reflexivity|]);
    split; reflexivity.
Qed.

Lemma slot_turn_http (E : Env) (cfg : Config) (location : LocationTarget)
  (x : json) (v : Vars) (w : World) :
  exists d,
    trace (snd (slot_turn E cfg location x v w)) = trace w ++ d
    /\ filter is_http d = []
    /\ requests (snd (slot_turn E cfg location x v w)) = requests w.
Proof.
  unfold slot_turn. destruct (as_slot x) as [slot|].
  - apply slot_body_http.
  - exists []. rewrite app_nil_r. repeat split.
Qed.

Lemma for_slots_http (E : Env) (cfg : Config) (location : LocationTarget)
  (slots : list json) :
  forall v w,
    exists d,
      trace (snd (for_slots E cfg location slots v w)) = trace w ++ d
      /\ filter is_http d = []
      /\ requests (snd (for_slots E cfg location slots v w)) = requests w.
Proof.
  induction slots as [|slot rest IH]; intros v w.
  - exists []. rewrite app_nil_r. repeat split.
  - cbn [for_slots]. unfold bind.
    destruct (slot_turn_http E cfg location slot v w) as [d1 [Ht1 [Hf1 Hr1]]].
    destruct (slot_turn E cfg location slot v w) as [[v1|e|code] w1];
      cbn [snd] in Ht1, Hr1 |- *.
    + destruct (IH v1 w1) as [d2 [Ht2 [Hf2 Hr2]]].
      exists (d1 ++ d2). rewrite Ht2, Ht1, app_assoc, filter_app, Hf1, Hf2.
      repeat split. congruence.
    + exists d1. repeat split; assumption.
    + exists d1. repeat split; assumption.
Qed.

Lemma for_of_slots_http (E : Env) (cfg : Config)
  (location : LocationTarget) (slots : json) (v : Vars) (w : World) :
  exists d,
    trace (snd (for_of_slots E cfg location slots v w)) = trace w ++ d
    /\ filter is_http d = []
    /\ requests (snd (for_of_slots E cfg location slots v w)) = requests w.
Proof.
  unfold for_of_slots. destruct (iterate slots) as [items|].
  - apply for_slots_http.
  - exists []. rewrite app_nil_r. repeat split.
Qed.

Lemma location_body_http (E : Env) (cfg : Config)
  (location : LocationTarget) (v : Vars) (w : World) :
  exists d,
    trace (snd (location_body E cfg location v w)) = trace w ++ d
    /\ filter is_http d = [HttpGet (id location)]
    /\ requests (snd (location_body E cfg location v w)) = S (requests w).
Proof.
  rewrite location_body_cases. cbv zeta.
  destruct (http_get E (requests w) (id location)) as [e|data].
  - eexists. split; [unfold add_events, after_request; simpl trace;
                     rewrite <- ?app_assoc; reflexivity|].
    split; reflexivity.
  - destruct (length_is_zero (or_empty_array data)).
    + eexists. split; [unfold add_events, after_request; simpl trace;
                       rewrite <- ?app_assoc; reflexivity|].
      split; reflexivity.
    + match goal with
      | |- context [for_of_slots E cfg location ?s v ?w0] =>
          destruct (for_of_slots_http E cfg location s v w0)
            as [d [Ht [Hf Hr]]];
          destruct (for_of_slots E cfg location s v w0) as [[v1|e|code] w2]
      end; cbn [snd] in Ht, Hr |- *;
        unfold add_events, after_request in Ht, Hr; simpl trace in Ht;
        simpl requests in Hr.
      * exists ([ConsoleLog (MsgChecking location);
                 ConsoleLog (MsgTargetDate (targetDate location));
                 HttpGet (id location);
                 ConsoleLog (MsgFound (get_length (or_empty_array data)))]
                ++ d ++ [ConsoleLog MsgBlank; Delay 2000]).
        split; [unfold add_events; simpl trace; rewrite Ht, <- !app_assoc;
                reflexivity|].
        split; [|exact Hr].
        rewrite !filter_app, Hf. reflexivity.
      * exists ([ConsoleLog (MsgChecking location);
                 ConsoleLog (MsgTargetDate (targetDate location));
                 HttpGet (id location);
                 ConsoleLog (MsgFound (get_length (or_empty_array data)))] ++ d).
        split; [rewrite Ht, <- !app_assoc; reflexivity|].
        split; [|exact Hr].
        rewrite !filter_app, Hf. reflexivity.
      * exists ([ConsoleLog (MsgChecking location);
                 ConsoleLog (MsgTargetDate (targetDate location));
                 HttpGet (id location);
                 ConsoleLog (MsgFound (get_length (or_empty_array data)))] ++ d).
        split; [rewrite Ht, <- !app_assoc; reflexivity|].
        split; [|exact Hr].
        rewrite !filter_app, Hf. reflexivity.
Qed.

Lemma for_locations_http (E : Env) (cfg : Config)
  (locs : list LocationTarget) :
  forall v w,
    exists d k,
      trace (snd (for_locations E cfg locs v w)) = trace w ++ d
      /\ filter is_http d
         = List.map (fun l => HttpGet (id l)) (firstn k locs)
      /\ requests (snd (for_locations E cfg locs v w)) = requests w + k
      /\ k <= length locs
      /\ (forall v', fst (for_locations E cfg locs v w) = Ret v' ->
                     k = length locs).
Proof.
  induction locs as [|location rest IH]; intros v w.
  - exists [], 0. rewrite app_nil_r. cbn. repeat split; auto.
  - cbn [for_locations]. unfold bind.
    destruct (location_body_http E cfg location v w) as [d1 [Ht1 [Hf1 Hr1]]].
    destruct (location_body E cfg location v w) as [[v1|e|code] w1];
      cbn [fst snd] in Ht1, Hr1 |- *.
    + destruct (IH v1 w1) as [d2 [k [Ht2 [Hf2 [Hr2 [Hk Hall]]]]]].
      exists (d1 ++ d2), (S k).
      rewrite Ht2, Ht1, app_assoc, filter_app, Hf1, Hf2.
      split; [reflexivity|]. split; [reflexivity|].
      split; [rewrite Hr2, Hr1; lia|].
      split; [cbn [length]; lia|].
      intros v' Hv. cbn [length]. f_equal. apply (Hall v' Hv).
    + exists d1, 1. split; [assumption|]. split; [assumption|].
      split; [lia|]. split; [cbn [length]; lia|]. discriminate.
    + exists d1, 1. split; [assumption|]. split; [assumption|].
      split; [lia|]. split; [cbn [length]; lia|]. discriminate.
Qed.

(** X6.  A run asks the endpoint once per configured location, in the
    order of the configuration, with the identifier of the location: the
    requests of a run that ends normally are exactly the identifiers of
    all the locations in order, and those of a run cut short are the
    identifiers of the first k. *)
Theorem one_request_per_location_in_order
  (E : Env) (cfg : Config) (w w' : World) (o : outcome unit) :
  checkAllLocations E cfg w = (o, w') ->
  exists d k,
    trace w' = trace w ++ d
    /\ filter is_http d
       = List.map (fun l => HttpGet (id l)) (firstn k (locations cfg))
    /\ requests w' = requests w + k
    /\ k <= length (locations cfg)
    /\ (o = Ret tt -> k = length (locations cfg)).
Proof.
  intros H.
  destruct (checkAllLocations_shape E cfg w w' o H)
    as [[Hl [-> ->]] | [_ [loaded [d0 [lo [w2 [post
         [_ [[Hc0 _] [Hfor [Ht [_ [Hr Hpost]]]]]]]]]]]]].
  { eexists; exists 0. split; [reflexivity|].
    split; [rewrite filter_app,
              (no_http_console _ (banner_console cfg)); reflexivity|].
    split; [cbn; lia|]. split; [lia|]. discriminate. }
  destruct (for_locations_http E cfg (locations cfg) (loaded, 0)
              (add_events w (banner cfg ++ d0)))
    as [d1 [k [Ht1 [Hf1 [Hr1 [Hk Hall]]]]]].
  rewrite Hfor in Ht1, Hr1, Hall. cbn [fst snd] in Ht1, Hr1, Hall.
  exists ((banner cfg ++ d0) ++ d1 ++ post), k.
  split.
  { rewrite Ht, Ht1. unfold add_events; simpl trace.
    rewrite <- !app_assoc. reflexivity. }
  assert (Hp : filter is_http post = []).
  { destruct lo as [v|e|code].
    - destruct Hpost as [_ [err [-> [Herr _]]]]. cbn [filter is_http].
      rewrite filter_app, (no_http_console _ Herr),
        (no_http_console _ (summary_console cfg v)). reflexivity.
    - destruct Hpost as [_ [-> _]]. reflexivity.
    - destruct Hpost as [_ [-> _]]. reflexivity. }
  split.
  { rewrite !filter_app, Hf1, Hp,
      (no_http_console _ (banner_console cfg)), (no_http_console _ Hc0),
      !app_nil_r. reflexivity. }
  split; [rewrite Hr, Hr1; reflexivity|].
  split; [exact Hk|].
  intros ->. destruct lo as [v|e|code].
  - apply (Hall v eq_refl).
  - destruct Hpost as [Hp' _]; discriminate.
  - destruct Hpost as [Hp' _]; discriminate.
Qed.

Lemma one_request_per_location_in_order_witness :
  exists d k,
    trace (snd (checkAllLocations env_ok cfg_ok (initial_world Absent)))
    = [] ++ d
    /\ filter is_http d
       = List.map (fun l => HttpGet (id l)) (firstn k (locations cfg_ok)).
Proof.
  destruct (one_request_per_location_in_order env_ok cfg_ok
              (initial_world Absent)
              (snd (checkAllLocations env_ok cfg_ok (initial_world Absent)))
              (fst (checkAllLocations env_ok cfg_ok (initial_world Absent))))
    as [d [k [H1 [H2 _]]]].
  - apply surjective_pairing.
  - exists d, k. split; assumption.
Defined.

Lemma CONFIG_locations (E : Env) (w : World) (cfg : Config) (w1 : World) :
  CONFIG E w = (Ret cfg, w1) ->
  locations cfg
  = List.map record_of
      (filter well_formed (split comma (env_or (LOCATIONS E) []))).
Proof.
  unfold CONFIG, bind.
  destruct (env_or (LOCATIONS E) []) as [|c r] eqn:Hs.
  - rewrite parseLocations_empty. intros H; injection H as <- _. reflexivity.
  - rewrite parseLocations_nonempty by discriminate.
    intros H; injection H as <- _. reflexivity.
Qed.

Lemma banner_not_announced (cfg : Config) : ~ announced (banner cfg).
Proof.
  intros H. cbn [banner] in H. unfold announced in H. cbn [In] in H.
  repeat (destruct H as [H|H]; [discriminate|]). exact H.
Qed.

Lemma summary_not_announced (cfg : Config) (v : Vars) :
  ~ announced (summary cfg v).
Proof.
  intros H. cbn [summary] in H. unfold announced in H. cbn [In] in H.
  repeat (destruct H as [H|H]; [discriminate|]). exact H.
Qed.

Lemma no_write_console (d : list event) :
  forallb is_console d = true -> filter is_write d = [].
Proof. intros H. apply no_write_filter, console_not_write, H. Qed.

(** X7.  With no well-formed entry in [LOCATIONS] (unset, empty, or
    malformed throughout) the process stops before it does anything:
    status 1, no request, no mail, no write, the file as it was, and
    the complaint about the missing locations as its last output. *)
Theorem no_location_is_fatal (E : Env) (f : file_state) :
  filter well_formed (split comma (env_or (LOCATIONS E) [])) = [] ->
  fst (run E (initial_world f)) = 1%Z
  /\ file (snd (run E (initial_world f))) = f
  /\ requests (snd (run E (initial_world f))) = 0
  /\ mails (snd (run E (initial_world f))) = 0
  /\ filter is_write (trace (snd (run E (initial_world f)))) = []
  /\ exists pre,
       trace (snd (run E (initial_world f)))
       = pre ++ [ConsoleError MsgNoLocations; ConsoleLog MsgSetLocationsHint].
Proof.
  intros Hnone.
  destruct (CONFIG_returns E (initial_world f))
    as [cfg [d0 [Hcfg [Hc0 _]]]].
  pose proof (CONFIG_locations E _ cfg _ Hcfg) as Hlocs.
  rewrite Hnone in Hlocs. cbn [List.map] in Hlocs.
  rewrite (run_cases E _ cfg _ Hcfg), checkAllLocations_cases. cbv zeta.
  rewrite Hlocs. cbn [length Nat.eqb fst snd].
  split; [reflexivity|]. split; [reflexivity|]. split; [reflexivity|].
  split; [reflexivity|].
  unfold add_events; simpl trace. split.
  - rewrite !filter_app, (no_write_console _ Hc0),
      (no_write_console _ (banner_console cfg)). reflexivity.
  - eexists. reflexivity.
Qed.

Lemma no_location_is_fatal_witness :
  fst (run env_two_fields (initial_world Absent)) = 1%Z
  /\ requests (snd (run env_two_fields (initial_world Absent))) = 0.
Proof.
  destruct (no_location_is_fatal env_two_fields Absent) as [H1 [_ [H3 _]]].
  - reflexivity.
  - split; assumption.
Defined.

Lemma trace_add_events (w : World) (d : list event) :
  trace (add_events w d) = trace w ++ d.
Proof. reflexivity. Qed.

Lemma file_add_events (w : World) (d : list event) :
  file (add_events w d) = file w.
Proof. reflexivity. Qed.

Lemma map_record_of_nil (l : list jsstring) :
  List.map record_of l = [] <-> l = [].
Proof. destruct l; split; intros H; try reflexivity; discriminate. Qed.

Lemma died_of_last (e : error) (a : list event) (x : event) :
  died_of e (a ++ [x]) -> x = ConsoleError (MsgFatal e).
Proof. unfold died_of. rewrite last_last. auto. Qed.

Lemma summary_not_fatal (cfg : Config) (v : Vars) (a : list event)
  (e : error) :
  ~ died_of e (a ++ summary cfg v).
Proof.
  unfold summary.
  change [ConsoleLog MsgRule; ConsoleLog MsgSummary; ConsoleLog MsgRule;
          ConsoleLog (MsgTotalLocations (length (locations cfg)));
          ConsoleLog (MsgNewNotifications (snd v));
          ConsoleLog (MsgTotalTracked (set_size (fst v)));
          ConsoleLog MsgCompleted; ConsoleLog MsgRule]
    with ([ConsoleLog MsgRule; ConsoleLog MsgSummary; ConsoleLog MsgRule;
           ConsoleLog (MsgTotalLocations (length (locations cfg)));
           ConsoleLog (MsgNewNotifications (snd v));
           ConsoleLog (MsgTotalTracked (set_size (fst v)));
           ConsoleLog MsgCompleted] ++ [ConsoleLog MsgRule]).
  rewrite app_assoc. intros H. apply died_of_last in H. discriminate.
Qed.

(** X8.  The exit status of the process is 0 or 1.  It is 0 exactly
    when the store was written, once; it is 1 exactly when nothing was
    written, and then the file is as it was.  It is 1 exactly in three
    cases: [LOCATIONS] has no well-formed entry, the process ended with
    the credentials error logged as fatal, or it ended with a
    [TypeError] logged as fatal.  It ends with the credentials error
    exactly when the user or the password is missing and a slot was
    announced.  It does not end with a [TypeError] when every response
    of the endpoint is a list of slots; the status is then 1 exactly
    when there is no well-formed entry, or the user or the password is
    missing and a slot was announced. *)
Theorem exit_status_characterised (E : Env) (f : file_state) :
  let r := run E (initial_world f) in
  let no_location :=
    filter well_formed (split comma (env_or (LOCATIONS E) [])) = [] in
  let unannounceable :=
    truthy (SMTP_USER E) && truthy (SMTP_PASS E) = false
    /\ announced (trace (snd r)) in
  (fst r = 0%Z \/ fst r = 1%Z)
  /\ (fst r = 0%Z <-> length (filter is_write (trace (snd r))) = 1)
  /\ (fst r = 1%Z <-> filter is_write (trace (snd r)) = [])
  /\ (fst r = 1%Z -> file (snd r) = f)
  /\ (fst r = 1%Z <->
      no_location
      \/ died_of CredentialsNotConfigured (trace (snd r))
      \/ died_of TypeError (trace (snd r)))
  /\ (died_of CredentialsNotConfigured (trace (snd r)) <-> unannounceable)
  /\ (answers_slot_lists E -> ~ died_of TypeError (trace (snd r)))
  /\ (answers_slot_lists E ->
      (fst r = 1%Z <-> no_location \/ unannounceable)).
Proof.
  cbv zeta.
  destruct (CONFIG_returns E (initial_world f))
    as [cfg [d0 [Hcfg [Hc0 [Ha0 _]]]]].
  pose proof (CONFIG_locations E _ cfg _ Hcfg) as Hlocs.
  destruct (CONFIG_emailTo E _ cfg _ Hcfg) as [_ [Hu Hp]].
  assert (Hcred : credentials_set cfg
                  = truthy (SMTP_USER E) && truthy (SMTP_PASS E))
    by (unfold credentials_set; rewrite Hu, Hp; reflexivity).
  rewrite (run_cases E _ cfg _ Hcfg).
  destruct (checkAllLocations E cfg (add_events (initial_world f) d0))
    as [o w'] eqn:Hrun.
  destruct (checkAllLocations_shape E cfg _ w' o Hrun)
    as [[Hl [-> ->]] | [Hne [loaded [dl [lo [w2 [post
         [_ [[Hcl Hal] [Hfor [Ht [_ [_ Hpost]]]]]]]]]]]]].
  - (* no location *)
    cbn [fst snd]. rewrite !trace_add_events, !file_add_events.
    change (trace (initial_world f)) with (@nil event).
    change (file (initial_world f)) with f.
    assert (Hw : filter is_write
                   (([] ++ d0)
                    ++ banner cfg ++ [ConsoleError MsgNoLocations;
                                      ConsoleLog MsgSetLocationsHint]) = []).
    { rewrite !filter_app, (no_write_console _ Hc0),
        (no_write_console _ (banner_console cfg)). reflexivity. }
    rewrite Hw.
    assert (Hnil : filter well_formed
                     (split comma (env_or (LOCATIONS E) [])) = []).
    { rewrite Hl in Hlocs. symmetry in Hlocs.
      apply map_record_of_nil in Hlocs. exact Hlocs. }
    assert (Hnot : forall e,
               ~ died_of e
                   (([] ++ d0)
                    ++ banner cfg ++ [ConsoleError MsgNoLocations;
                                      ConsoleLog MsgSetLocationsHint])).
    { intros e H.
      change [ConsoleError MsgNoLocations; ConsoleLog MsgSetLocationsHint]
        with ([ConsoleError MsgNoLocations] ++ [ConsoleLog MsgSetLocationsHint])
        in H.
      rewrite !app_assoc in H. apply died_of_last in H. discriminate. }
    assert (Hann : ~ announced
                     (([] ++ d0)
                      ++ banner cfg ++ [ConsoleError MsgNoLocations;
                                        ConsoleLog MsgSetLocationsHint])).
    { unfold announced. rewrite !in_app_iff. cbn [In].
      intros [[[]|H]|[H|[H|[H|[]]]]]; try discriminate.
      - exact (Ha0 H).
      - exact (banner_not_announced cfg H). }
    split; [right; reflexivity|].
    split; [split; discriminate|].
    split; [split; reflexivity|].
    split; [reflexivity|].
    split; [split; [intros _; left; exact Hnil | reflexivity]|].
    split.
    { split; [intros H; exfalso; exact (Hnot _ H)|].
      intros [_ H]. exfalso. exact (Hann H). }
    split; [intros _; apply Hnot|].
    intros _. split; [intros _; left; exact Hnil | reflexivity].
  - pose proof (loop_step_for_locations E cfg (locations cfg) (loaded, 0)
                  (add_events (add_events (initial_world f) d0)
                     (banner cfg ++ dl))) as Hloop.
    pose proof (for_locations_no_type_error E cfg (locations cfg)) as Hshape.
    rewrite Hfor in Hloop. cbn [fst snd] in Hloop.
    destruct Hloop as [Hfile [d1 [Ht1 [Hw1 Hlo]]]].
    rewrite !trace_add_events in Ht1. rewrite !file_add_events in Hfile.
    change (trace (initial_world f)) with (@nil event) in Ht1.
    change (file (initial_world f)) with f in Hfile.
    assert (Hsome : filter well_formed
                      (split comma (env_or (LOCATIONS E) [])) <> []).
    { intros Hnil. apply Hne. rewrite Hlocs, Hnil. reflexivity. }
    assert (Hpre : filter is_write (trace w2) = []).
    { rewrite Ht1, !filter_app, (no_write_console _ Hc0),
        (no_write_console _ (banner_console cfg)), (no_write_console _ Hcl),
        (no_write_filter _ Hw1). reflexivity. }
    assert (Hquiet : (credentials_set cfg = false -> ~ announced d1) ->
                     credentials_set cfg = false -> ~ announced (trace w2)).
    { intros Hnot Hmiss. rewrite Ht1.
      pose proof (banner_not_announced cfg) as Hb.
      pose proof (Hnot Hmiss) as Hd1.
      unfold announced in Ha0, Hal, Hb, Hd1 |- *.
      rewrite !in_app_iff. cbn [In]. tauto. }
    destruct lo as [v|e|code].
    + (* the loop ended normally *)
      destruct Hpost as [-> [err [-> [Herr Haerr]]]].
      destruct Hlo as [_ [_ Hnot]].
      assert (Hunann : ~ (truthy (SMTP_USER E) && truthy (SMTP_PASS E) = false
                          /\ announced (trace w'))).
      { intros [Hmiss Hann]. rewrite <- Hcred in Hmiss.
        rewrite Ht in Hann. unfold announced in Hann.
        rewrite in_app_iff in Hann. cbn [In] in Hann.
        rewrite in_app_iff in Hann.
        destruct Hann as [Hann|[Hann|[Hann|Hann]]]; try discriminate.
        - exact (Hquiet Hnot Hmiss Hann).
        - exact (Haerr Hann).
        - exact (summary_not_announced cfg v Hann). }
      assert (Hlive : forall e, ~ died_of e (trace w')).
      { intros e. rewrite Ht.
        change (WriteFile (JSON_stringify (JArr (fst v)))
                :: err ++ summary cfg v)
          with ([WriteFile (JSON_stringify (JArr (fst v)))]
                ++ err ++ summary cfg v).
        rewrite !app_assoc. apply summary_not_fatal. }
      cbn [fst snd]. rewrite Ht, filter_app, Hpre.
      cbn [filter is_write app]. rewrite filter_app,
        (no_write_console _ Herr), (no_write_console _ (summary_console cfg v)).
      cbn [length app]. rewrite <- Ht.
      split; [left; reflexivity|].
      split; [split; reflexivity|].
      split; [split; discriminate|].
      split; [discriminate|].
      split.
      { split; [discriminate|].
        intros [Hnil | [H | H]]; [contradiction | |]; exfalso;
          exact (Hlive _ H). }
      split.
      { split; [intros H; exfalso; exact (Hlive _ H)|].
        intros H. exfalso. exact (Hunann H). }
      split; [intros _; apply Hlive|].
      intros _. split; [discriminate|].
      intros [Hnil | H]; [contradiction | exfalso; exact (Hunann H)].
    + (* an error left the loop *)
      destruct Hpost as [-> [-> ->]].
      cbn [fst snd]. rewrite trace_add_events, file_add_events.
      rewrite filter_app, Hpre. cbn [filter is_write app].
      assert (Hdied : died_of e (trace w2 ++ [ConsoleError (MsgFatal e)]))
        by (unfold died_of; rewrite last_last; reflexivity).
      split; [right; reflexivity|].
      split; [split; discriminate|].
      split; [split; reflexivity|].
      split; [intros _; exact Hfile|].
      destruct Hlo as [[-> [Hmiss Hann]] | [-> Hnot]].
      * (* the credentials error *)
        assert (Hun : truthy (SMTP_USER E) && truthy (SMTP_PASS E) = false
                      /\ announced
                           (trace w2
                            ++ [ConsoleError
                                  (MsgFatal CredentialsNotConfigured)])).
        { split; [rewrite <- Hcred; exact Hmiss|].
          unfold announced. rewrite Ht1, !in_app_iff. tauto. }
        split; [split; [intros _; right; left; exact Hdied | reflexivity]|].
        split; [split; [intros _; exact Hun | intros _; exact Hdied]|].
        split.
        { intros _ H. apply died_of_last in H. discriminate. }
        intros _. split; [intros _; right; exact Hun | reflexivity].
      * (* a TypeError *)
        assert (Hun : ~ (truthy (SMTP_USER E) && truthy (SMTP_PASS E) = false
                         /\ announced
                              (trace w2
                               ++ [ConsoleError (MsgFatal TypeError)]))).
        { intros [Hmiss Hann]. rewrite <- Hcred in Hmiss.
          unfold announced in Hann. rewrite in_app_iff in Hann.
          destruct Hann as [Hann|[Hann|[]]]; [|discriminate].
          exact (Hquiet Hnot Hmiss Hann). }
        assert (Hodd : ~ answers_slot_lists E).
        { intros Hs. specialize (Hshape Hs (loaded, 0)
                                   (add_events
                                      (add_events (initial_world f) d0)
                                      (banner cfg ++ dl))).
          rewrite Hfor in Hshape. apply Hshape. reflexivity. }
        split; [split; [intros _; right; right; exact Hdied | reflexivity]|].
        split.
        { split; [intros H; apply died_of_last in H; discriminate|].
          intros H. exfalso. exact (Hun H). }
        split; [intros Hs; contradiction|].
        intros Hs. contradiction.
    + destruct Hlo.
Qed.

Lemma exit_status_characterised_witness :
  length (filter is_write (trace (snd (run env_ok (initial_world Absent))))) = 1
  /\ file (snd (run env_two_fields (initial_world Absent))) = Absent
  /\ ~ died_of TypeError (trace (snd (run env_ok (initial_world Absent))))
  /\ fst (run env_odd_body (initial_world Absent)) = 1%Z.
Proof.
  pose proof (exit_status_characterised env_ok Absent) as Hok.
  pose proof (exit_status_characterised env_two_fields Absent) as Htwo.
  pose proof (exit_status_characterised env_odd_body Absent) as Hodd.
  cbv zeta in Hok, Htwo, Hodd.
  destruct Hok as [_ [[Hwritten _] [_ [_ [_ [_ [Hshaped _]]]]]]].
  destruct Htwo as [_ [_ [_ [Hfile _]]]].
  destruct Hodd as [_ [_ [_ [_ [[_ Hfatal] _]]]]].
  split; [|split; [|split]].
  - apply Hwritten. reflexivity.
  - apply Hfile. reflexivity.
  - apply Hshaped. intros n i body H. injection H as <-. reflexivity.
  - apply Hfatal. right. right. vm_compute. reflexivity.
Defined.

Lemma for_locations_fs_write (E : Env) (g : jsstring -> write_result)
  (cfg : Config) (locs : list LocationTarget) (v : Vars) (w : World) :
  for_locations (with_fs_write E g) cfg locs v w = for_locations E cfg locs v w.
Proof. reflexivity. Qed.

Lemma CONFIG_fs_write (E : Env) (g : jsstring -> write_result) (w : World) :
  CONFIG (with_fs_write E g) w = CONFIG E w.
Proof. reflexivity. Qed.

(** X9.  Saving never raises: a write that fails is logged and
    swallowed, and the file then is whatever the failure left.  The
    outcome of the write has no influence on the exit status, nor on
    the requests made, the mails sent and the text written. *)
Theorem write_failure_is_swallowed
  (E : Env) (g : jsstring -> write_result) (f : file_state) :
  (forall notified w, fst (saveNotifiedAppointments E notified w) = Ret tt)
  /\ (forall notified w e remains,
         fs_write E (JSON_stringify (JArr notified)) = WriteFails e remains ->
         saveNotifiedAppointments E notified w
         = (Ret tt,
            add_events
              (after_write w (JSON_stringify (JArr notified)) remains)
              [ConsoleError (MsgErrorSaving e)]))
  /\ fst (run (with_fs_write E g) (initial_world f))
     = fst (run E (initial_world f))
  /\ filter is_http (trace (snd (run (with_fs_write E g) (initial_world f))))
     = filter is_http (trace (snd (run E (initial_world f))))
  /\ filter is_mail (trace (snd (run (with_fs_write E g) (initial_world f))))
     = filter is_mail (trace (snd (run E (initial_world f))))
  /\ filter is_write (trace (snd (run (with_fs_write E g) (initial_world f))))
     = filter is_write (trace (snd (run E (initial_world f)))).
Proof.
  split.
  { intros notified w. rewrite save_cases. cbv zeta.
    destruct (fs_write E _); reflexivity. }
  split.
  { intros notified w e remains H. rewrite save_cases. cbv zeta.
    rewrite H. reflexivity. }
  destruct (CONFIG_returns E (initial_world f)) as [cfg [d0 [Hcfg _]]].
  rewrite (run_cases (with_fs_write E g) _ cfg _
             (eq_trans (CONFIG_fs_write E g _) Hcfg)).
  rewrite (run_cases E _ cfg _ Hcfg).
  rewrite !checkAllLocations_cases. cbv zeta.
  destruct (Nat.eqb (length (locations cfg)) 0);
    [repeat split; reflexivity|].
  destruct (loadNotifiedAppointments
              (add_events (add_events (initial_world f) d0) (banner cfg)))
    as [[loaded|e|code] w1]; try (repeat split; reflexivity).
  rewrite for_locations_fs_write.
  destruct (for_locations E cfg (locations cfg) (loaded, 0) w1)
    as [[v|e|code] w2]; try (repeat split; reflexivity).
  rewrite !save_cases. cbv zeta.
  change (fs_write (with_fs_write E g)) with g.
  destruct (g (JSON_stringify (JArr (fst v))));
    destruct (fs_write E (JSON_stringify (JArr (fst v))));
    cbn [fst snd]; rewrite !trace_add_events;
    unfold after_write; simpl trace;
    rewrite ?filter_app; cbn [filter is_http is_mail is_write];
    rewrite ?app_nil_r; repeat split; reflexivity.
Qed.

Lemma write_failure_is_swallowed_witness :
  saveNotifiedAppointments env_disk_full [] (initial_world (Content (lit "[]")))
  = (Ret tt,
     add_events
       (after_write (initial_world (Content (lit "[]")))
          (JSON_stringify (JArr [])) Absent)
       [ConsoleError (MsgErrorSaving (IoError (lit "ENOSPC")))])
  /\ fst (run env_disk_full (initial_world Absent)) = 0%Z.
Proof.
  destruct (write_failure_is_swallowed env_ok
              (fun _ => WriteFails (IoError (lit "ENOSPC")) Absent) Absent)
    as [_ [_ [H3 _]]].
  split.
  - apply (write_failure_is_swallowed env_disk_full
             (fun _ => WriteOk) Absent). reflexivity.
  - exact H3.
Defined.

(* ================================================================== *)
(** ** Further properties of keys, entries and dates *)
(* ================================================================== *)

Lemma app_inv_same_length {A : Type} (a b x y : list A) :
  length a = length b -> a ++ x = b ++ y -> a = b /\ x = y.
Proof.
  revert b; induction a as [|c a IH]; intros [|d b] Hlen H;
    try discriminate.
  - split; [reflexivity | exact H].
  - simpl in Hlen, H. injection H as -> H. injection Hlen as Hlen.
    destruct (IH b Hlen H) as [-> ->]. split; reflexivity.
Qed.

(** X10.  Two slots of one location share a key only when their start
    timestamps are equal, and more generally the key tells identifier
    and timestamp apart whenever the two identifiers have the same
    length, whatever characters occur in them. *)
Theorem key_injective_for_ids_of_equal_length
  (l1 l2 : LocationTarget) (s1 s2 : Slot) :
  length (id l1) = length (id l2) ->
  appointmentKey l1 s1 = appointmentKey l2 s2 ->
  id l1 = id l2 /\ startTimestamp s1 = startTimestamp s2.
Proof.
  intros Hlen H. unfold appointmentKey in H.
  apply app_inv_same_length in H; [|exact Hlen].
  destruct H as [Hid Hts]. injection Hts as Hts. split; assumption.
Qed.

Lemma key_injective_for_ids_of_equal_length_witness :
  id jfk = id jfk /\ startTimestamp slot_march = startTimestamp slot_march.
Proof.
  apply (key_injective_for_ids_of_equal_length jfk jfk slot_march slot_march);
    reflexivity.
Defined.

Lemma split_join (sep : code_unit) (s : jsstring) :
  join_with sep (split sep s) = s.
Proof.
  induction s as [|c r IH]; [reflexivity|]. cbn [split].
  destruct (N.eqb_spec c sep) as [->|Hne].
  - destruct (split sep r) as [|h t] eqn:Hs.
    + simpl in IH. subst r. discriminate Hs.
    + change (join_with sep ([] :: h :: t))
        with ([] ++ sep :: join_with sep (h :: t)).
      rewrite IH. reflexivity.
  - destruct (split sep r) as [|h t] eqn:Hs.
    + simpl in IH. subst r. discriminate Hs.
    + destruct t as [|h' t'].
      * simpl in IH |- *. rewrite IH. reflexivity.
      * change (join_with sep ((c :: h) :: h' :: t'))
          with (c :: (h ++ sep :: join_with sep (h' :: t'))).
        change (join_with sep (h :: h' :: t'))
          with (h ++ sep :: join_with sep (h' :: t')) in IH.
        rewrite IH. reflexivity.
Qed.

Lemma split_parts_free (sep : code_unit) (s p : jsstring) :
  In p (split sep s) -> ~ In sep p.
Proof.
  revert p; induction s as [|c r IH]; intros p Hin.
  - destruct Hin as [<-|[]]. intros [].
  - cbn [split] in Hin. destruct (N.eqb_spec c sep) as [->|Hne].
    + destruct Hin as [<-|Hin]; [intros [] | apply IH; exact Hin].
    + destruct (split sep r) as [|h t].
      * destruct Hin as [<-|[]]. intros [H|[]]. contradiction.
      * destruct Hin as [<-|Hin].
        -- intros [H|H]; [contradiction|].
           apply (IH h); [left; reflexivity | exact H].
        -- apply IH. right; exact Hin.
Qed.

Lemma split_parts_sub (sep : code_unit) (s p : jsstring) (x : code_unit) :
  In p (split sep s) -> In x p -> In x s.
Proof.
  revert p; induction s as [|c r IH]; intros p Hin Hx.
  - destruct Hin as [<-|[]]. exact Hx.
  - cbn [split] in Hin. destruct (N.eqb c sep).
    + destruct Hin as [<-|Hin]; [destruct Hx | right; apply (IH p); assumption].
    + destruct (split sep r) as [|h t].
      * destruct Hin as [<-|[]]. destruct Hx as [<-|[]]. left; reflexivity.
      * destruct Hin as [<-|Hin].
        -- destruct Hx as [<-|Hx]; [left; reflexivity|].
           right. apply (IH h); [left; reflexivity | exact Hx].
        -- right. apply (IH p); [right; exact Hin | exact Hx].
Qed.

Lemma trim_start_sub (s : jsstring) (x : code_unit) :
  In x (trim_start s) -> In x s.
Proof.
  induction s as [|c r IH]; [intros []|]. cbn [trim_start].
  destruct (is_white_space c); [intros H; right; apply IH; exact H | auto].
Qed.

Lemma trim_sub (s : jsstring) (x : code_unit) : In x (trim s) -> In x s.
Proof.
  unfold trim. intros H. apply in_rev in H. apply trim_start_sub in H.
  apply in_rev in H. apply trim_start_sub in H. exact H.
Qed.

(** X11.  Parsing an entry loses nothing but the white space around
    it: every record comes from an entry of the configuration string
    whose trimmed text is identifier, colon, name, colon, target date,
    and no field of a record contains a colon or a comma. *)
Theorem parsed_record_reassembles_entry
  (s : jsstring) (w : World) (recs : list LocationTarget)
  (r : LocationTarget) :
  fst (parseLocations s w) = Ret recs ->
  In r recs ->
  exists entry,
    In entry (split comma s)
    /\ trim entry = id r ++ colon :: name r ++ colon :: targetDate r
    /\ (forall x, x = colon \/ x = comma ->
          ~ In x (id r) /\ ~ In x (name r) /\ ~ In x (targetDate r)).
Proof.
  intros Hp Hr.
  destruct s as [|c0 s0].
  { rewrite parseLocations_empty in Hp. injection Hp as <-. destruct Hr. }
  rewrite parseLocations_nonempty in Hp by discriminate.
  injection Hp as <-.
  apply in_map_iff in Hr as [entry [<- Hin]].
  apply filter_In in Hin as [Hin Hwf].
  exists entry. split; [exact Hin|].
  unfold well_formed in Hwf. apply Nat.eqb_eq in Hwf.
  unfold record_of. cbn [id name targetDate].
  pose proof (split_join colon (trim entry)) as Hjoin.
  assert (Hfree : forall p, In p (fields entry) -> ~ In colon p)
    by (intros p; apply split_parts_free).
  assert (Hsub : forall p x, In p (fields entry) -> In x p -> In x entry).
  { intros p x Hpin Hx. apply trim_sub.
    apply (split_parts_sub colon (trim entry) p x); assumption. }
  assert (Hcomma : ~ In comma entry)
    by (apply (split_parts_free comma (c0 :: s0)); exact Hin).
  fold (fields entry) in Hjoin.
  destruct (fields entry) as [|a [|b [|c [|]]]]; try discriminate.
  cbn [nth]. split; [symmetry; exact Hjoin|].
  intros x [-> | ->].
  - repeat split; apply Hfree; simpl; auto.
  - repeat split; intros Hx; apply Hcomma.
    + apply (Hsub a); simpl; auto.
    + apply (Hsub b); simpl; auto.
    + apply (Hsub c); simpl; auto.
Qed.

Lemma parsed_record_reassembles_entry_witness :
  exists entry,
    In entry (split comma (lit " 5140:JFK:2025-04-01 ,oops"))
    /\ trim entry = id jfk ++ colon :: name jfk ++ colon :: targetDate jfk.
Proof.
  destruct (parsed_record_reassembles_entry
              (lit " 5140:JFK:2025-04-01 ,oops") (initial_world Absent)
              [jfk] jfk)
    as [entry [H1 [H2 _]]].
  - reflexivity.
  - left; reflexivity.
  - exists entry. split; assumption.
Defined.

Lemma str_ltb_irrefl (a : jsstring) : str_ltb a a = false.
Proof.
  induction a as [|x a IH]; [reflexivity|]. cbn [str_ltb].
  rewrite N.ltb_irrefl. exact IH.
Qed.

Lemma str_ltb_nil_r (a : jsstring) : str_ltb a [] = false.
Proof. destruct a; reflexivity. Qed.

Lemma str_ltb_trans (a : jsstring) :
  forall b c, str_ltb a b = true -> str_ltb b c = true -> str_ltb a c = true.
Proof.
  induction a as [|x a IH]; intros [|y b] [|z c] Hab Hbc;
    try discriminate; try reflexivity.
  cbn [str_ltb] in *.
  destruct (N.ltb_spec x y) as [Hxy|Hxy].
  - destruct (N.ltb_spec y z) as [Hyz|Hyz].
    + destruct (N.ltb_spec x z); [reflexivity | lia].
    + destruct (N.ltb_spec z y); [discriminate|].
      assert (y = z) by lia. subst z.
      destruct (N.ltb_spec x y); [reflexivity | lia].
  - destruct (N.ltb_spec y x); [discriminate|].
    assert (x = y) by lia. subst y.
    destruct (N.ltb_spec x z) as [Hxz|Hxz]; [reflexivity|].
    destruct (N.ltb_spec z x); [discriminate|].
    apply (IH b c); assumption.
Qed.

(** X12.  Edge cases of the date test.  A slot on the target date
    itself is passed over, and so is every slot when the target date is
    empty.  A slot whose timestamp has an empty date part (it is empty
    or starts with ['T']) is announced for every non-empty target date
    when its key is new.  A slot that is announced for a target date is
    announced for every later target date of a location with the same
    identifier. *)
Theorem date_test_edge_cases
  (E : Env) (cfg : Config) (location : LocationTarget) (slot : Slot)
  (notified : JsSet) (n : nat) (w : World) :
  (appointmentDate slot = targetDate location ->
   slot_body E cfg location slot (notified, n) w
   = (Ret (notified, n),
      add_events w [ConsoleLog (MsgSlotLine (startTimestamp slot))]))
  /\ (targetDate location = [] ->
      slot_body E cfg location slot (notified, n) w
      = (Ret (notified, n),
         add_events w [ConsoleLog (MsgSlotLine (startTimestamp slot))]))
  /\ (appointmentDate slot = [] -> targetDate location <> [] ->
      set_has notified (JStr (appointmentKey location slot)) = false ->
      announced (trace (snd (slot_body E cfg location slot (notified, n) w))))
  /\ (forall later,
         qualifies location slot notified = true ->
         id later = id location ->
         str_ltb (targetDate location) (targetDate later) = true ->
         announced
           (trace (snd (slot_body E cfg later slot (notified, n) w)))).
Proof.
  split; [|split; [|split]].
  - intros Heq. apply slot_body_not_earlier.
    rewrite <- appointmentDate_prefix, Heq. apply str_ltb_irrefl.
  - intros Hnil. apply slot_body_not_earlier.
    rewrite Hnil. apply str_ltb_nil_r.
  - intros Hd Ht Hhas. apply slot_body_announces.
    apply qualifies_true. split; [|exact Hhas].
    rewrite Hd. destruct (targetDate location); [contradiction | reflexivity].
  - intros later Hq Hid Hlt. apply slot_body_announces.
    apply qualifies_true in Hq as [Hd Hhas].
    apply qualifies_true. split.
    + apply (str_ltb_trans _ (targetDate location)); assumption.
    + unfold appointmentKey in *. rewrite Hid. exact Hhas.
Qed.

Lemma date_test_edge_cases_witness :
  slot_body env_ok cfg_ok jfk {| startTimestamp := lit "2025-04-01T08:30" |}
    ([], 0) (initial_world Absent)
  = (Ret ([], 0),
     add_events (initial_world Absent)
       [ConsoleLog (MsgSlotLine (lit "2025-04-01T08:30"))])
  /\ announced
       (trace (snd (slot_body env_ok cfg_ok jfk
                      {| startTimestamp := lit "T08:30" |}
                      ([], 0) (initial_world Absent)))).
Proof.
  split.
  - apply (proj1 (date_test_edge_cases env_ok cfg_ok jfk
                    {| startTimestamp := lit "2025-04-01T08:30" |} [] 0
                    (initial_world Absent))).
    reflexivity.
  - apply (proj1 (proj2 (proj2 (date_test_edge_cases env_ok cfg_ok jfk
                                  {| startTimestamp := lit "T08:30" |} [] 0
                                  (initial_world Absent))))).
    + reflexivity.
    + discriminate.
    + reflexivity.
Defined.

(* ================================================================== *)
(** ** Further properties of the store *)
(* ================================================================== *)

Lemma filter_none_of_has (k : jsstring) (s : JsSet) :
  set_has s (JStr k) = false -> filter (same_value_zero (JStr k)) s = [].
Proof.
  unfold set_has. induction s as [|y s IH]; [reflexivity|].
  cbn [existsb filter]. intros H. apply orb_false_iff in H as [-> H].
  apply IH; exact H.
Qed.

Lemma set_add_once (k : jsstring) (s : JsSet) (x : json) :
  length (filter (same_value_zero (JStr k)) s) <= 1 ->
  length (filter (same_value_zero (JStr k)) (set_add s x)) <= 1.
Proof.
  intros H. unfold set_add. destruct (set_has s x) eqn:Hx; [exact H|].
  rewrite filter_app, length_app. cbn [filter].
  rewrite same_value_zero_positive_zero.
  destruct (same_value_zero (JStr k) x) eqn:Hk; [|cbn [length]; lia].
  apply same_value_zero_str in Hk. subst x.
  rewrite (filter_none_of_has k s Hx). cbn [length]. lia.
Qed.

Lemma fold_add_once (k : jsstring) (items : list json) :
  forall acc,
    length (filter (same_value_zero (JStr k)) acc) <= 1 ->
    length (filter (same_value_zero (JStr k)) (fold_left set_add items acc))
    <= 1.
Proof.
  induction items as [|x items IH]; intros acc H; cbn [fold_left];
    [exact H|].
  apply IH, set_add_once, H.
Qed.

Lemma fold_add_length (items : list json) :
  forall acc,
    length (fold_left set_add items acc) <= length acc + length items.
Proof.
  induction items as [|x items IH]; intros acc; cbn [fold_left length];
    [lia|].
  specialize (IH (set_add acc x)).
  assert (Hadd : length (set_add acc x) <= S (length acc)).
  { unfold set_add. destruct (set_has acc x); [lia|].
    rewrite length_app. cbn [length]. lia. }
  lia.
Qed.

(** X13.  Loading removes repetitions: when the file holds a JSON
    array, the loaded set holds exactly the strings the array lists,
    each of them once, however often the array repeats it, and never
    has more elements than the array. *)
Theorem load_keeps_each_key_once
  (w : World) (data : jsstring) (items : list json) :
  file w = Content data ->
  JSON_parse data = Some (JArr items) ->
  exists s,
    loadNotifiedAppointments w = (Ret s, w)
    /\ (forall k, set_has s (JStr k)
                  = existsb (same_value_zero (JStr k)) items)
    /\ (forall k, length (filter (same_value_zero (JStr k)) s) <= 1)
    /\ set_size s <= length items.
Proof.
  intros Hf Hp. exists (fold_left set_add items []).
  split; [rewrite load_cases, Hf, Hp; reflexivity|].
  split; [intros k; rewrite fold_add_has; reflexivity|].
  split; [intros k; apply fold_add_once; cbn; lia|].
  apply (fold_add_length items []).
Qed.

Lemma load_keeps_each_key_once_witness :
  exists s,
    loadNotifiedAppointments
      (initial_world
         (Content (JSON_stringify (JArr [JStr (lit "k"); JStr (lit "k")]))))
    = (Ret s,
       initial_world
         (Content (JSON_stringify (JArr [JStr (lit "k"); JStr (lit "k")]))))
    /\ set_has s (JStr (lit "k")) = true
    /\ length (filter (same_value_zero (JStr (lit "k"))) s) <= 1.
Proof.
  destruct (load_keeps_each_key_once
              (initial_world
                 (Content (JSON_stringify
                             (JArr [JStr (lit "k"); JStr (lit "k")]))))
              (JSON_stringify (JArr [JStr (lit "k"); JStr (lit "k")]))
              [JStr (lit "k"); JStr (lit "k")])
    as [s [H1 [H2 [H3 _]]]].
  - reflexivity.
  - reflexivity.
  - exists s. split; [exact H1|]. split; [rewrite H2; reflexivity | apply H3].
Defined.

Lemma for_slots_none_qualify (E : Env) (cfg : Config)
  (location : LocationTarget) (items : list json) (v : Vars) :
  forall slots,
    slots_of_items items = Some slots ->
    (forall slot, In slot slots -> qualifies location slot (fst v) = false) ->
    forall w, exists w',
      for_slots E cfg location items v w = (Ret v, w')
      /\ mails w' = mails w /\ requests w' = requests w.
Proof.
  destruct v as [notified n]. cbn [fst].
  induction items as [|x rest IH]; intros slots Hs Hq w.
  - exists w. repeat split.
  - cbn [slots_of_items] in Hs.
    destruct (as_slot x) as [slot|] eqn:Hx; [|discriminate].
    destruct (slots_of_items rest) as [slots'|] eqn:Hr; [|discriminate].
    injection Hs as <-.
    cbn [for_slots]. unfold bind.
    rewrite (slot_turn_slot E cfg location x slot _ Hx).
    rewrite slot_body_cases.
    rewrite (Hq slot (or_introl eq_refl)).
    destruct (IH slots' eq_refl (fun s Hs => Hq s (or_intror Hs))
                (add_events w [ConsoleLog (MsgSlotLine (startTimestamp slot))]))
      as [w' [Hw' [Hm Hr']]].
    exists w'. split; [exact Hw'|]. split; [exact Hm | exact Hr'].
Qed.

Lemma for_locations_none_qualify (E : Env) (cfg : Config)
  (locs : list LocationTarget) (v : Vars) :
  (forall n loc body,
      In loc locs -> http_get E n (id loc) = inr body ->
      exists slots,
        slots_of_body body = Some slots
        /\ forall slot, In slot slots -> qualifies loc slot (fst v) = false) ->
  forall w, exists w',
    for_locations E cfg locs v w = (Ret v, w') /\ mails w' = mails w.
Proof.
  intros Hq. induction locs as [|location rest IH]; intros w.
  - exists w. split; reflexivity.
  - cbn [for_locations]. unfold bind.
    rewrite location_body_cases. cbv zeta.
    assert (IH' : forall w0, exists w',
               for_locations E cfg rest v w0 = (Ret v, w')
               /\ mails w' = mails w0).
    { apply IH. intros n loc body Hin. apply Hq. right; exact Hin. }
    destruct (http_get E (requests w) (id location)) as [e|data] eqn:Hget.
    + match goal with
      | |- context [for_locations E cfg rest v ?w1] =>
          destruct (IH' w1) as [w' [Hw' Hm]]
      end.
      exists w'. split; [exact Hw' | rewrite Hm; reflexivity].
    + destruct (Hq (requests w) location data (or_introl eq_refl) Hget)
        as [slots [Hbody Hnone]].
      destruct (length_is_zero (or_empty_array data)) eqn:Hz.
      * match goal with
        | |- context [for_locations E cfg rest v ?w1] =>
            destruct (IH' w1) as [w' [Hw' Hm]]
        end.
        exists w'. split; [exact Hw' | rewrite Hm; reflexivity].
      * assert (Hitems : exists items,
                   or_empty_array data = JArr items
                   /\ slots_of_items items = Some slots).
        { unfold slots_of_body in Hbody. unfold or_empty_array in Hz |- *.
          destruct data as [|b|x|t|items|members];
            try (destruct (js_truthy _); [discriminate Hbody|];
                 rewrite length_is_zero_empty in Hz; discriminate Hz).
          exists items. split; [reflexivity | exact Hbody]. }
        destruct Hitems as [items [-> Hitems]].
        unfold for_of_slots. cbn [iterate].
        match goal with
        | |- context [for_slots E cfg location items v ?w0] =>
            destruct (for_slots_none_qualify E cfg location items v slots
                        Hitems Hnone w0)
              as [w2 [Hw2 [Hm2 _]]]
        end.
        rewrite Hw2.
        match goal with
        | |- context [for_locations E cfg rest v ?w1] =>
            destruct (IH' w1) as [w' [Hw' Hm]]
        end.
        exists w'. split; [exact Hw'|]. rewrite Hm.
        cbn [mails add_events]. rewrite Hm2. reflexivity.
Qed.

(** X14.  A run in which every response is a list of slots and no
    offered slot qualifies (each is on or after its target date, or
    already notified) sends no mail, ends normally, reports zero new
    notifications and saves exactly the set it loaded. *)
Theorem quiet_run_saves_the_loaded_set
  (E : Env) (cfg : Config) (w : World) (loaded : JsSet) :
  locations cfg <> [] ->
  fst (loadNotifiedAppointments (add_events w (banner cfg))) = Ret loaded ->
  (forall n loc body,
      In loc (locations cfg) ->
      http_get E n (id loc) = inr body ->
      exists slots,
        slots_of_body body = Some slots
        /\ forall slot, In slot slots -> qualifies loc slot loaded = false) ->
  exists w' pre post,
    checkAllLocations E cfg w = (Ret tt, w')
    /\ mails w' = mails w
    /\ trace w' = pre ++ WriteFile (JSON_stringify (JArr loaded)) :: post
    /\ In (ConsoleLog (MsgNewNotifications 0)) post.
Proof.
  intros Hne Hload Hq.
  destruct (checkAllLocations E cfg w) as [o w'] eqn:Hrun.
  destruct (checkAllLocations_shape E cfg w w' o Hrun)
    as [[Hl _] | [_ [loaded' [d0 [lo [w2 [post
         [Hl [_ [Hfor [Ht [Hm [_ Hpost]]]]]]]]]]]]]; [contradiction|].
  rewrite Hl in Hload. cbn [fst] in Hload. injection Hload as ->.
  destruct (for_locations_none_qualify E cfg (locations cfg) (loaded, 0) Hq
              (add_events w (banner cfg ++ d0))) as [w2' [Hfor' Hm']].
  rewrite Hfor in Hfor'. injection Hfor' as -> <-.
  destruct Hpost as [-> [err [-> _]]].
  exists w', (trace w2), (err ++ summary cfg (loaded, 0)).
  split; [reflexivity|]. split; [rewrite Hm, Hm'; reflexivity|].
  split; [exact Ht|].
  apply in_or_app; right. cbn [summary snd In]. tauto.
Qed.

Lemma quiet_run_saves_the_loaded_set_witness :
  exists w' pre post,
    checkAllLocations env_ok cfg_ok (initial_world (Content store_with_march))
    = (Ret tt, w')
    /\ mails w' = 0
    /\ trace w' = pre ++ WriteFile store_with_march :: post.
Proof.
  destruct (quiet_run_saves_the_loaded_set env_ok cfg_ok
              (initial_world (Content store_with_march))
              [JStr (appointmentKey jfk slot_march)])
    as [w' [pre [post [H1 [H2 [H3 _]]]]]].
  - discriminate.
  - vm_compute. reflexivity.
  - intros n loc body [<-|[]] Hget.
    injection Hget as <-. exists [slot_march].
    split; [reflexivity|]. intros slot [<-|[]]. reflexivity.
  - exists w', pre, post. split; [exact H1|]. split; [exact H2 | exact H3].
Defined.

(** X15.  The pause between locations is taken exactly after the
    locations for which slots were found: when the loop over the
    locations ends normally, it has paused as often as it has logged
    that appointments were found, so a location with no slot, or whose
    fetch failed, is followed by the next one at once. *)
Theorem pause_only_after_locations_with_slots
  (E : Env) (cfg : Config) (locs : list LocationTarget)
  (v v' : Vars) (w w' : World) :
  for_locations E cfg locs v w = (Ret v', w') ->
  exists d,
    trace w' = trace w ++ d
    /\ count is_delay d = count is_found_log d.
Proof.
  intros H. pose proof (ledger_for_locations E cfg locs v w) as L.
  rewrite H in L. cbn [fst snd] in L.
  destruct L as [d [Ht [_ [_ [_ [_ [_ [_ [_ [Hd _]]]]]]]]]].
  exists d. split; assumption.
Qed.

Lemma pause_only_after_locations_with_slots_witness :
  exists d,
    trace (snd (for_locations env_fetch_fails cfg_ok [jfk; jfk] ([], 0)
                  (initial_world Absent))) = [] ++ d
    /\ count is_delay d = count is_found_log d.
Proof.
  apply (pause_only_after_locations_with_slots env_fetch_fails cfg_ok
           [jfk; jfk] ([], 0) ([], 0) (initial_world Absent)
           (snd (for_locations env_fetch_fails cfg_ok [jfk; jfk] ([], 0)
                   (initial_world Absent)))).
  reflexivity.
Defined.

Local Open Scope N_scope.

(** A code unit from U+0020 on that is no surrogate, in front of a
    text. *)
Lemma plain_step (c : code_unit) (t t0 : jsstring) :
  32 <= c -> (c < 55296 \/ 57343 < c) ->
  as_clean_as t t0 -> as_clean_as (c :: t) t0.
Proof.
  intros H32 Hs [P W]. unfold as_clean_as. cbn [forallb well_paired].
  rewrite P, W.
  unfold not_c0_control, is_high_surrogate, is_low_surrogate.
  assert (N.leb 32 c = true) as -> by (apply N.leb_le; lia).
  destruct Hs as [Hs|Hs].
  - assert (N.leb 55296 c = false) as -> by (apply N.leb_gt; lia).
    assert (N.leb 56320 c = false) as -> by (apply N.leb_gt; lia).
    split; reflexivity.
  - assert (N.leb c 56319 = false) as -> by (apply N.leb_gt; lia).
    assert (N.leb c 57343 = false) as -> by (apply N.leb_gt; lia).
    rewrite !andb_false_r. split; reflexivity.
Qed.

(** A surrogate pair in front of a text. *)
Lemma pair_step (c d : code_unit) (t t0 : jsstring) :
  is_high_surrogate c = true -> is_low_surrogate d = true ->
  as_clean_as t t0 -> as_clean_as (c :: d :: t) t0.
Proof.
  intros Hc Hd [P W]. unfold as_clean_as. cbn [forallb well_paired].
  rewrite Hc, Hd, P, W.
  unfold is_high_surrogate in Hc. unfold is_low_surrogate in Hd.
  apply andb_true_iff in Hc as [Hc1 _]. apply andb_true_iff in Hd as [Hd1 _].
  apply N.leb_le in Hc1, Hd1. unfold not_c0_control.
  assert (N.leb 32 c = true) as -> by (apply N.leb_le; lia).
  assert (N.leb 32 d = true) as -> by (apply N.leb_le; lia).
  split; reflexivity.
Qed.

Lemma hex_char_plain (d : N) (t t0 : jsstring) :
  d < 16 -> as_clean_as t t0 -> as_clean_as (hex_char d :: t) t0.
Proof.
  intros Hd H. apply plain_step; [| |exact H];
    unfold hex_char; destruct (N.ltb_spec d 10); lia.
Qed.

Lemma unicode_escape_step (c : code_unit) (t t0 : jsstring) :
  as_clean_as t t0 -> as_clean_as (unicode_escape c ++ t) t0.
Proof.
  intros H. unfold unicode_escape. cbn [app].
  apply plain_step; [lia | lia |].
  apply plain_step; [lia | lia |].
  repeat (apply hex_char_plain; [apply N.mod_upper_bound; discriminate|]).
  exact H.
Qed.

Lemma quote_body_step_bounded (n : nat) :
  forall s t t0, (length s <= n)%nat ->
    as_clean_as t t0 -> as_clean_as (quote_body s ++ t) t0.
Proof.
  induction n as [|n IH]; intros s t t0 Hlen H.
  - destruct s; [exact H | simpl in Hlen; lia].
  - destruct s as [|c r]; [exact H|]. simpl in Hlen.
    assert (IHr : as_clean_as (quote_body r ++ t) t0)
      by (apply IH; [lia | exact H]).
    assert (Hesc : forall e, 32 <= e -> e < 55296 ->
               as_clean_as ((92 :: e :: quote_body r) ++ t) t0).
    { intros e H1 H2. cbn [app].
      apply plain_step; [lia | lia |].
      apply plain_step; [lia | lia | exact IHr]. }
    assert (Huni : as_clean_as ((unicode_escape c ++ quote_body r) ++ t) t0).
    { rewrite <- app_assoc. apply unicode_escape_step. exact IHr. }
    cbn [quote_body].
    destruct (N.eqb c 8); [apply Hesc; lia|].
    destruct (N.eqb c 9); [apply Hesc; lia|].
    destruct (N.eqb c 10); [apply Hesc; lia|].
    destruct (N.eqb c 12); [apply Hesc; lia|].
    destruct (N.eqb c 13); [apply Hesc; lia|].
    destruct (N.eqb c 34); [apply Hesc; lia|].
    destruct (N.eqb c 92); [apply Hesc; lia|].
    destruct (N.ltb_spec c 32) as [L32|G32]; [exact Huni|].
    destruct (is_high_surrogate c) eqn:Hhi.
    { destruct r as [|d r'].
      - apply unicode_escape_step. exact H.
      - destruct (is_low_surrogate d) eqn:Hd; [|exact Huni].
        cbn [app]. apply pair_step; [exact Hhi | exact Hd |].
        apply IH; [simpl in Hlen; lia | exact H]. }
    destruct (is_low_surrogate c) eqn:Hlo; [exact Huni|].
    cbn [app]. apply plain_step; [exact G32 | | exact IHr].
    unfold is_high_surrogate in Hhi. unfold is_low_surrogate in Hlo.
    apply andb_false_iff in Hhi. apply andb_false_iff in Hlo.
    rewrite !N.leb_gt in Hhi, Hlo. lia.
Qed.

Lemma quote_step (k t t0 : jsstring) :
  as_clean_as t t0 -> as_clean_as (quote k ++ t) t0.
Proof.
  intros H. unfold quote. cbn [app]. rewrite <- app_assoc. cbn [app].
  apply plain_step; [lia | lia |].
  apply (quote_body_step_bounded (length k)); [lia|].
  apply plain_step; [lia | lia | exact H].
Qed.

Lemma join_quotes_step (keys : list jsstring) (t t0 : jsstring) :
  as_clean_as t t0 ->
  as_clean_as (join_comma (List.map quote keys) ++ t) t0.
Proof.
  intros H. induction keys as [|k [|k' keys] IH].
  - exact H.
  - apply quote_step. exact H.
  - change (join_comma (List.map quote (k :: k' :: keys)))
      with (quote k ++ comma :: join_comma (List.map quote (k' :: keys))).
    rewrite <- app_assoc. cbn [app].
    apply quote_step. apply plain_step;
      [unfold comma; lia | unfold comma; lia | exact IH].
Qed.

Local Close Scope N_scope.

(** X16.  The text saved for a set of strings holds no code unit below
    U+0020 (no C0 control character, so no tab, line feed or carriage
    return) and no surrogate outside a pair, whatever the keys are. *)
Theorem saved_text_has_no_c0_control_or_lone_surrogate
  (E : Env) (keys : list jsstring) (w : World) :
  exists content rest,
    trace (snd (saveNotifiedAppointments E (List.map JStr keys) w))
    = trace w ++ WriteFile content :: rest
    /\ content = JSON_stringify (JArr (List.map JStr keys))
    /\ forallb not_c0_control content = true
    /\ well_paired content = true.
Proof.
  rewrite save_cases. cbv zeta.
  assert (Hclean : as_clean_as
                     (JSON_stringify (JArr (List.map JStr keys))) []).
  { rewrite stringify_keys.
    apply plain_step; [lia | lia |].
    apply join_quotes_step.
    apply plain_step; [lia | lia |]. split; reflexivity. }
  destruct Hclean as [P W].
  destruct (fs_write E (JSON_stringify (JArr (List.map JStr keys))));
    eexists; eexists;
    (split; [cbn [snd]; rewrite ?trace_add_events; unfold after_write;
             simpl trace; rewrite <- ?app_assoc; reflexivity|]);
    (split; [reflexivity|]); split; assumption.
Qed.

(* ================================================================== *)
(** ** The store and the relay *)
(* ================================================================== *)

Lemma mails_of_app (a b : list event) :
  mails_of (a ++ b) = mails_of a ++ mails_of b.
Proof.
  induction a as [|e a IH]; [reflexivity|].
  destruct e; cbn [app mails_of]; rewrite IH; reflexivity.
Qed.

Lemma accepted_app (E : Env) (a b : list Mail) :
  forall k,
    accepted E k (a ++ b)
    = accepted E k a ++ accepted E (k + length a) b.
Proof.
  induction a as [|m a IH]; intros k.
  - cbn [app accepted length]. rewrite Nat.add_0_r. reflexivity.
  - cbn [app accepted length]. rewrite IH.
    replace (S k + length a) with (k + S (length a)) by lia.
    destruct (smtp_send E k m); reflexivity.
Qed.

Lemma mails_of_console (d : list event) :
  forallb is_console d = true -> mails_of d = [].
Proof.
  induction d as [|e d IH]; [reflexivity|].
  cbn [forallb]. intros H. apply andb_true_iff in H as [He Hd].
  destruct e; try discriminate; cbn [mails_of]; apply IH; exact Hd.
Qed.

Lemma delivered_refl (E : Env) (v : Vars) (w : World) :
  delivered E v w (Ret v) w.
Proof.
  exists []. cbn [mails_of accepted List.map length].
  rewrite !app_nil_r, !Nat.add_0_r. repeat split.
Qed.

Lemma delivered_trans (E : Env) (v v1 : Vars) (w w1 w2 : World)
  (o : outcome Vars) :
  delivered E v w (Ret v1) w1 -> delivered E v1 w1 o w2 ->
  delivered E v w o w2.
Proof.
  intros [d1 [Ht1 [Hm1 [Hs1 Hn1]]]] [d2 [Ht2 [Hm2 Ho]]].
  exists (d1 ++ d2). rewrite mails_of_app, length_app.
  split; [rewrite Ht2, Ht1, app_assoc; reflexivity|].
  split; [lia|].
  destruct o as [v2|e|code]; [|exact I|exact I].
  destruct Ho as [Hs2 Hn2].
  rewrite accepted_app, <- Hm1, map_app, length_app.
  split; [rewrite Hs2, Hs1, app_assoc; reflexivity | lia].
Qed.

Lemma delivered_quiet (E : Env) (v : Vars) (w w' : World)
  (d : list event) :
  trace w' = trace w ++ d -> mails w' = mails w -> mails_of d = [] ->
  delivered E v w (Ret v) w'.
Proof.
  intros Ht Hm Hd. exists d. rewrite Hd.
  cbn [accepted List.map length]. rewrite app_nil_r, !Nat.add_0_r.
  repeat split; assumption.
Qed.

Ltac delivered_quiet_step :=
  eapply delivered_quiet;
  [ cbn [trace add_events after_request after_mail];
    rewrite <- ?app_assoc; cbn [app]; reflexivity
  | reflexivity | reflexivity ].

Lemma delivered_slot_body (E : Env) (cfg : Config)
  (location : LocationTarget) (slot : Slot) (v : Vars) (w : World) :
  delivered E v w (fst (slot_body E cfg location slot v w))
                  (snd (slot_body E cfg location slot v w)).
Proof.
  destruct v as [notified n]. rewrite slot_body_cases.
  destruct (qualifies location slot notified) eqn:Hq; cbv zeta.
  - apply qualifies_true in Hq as [_ Hhas].
    destruct (credentials_set cfg) eqn:Hc.
    + destruct (smtp_send E (mails w) (mail_of cfg (notice_of location slot)))
        as [e|] eqn:Hsend; cbn [fst snd].
      * exists [ConsoleLog (MsgSlotLine (startTimestamp slot));
                ConsoleLog MsgBetterFound;
                SendMail (mail_of cfg (notice_of location slot));
                ConsoleError (MsgErrorSendingEmail e)].
        cbn [mails_of accepted]. rewrite Hsend.
        cbn [List.map length]. rewrite app_nil_r, Nat.add_0_r.
        split.
        { cbn [trace add_events after_mail]. rewrite <- !app_assoc.
          reflexivity. }
        split; [cbn [mails add_events after_mail length]; lia|]. split; reflexivity.
      * exists [ConsoleLog (MsgSlotLine (startTimestamp slot));
                ConsoleLog MsgBetterFound;
                SendMail (mail_of cfg (notice_of location slot));
                ConsoleLog (MsgEmailSent (notice_of location slot))].
        cbn [mails_of accepted]. rewrite Hsend.
        cbn [List.map length].
        split.
        { cbn [trace add_events after_mail]. rewrite <- !app_assoc.
          reflexivity. }
        split; [cbn [mails add_events after_mail length]; lia|].
        rewrite set_add_fresh by assumption.
        split; [reflexivity | cbn [fst snd]; lia].
    + cbn [fst snd].
      exists [ConsoleLog (MsgSlotLine (startTimestamp slot));
              ConsoleLog MsgBetterFound].
      split; [reflexivity|]. split; [cbn [mails add_events mails_of length]; lia | exact I].
  - cbn [fst snd]. delivered_quiet_step.
Qed.

Lemma delivered_type_error (E : Env) (v : Vars) (w : World) :
  delivered E v w (Throw TypeError) w.
Proof.
  exists []. cbn [mails_of length]. rewrite app_nil_r, Nat.add_0_r.
  repeat split.
Qed.

Lemma delivered_slot_turn (E : Env) (cfg : Config)
  (location : LocationTarget) (x : json) (v : Vars) (w : World) :
  delivered E v w (fst (slot_turn E cfg location x v w))
                  (snd (slot_turn E cfg location x v w)).
Proof.
  unfold slot_turn. destruct (as_slot x) as [slot|].
  - apply delivered_slot_body.
  - apply delivered_type_error.
Qed.

Lemma delivered_for_slots (E : Env) (cfg : Config)
  (location : LocationTarget) (slots : list json) :
  forall (v : Vars) (w : World),
    delivered E v w (fst (for_slots E cfg location slots v w))
                    (snd (for_slots E cfg location slots v w)).
Proof.
  induction slots as [|x rest IH]; intros v w.
  - apply delivered_refl.
  - cbn [for_slots]. unfold bind.
    pose proof (delivered_slot_turn E cfg location x v w) as Hs.
    destruct (slot_turn E cfg location x v w) as [[v1|e|code] w1];
      cbn [fst snd] in Hs |- *.
    + eapply delivered_trans; [exact Hs | apply IH].
    + exact Hs.
    + exact Hs.
Qed.

Lemma delivered_for_of_slots (E : Env) (cfg : Config)
  (location : LocationTarget) (slots : json) (v : Vars) (w : World) :
  delivered E v w (fst (for_of_slots E cfg location slots v w))
                  (snd (for_of_slots E cfg location slots v w)).
Proof.
  unfold for_of_slots. destruct (iterate slots) as [items|].
  - apply delivered_for_slots.
  - apply delivered_type_error.
Qed.

Lemma delivered_location_body (E : Env) (cfg : Config)
  (location : LocationTarget) (v : Vars) (w : World) :
  delivered E v w (fst (location_body E cfg location v w))
                  (snd (location_body E cfg location v w)).
Proof.
  rewrite location_body_cases. cbv zeta.
  destruct (http_get E (requests w) (id location)) as [e|data].
  - cbn [fst snd]. delivered_quiet_step.
  - destruct (length_is_zero (or_empty_array data)).
    + cbn [fst snd]. delivered_quiet_step.
    + match goal with
      | |- context [for_of_slots E cfg location ?s v ?w0] =>
          pose proof (delivered_for_of_slots E cfg location s v w0) as Hs;
          destruct (for_of_slots E cfg location s v w0) as [[v1|e|code] w2]
      end; cbn [fst snd] in Hs |- *.
      * eapply delivered_trans; [|eapply delivered_trans; [exact Hs|]];
          delivered_quiet_step.
      * eapply delivered_trans; [|exact Hs]. delivered_quiet_step.
      * eapply delivered_trans; [|exact Hs]. delivered_quiet_step.
Qed.

Lemma delivered_for_locations (E : Env) (cfg : Config)
  (locs : list LocationTarget) :
  forall (v : Vars) (w : World),
    delivered E v w (fst (for_locations E cfg locs v w))
                    (snd (for_locations E cfg locs v w)).
Proof.
  induction locs as [|location rest IH]; intros v w.
  - apply delivered_refl.
  - cbn [for_locations]. unfold bind.
    pose proof (delivered_location_body E cfg location v w) as Hs.
    destruct (location_body E cfg location v w) as [[v1|e|code] w1];
      cbn [fst snd] in Hs |- *.
    + eapply delivered_trans; [exact Hs | apply IH].
    + exact Hs.
    + exact Hs.
Qed.

(** X17.  The store is the record of what the relay accepted: a run
    that ends normally writes the set it loaded followed by the keys of
    the mails the relay accepted, in the order they were sent, and
    reports their number as new notifications. *)
Theorem store_holds_keys_of_accepted_mails
  (E : Env) (cfg : Config) (w w' : World) :
  checkAllLocations E cfg w = (Ret tt, w') ->
  exists loaded pre post,
    fst (loadNotifiedAppointments (add_events w (banner cfg))) = Ret loaded
    /\ trace w'
       = trace w ++ pre
         ++ WriteFile
              (JSON_stringify
                 (JArr (loaded
                        ++ List.map key_of_mail
                             (accepted E (mails w) (mails_of pre)))))
            :: post
    /\ mails_of post = []
    /\ In (ConsoleLog
             (MsgNewNotifications
                (length (accepted E (mails w) (mails_of pre)))))
          post.
Proof.
  intros H.
  destruct (checkAllLocations_shape E cfg w w' (Ret tt) H)
    as [[_ [Hx _]] | [_ [loaded [d0 [lo [w2 [post
         [Hl [[Hc0 _] [Hfor [Ht [_ [_ Hpost]]]]]]]]]]]]];
    [discriminate|].
  pose proof (delivered_for_locations E cfg (locations cfg) (loaded, 0)
                (add_events w (banner cfg ++ d0))) as D.
  rewrite Hfor in D. cbn [fst snd] in D.
  destruct D as [d [Htd [_ Hv]]].
  destruct lo as [v|e|code];
    [|destruct Hpost as [Hx _]; discriminate
     |destruct Hpost as [Hx _]; discriminate].
  destruct Hpost as [_ [err [-> [Herr _]]]].
  destruct Hv as [Hs Hn]. cbn [fst snd mails add_events] in Hs, Hn.
  assert (Hpre : mails_of ((banner cfg ++ d0) ++ d) = mails_of d).
  { rewrite !mails_of_app.
    rewrite (mails_of_console _ (banner_console cfg)).
    rewrite (mails_of_console _ Hc0). reflexivity. }
  exists loaded, ((banner cfg ++ d0) ++ d), (err ++ summary cfg v).
  rewrite Hpre, <- Hs.
  split; [rewrite Hl; reflexivity|].
  split.
  { rewrite Ht, Htd. rewrite trace_add_events, <- !app_assoc. reflexivity. }
  split.
  { rewrite mails_of_app, (mails_of_console _ Herr).
    rewrite (mails_of_console _ (summary_console cfg v)). reflexivity. }
  apply in_or_app. right. unfold summary. rewrite Hn.
  cbn [In]. do 4 right. left. reflexivity.
Qed.

Lemma store_holds_keys_of_accepted_mails_witness :
  exists loaded pre post,
    fst (loadNotifiedAppointments
           (add_events (initial_world Absent) (banner cfg_ok))) = Ret loaded
    /\ trace (snd (checkAllLocations env_first_mail_refused cfg_ok
                     (initial_world Absent)))
       = trace (initial_world Absent) ++ pre
         ++ WriteFile
              (JSON_stringify
                 (JArr (loaded
                        ++ List.map key_of_mail
                             (accepted env_first_mail_refused
                                (mails (initial_world Absent))
                                (mails_of pre)))))
            :: post
    /\ mails_of post = []
    /\ In (ConsoleLog
             (MsgNewNotifications
                (length (accepted env_first_mail_refused
                           (mails (initial_world Absent)) (mails_of pre)))))
          post.
Proof.
  apply (store_holds_keys_of_accepted_mails env_first_mail_refused cfg_ok
           (initial_world Absent)
           (snd (checkAllLocations env_first_mail_refused cfg_ok
                   (initial_world Absent)))).
  vm_compute. reflexivity.
Defined.
